(** * Riva Choice: the grouping and ordered-collection engine of [src/index.tsx]

    A shallow embedding of the key extractor ([getSkuFromFilename]), of the
    group store (the [Map<string, OrganizedImage[]>] held in React state and
    the reducers passed to [setOrganizedImages]) and of the export naming
    rule, followed by the properties the specification states about them. *)

From Stdlib Require Import List NArith Bool Arith Lia.
From Stdlib Require Strings.String Strings.Ascii Numbers.DecimalString.
Import ListNotations.
Import String.StringSyntax.
Delimit Scope string_scope with string.

(** ** JavaScript strings

    A JavaScript string is a sequence of UTF-16 code units; a code unit is
    modelled as a number in [N]. *)

Definition char := N.
Definition str := list char.

(** Literals: the code units of an ASCII string. *)
Definition js (s : String.string) : str :=
  map Ascii.N_of_ascii (String.list_ascii_of_string s).
Arguments js s%_string.

Definition c_dot : char := 46%N.
Definition c_hyphen : char := 45%N.
Definition c_underscore : char := 95%N.
Definition c_lparen : char := 40%N.
Definition c_rparen : char := 41%N.

(** The class [\d] (without the unicode flag): the ten ASCII digits. *)
Definition is_digit (c : char) : bool := (48 <=? c)%N && (c <=? 57)%N.

(** The class [\s], which is also what [String.prototype.trim] removes:
    ECMAScript WhiteSpace and LineTerminator code points. *)
Definition is_space (c : char) : bool :=
  existsb (N.eqb c)
    [9; 10; 11; 12; 13; 32; 160; 5760; 8232; 8233; 8239; 8287; 12288; 65279]%N
  || ((8192 <=? c)%N && (c <=? 8202)%N).

(** The class [[-_]]. *)
Definition is_sep (c : char) : bool := (c =? c_hyphen)%N || (c =? c_underscore)%N.

(** The class [[^)]]. *)
Definition not_rparen (c : char) : bool := negb (c =? c_rparen)%N.

Definition is_char (x : char) (c : char) : bool := (c =? x)%N.

Fixpoint str_eqb (a b : str) : bool :=
  match a, b with
  | [], [] => true
  | x :: a', y :: b' => (x =? y)%N && str_eqb a' b'
  | _, _ => false
  end.

(** A string is truthy exactly when it is not empty. *)
Definition truthy (s : str) : bool :=
  match s with [] => false | _ :: _ => true end.

Fixpoint dropWhile (p : char -> bool) (s : str) : str :=
  match s with
  | [] => []
  | c :: s' => if p c then dropWhile p s' else s
  end.

(** [s.trim()] *)
Definition trim (s : str) : str :=
  rev (dropWhile is_space (rev (dropWhile is_space s))).

(** [s.split(sep)] for a one-character separator: never an empty array. *)
Fixpoint split (sep : char) (s : str) : list str :=
  match s with
  | [] => [[]]
  | c :: s' =>
      if (c =? sep)%N then [] :: split sep s'
      else match split sep s' with
           | seg :: segs => (c :: seg) :: segs
           | [] => [[c]]
           end
  end.

(** [a.slice(0, -1)]: all elements but the last. *)
Definition slice_0_m1 {A : Type} (l : list A) : list A := removelast l.

(** [a.join(sep)] *)
Fixpoint join (sep : char) (l : list str) : str :=
  match l with
  | [] => []
  | [x] => x
  | x :: rest => x ++ sep :: join sep rest
  end.

(** ** Regular expressions

    The fragment of ECMAScript regular expressions the program uses, with a
    backtracking matcher in continuation-passing style: [exec r s k] matches
    [r] at the start of [s] and hands what is left of [s] to [k]; greedy
    quantifiers try the longest repetition first and give characters back
    when the continuation fails. *)

Inductive regex : Type :=
| Class (p : char -> bool)            (* one character of a class *)
| Repeat (p : char -> bool) (n : nat) (* c{n} *)
| Star (p : char -> bool)             (* c*, greedy *)
| Plus (p : char -> bool)             (* c+, greedy *)
| EndAnchor                           (* $ without the multiline flag *)
| Then (r1 r2 : regex)                (* r1 r2 *)
| Or (r1 r2 : regex).                 (* r1|r2 *)

Fixpoint exec_repeat (p : char -> bool) (n : nat) (s : str)
    (k : str -> option str) : option str :=
  match n with
  | 0 => k s
  | S n' =>
      match s with
      | c :: s' => if p c then exec_repeat p n' s' k else None
      | [] => None
      end
  end.

Fixpoint exec_star (p : char -> bool) (s : str)
    (k : str -> option str) : option str :=
  match s with
  | c :: s' =>
      if p c then
        match exec_star p s' k with
        | Some r => Some r
        | None => k s
        end
      else k s
  | [] => k []
  end.

Fixpoint exec (r : regex) (s : str) (k : str -> option str) : option str :=
  match r with
  | Class p =>
      match s with
      | c :: s' => if p c then k s' else None
      | [] => None
      end
  | Repeat p n => exec_repeat p n s k
  | Star p => exec_star p s k
  | Plus p =>
      match s with
      | c :: s' => if p c then exec_star p s' k else None
      | [] => None
      end
  | EndAnchor => match s with [] => k [] | _ :: _ => None end
  | Then r1 r2 => exec r1 s (fun s' => exec r2 s' k)
  | Or r1 r2 =>
      match exec r1 s k with
      | Some rest => Some rest
      | None => exec r2 s k
      end
  end.

(** A match of [r] starting exactly at the head of [s]: what follows it. *)
Definition match_here (r : regex) (s : str) : option str :=
  exec r s (fun rest => Some rest).

(** The leftmost match: the text before it (kept reversed while scanning),
    the matched text and the text after it. Every start position is tried,
    the end of the string included. *)
Fixpoint search (r : regex) (before_rev : str) (s : str)
    : option (str * str * str) :=
  match match_here r s with
  | Some rest =>
      Some (rev before_rev, firstn (length s - length rest) s, rest)
  | None =>
      match s with
      | [] => None
      | c :: s' => search r (c :: before_rev) s'
      end
  end.

(** [s.match(r)] for a regular expression without the global flag whose
    only capture group spans the whole expression: [m[1]] when it matches. *)
Definition str_match (r : regex) (s : str) : option str :=
  match search r [] s with
  | Some (_, m, _) => Some m
  | None => None
  end.

(** [s.replace(r, '')] for a regular expression without the global flag. *)
Definition replace_empty (r : regex) (s : str) : str :=
  match search r [] s with
  | Some (before, _, after) => before ++ after
  | None => s
  end.

(** ** Key extractor: [getSkuFromFilename] *)

(** [/(\d{6}-\d{5}-\d{3})/] *)
Definition skuRegex : regex :=
  Then (Repeat is_digit 6)
    (Then (Class (is_char c_hyphen))
       (Then (Repeat is_digit 5)
          (Then (Class (is_char c_hyphen)) (Repeat is_digit 3)))).

(** [/\s*\([^)]*\)$/] *)
Definition parenRegex : regex :=
  Then (Star is_space)
    (Then (Class (is_char c_lparen))
       (Then (Star not_rparen)
          (Then (Class (is_char c_rparen)) EndAnchor))).

(** [/[-_]\d+$|[-_]$/] *)
Definition suffixRegex : regex :=
  Or (Then (Class is_sep) (Then (Plus is_digit) EndAnchor))
     (Then (Class is_sep) EndAnchor).

(** [filename.split('.').slice(0, -1).join('.').trim()] *)
Definition baseName (filename : str) : str :=
  trim (join c_dot (slice_0_m1 (split c_dot filename))).

(** The [do ... while (name !== previousName && name.length > 0)] loop; it
    returns [None] when it is still running after [fuel] iterations. *)
Fixpoint stripLoop (fuel : nat) (name : str) : option str :=
  match fuel with
  | 0 => None
  | S fuel' =>
      let previousName := name in
      let name := replace_empty suffixRegex name in
      if negb (str_eqb name previousName) && (0 <? length name)
      then stripLoop fuel' name
      else Some name
  end.

Definition getSkuFromFilename_fuel (fuel : nat) (filename : str)
    : option str :=
  let continue :=
    let name := baseName filename in
    let name := replace_empty parenRegex name in
    match stripLoop fuel name with
    | Some name => Some (if truthy name then name else baseName filename)
    | None => None
    end in
  match str_match skuRegex filename with
  | Some m1 => if truthy m1 then Some m1 else continue
  | None => continue
  end.

(** The loop shortens [name] at every iteration but the last, so
    [length filename + 1] iterations always suffice (lemma
    [getSku_fuel_enough] below); the default is never used. *)
Definition getSkuFromFilename (filename : str) : str :=
  match getSkuFromFilename_fuel (S (length filename)) filename with
  | Some sku => sku
  | None => []
  end.


(** ** Specification-level notions for the key extractor

    The structured code: 6 digits, hyphen, 5 digits, hyphen, 3 digits. *)

(** [is_sku_code c]: the string [c] is, as a whole, such a code. *)
Definition is_sku_code (c : str) : bool :=
  match c with
  | [a1; a2; a3; a4; a5; a6; h1; b1; b2; b3; b4; b5; h2; d1; d2; d3] =>
      forallb is_digit [a1; a2; a3; a4; a5; a6] && (h1 =? c_hyphen)%N &&
      forallb is_digit [b1; b2; b3; b4; b5] && (h2 =? c_hyphen)%N &&
      forallb is_digit [d1; d2; d3]
  | _ => false
  end.

(** Some substring of [s] is a code: one starts at some position of [s]. *)
Fixpoint contains_sku_code (s : str) : bool :=
  is_sku_code (firstn 16 s) ||
  match s with
  | [] => false
  | _ :: s' => contains_sku_code s'
  end.

(** No code starts at any of the first [n] positions of [s]. *)
Fixpoint no_code_before (n : nat) (s : str) : bool :=
  match n with
  | 0 => true
  | S n' =>
      negb (is_sku_code (firstn 16 s)) &&
      match s with
      | [] => true
      | _ :: s' => no_code_before n' s'
      end
  end.

(** A trailing parenthesized suffix: optional white space, an opening
    parenthesis, characters other than [)], a closing parenthesis. *)
Definition paren_suffix (u : str) : Prop :=
  exists ws body,
    u = ws ++ c_lparen :: body ++ [c_rparen] /\
    forallb is_space ws = true /\ forallb not_rparen body = true.

(** A trailing numeric suffix: [-] or [_] followed by digits, or alone. *)
Definition numeric_suffix (u : str) : Prop :=
  exists c ds, u = c :: ds /\ is_sep c = true /\ forallb is_digit ds = true.

(** [strip_suffix P s s']: [s'] is [s] without its longest suffix that
    satisfies [P], or [s] itself when no suffix of [s] does. *)
Inductive strip_suffix (P : str -> Prop) : str -> str -> Prop :=
| strip_longest (p u : str) :
    P u ->
    (forall p' u', p ++ u = p' ++ u' -> P u' -> length p <= length p') ->
    strip_suffix P (p ++ u) p
| strip_nothing (s : str) :
    (forall p u, s = p ++ u -> ~ P u) ->
    strip_suffix P s s.

(** Stripping numeric suffixes one at a time until none remains. *)
Inductive strip_repeatedly : str -> str -> Prop :=
| strip_stop (s : str) :
    (forall p u, s = p ++ u -> ~ numeric_suffix u) ->
    strip_repeatedly s s
| strip_again (p u r : str) :
    numeric_suffix u ->
    strip_repeatedly p r ->
    strip_repeatedly (p ++ u) r.

(** The extension stage, amended: what is kept is the text before the
    final [.] with the white space at both ends removed, and nothing is
    kept of a name without a [.]. *)
Inductive strip_extension : str -> str -> Prop :=
| ext_dot (stem ext : str) :
    ~ In c_dot ext ->
    strip_extension (stem ++ c_dot :: ext) (trim stem)
| ext_nodot (s : str) :
    ~ In c_dot s ->
    strip_extension s [].

(** The extension stage in the words of the specification: the text after
    the final [.] is removed, with that [.] and nothing else; a name
    without a [.] has no extension to remove. *)
Inductive worded_strip_extension : str -> str -> Prop :=
| worded_dot (stem ext : str) :
    ~ In c_dot ext ->
    worded_strip_extension (stem ++ c_dot :: ext) stem
| worded_nodot (s : str) :
    ~ In c_dot s ->
    worded_strip_extension s s.

(** The key in the words of the specification: strip the extension, then
    one trailing parenthesized suffix, then trailing numeric suffixes one
    at a time until none remains. *)
Definition worded_key (filename key : str) : Prop :=
  exists base stripped : str,
    worded_strip_extension filename base /\
    strip_suffix paren_suffix base stripped /\
    strip_repeatedly stripped key.

(** ** Data model *)

(** A [File]: its name and a handle standing for the binary content it
    refers to. *)
Record File : Type := { name : str; blob : nat }.

(** [interface OrganizedImage]; the optional [prefix] is absent or a
    string, possibly the empty one. *)
Record OrganizedImage : Type := {
  id : str;
  file : File;
  url : str;
  prefix : option str
}.

(** An array element as it is at run time: an image, or [undefined]
    ([None]), which [splice] can store when the dragged item is missing. *)
Definition slot : Type := option OrganizedImage.

(** ** [Map]: keys in insertion order *)

Definition JsMap (V : Type) : Type := list (str * V).

Fixpoint map_get {V : Type} (m : JsMap V) (k : str) : option V :=
  match m with
  | [] => None
  | (k', v) :: m' => if str_eqb k' k then Some v else map_get m' k
  end.

Definition map_has {V : Type} (m : JsMap V) (k : str) : bool :=
  match map_get m k with Some _ => true | None => false end.

(** [m.set(k, v)]: an existing key keeps its place, a new key goes last. *)
Fixpoint map_set {V : Type} (m : JsMap V) (k : str) (v : V) : JsMap V :=
  match m with
  | [] => [(k, v)]
  | (k', v') :: m' =>
      if str_eqb k' k then (k', v) :: m' else (k', v') :: map_set m' k v
  end.

Fixpoint map_delete {V : Type} (m : JsMap V) (k : str) : JsMap V :=
  match m with
  | [] => []
  | (k', v') :: m' =>
      if str_eqb k' k then map_delete m' k else (k', v') :: map_delete m' k
  end.

(** The state [organizedImages]. *)
Definition Store : Type := JsMap (list slot).

(** ** Effects

    The handlers call [crypto.randomUUID], [URL.createObjectURL] and
    [URL.revokeObjectURL], and reading a property of [undefined] throws a
    [TypeError]. The browser is a state: the values the two generators will
    return, in call order, and the URLs revoked so far. *)

Record Browser : Type := {
  uuids : nat -> str;
  objectUrls : nat -> str;
  revoked : list str
}.

Inductive outcome (A : Type) : Type :=
| Ok (a : A)
| TypeError.
Arguments Ok {A} a.
Arguments TypeError {A}.

Definition M (A : Type) : Type := Browser -> outcome A * Browser.

Definition ret {A : Type} (a : A) : M A := fun b => (Ok a, b).

Definition bind {A B : Type} (c : M A) (k : A -> M B) : M B :=
  fun b =>
    match c b with
    | (Ok a, b') => k a b'
    | (TypeError, b') => (TypeError, b')
    end.

Notation "x <- c ;; k" := (bind c (fun x => k))
  (at level 61, c at next level, right associativity).
Notation "c ;;; k" := (bind c (fun _ => k))
  (at level 61, right associativity).

Definition throw {A : Type} : M A := fun b => (TypeError, b).

Definition randomUUID : M str :=
  fun b =>
    (Ok (uuids b 0),
     {| uuids := fun n => uuids b (S n);
        objectUrls := objectUrls b;
        revoked := revoked b |}).

Definition createObjectURL (f : File) : M str :=
  fun b =>
    (Ok (objectUrls b 0),
     {| uuids := uuids b;
        objectUrls := fun n => objectUrls b (S n);
        revoked := revoked b |}).

Definition revokeObjectURL (u : str) : M unit :=
  fun b =>
    (Ok tt,
     {| uuids := uuids b;
        objectUrls := objectUrls b;
        revoked := revoked b ++ [u] |}).

(** ** Arrays *)

(** [a.splice(start, 1)]: the array afterwards, and the first element of
    the array of removed elements ([undefined] when nothing was there). *)
Definition splice_remove (a : list slot) (start : nat) : list slot * slot :=
  (firstn start a ++ skipn (S start) a,
   match nth_error a start with
   | Some removed => removed
   | None => None
   end).

(** [a.splice(start, 0, x)]: insertion, at the end when [start] is past it. *)
Definition splice_insert (a : list slot) (start : nat) (x : slot)
    : list slot :=
  firstn start a ++ x :: skipn start a.

(** [img.id === imageId], which throws on [undefined]. *)
Definition id_is (imageId : str) (img : slot) : M bool :=
  match img with
  | Some i => ret (str_eqb (id i) imageId)
  | None => throw
  end.

(** [a.find(f)] *)
Fixpoint array_find (f : slot -> M bool) (a : list slot) : M slot :=
  match a with
  | [] => ret None
  | x :: a' =>
      found <- f x ;;
      if (found : bool) then ret x else array_find f a'
  end.

(** [a.filter(f)] *)
Fixpoint array_filter (f : slot -> M bool) (a : list slot) : M (list slot) :=
  match a with
  | [] => ret []
  | x :: a' =>
      keep <- f x ;;
      rest <- array_filter f a' ;;
      ret (if (keep : bool) then x :: rest else rest)
  end.

(** [a.map(f)] *)
Fixpoint array_map (f : slot -> M slot) (a : list slot) : M (list slot) :=
  match a with
  | [] => ret []
  | x :: a' =>
      y <- f x ;;
      rest <- array_map f a' ;;
      ret (y :: rest)
  end.

(** [a.forEach(f)] *)
Fixpoint forEach {A : Type} (f : A -> M unit) (a : list A) : M unit :=
  match a with
  | [] => ret tt
  | x :: a' => f x ;;; forEach f a'
  end.

(** [img => URL.revokeObjectURL(img.url)] *)
Definition revokeImage (img : slot) : M unit :=
  match img with
  | Some i => revokeObjectURL (url i)
  | None => throw
  end.

(** ** Group store: the reducers passed to [setOrganizedImages]

    Indices are natural numbers: the callers pass array indices and array
    lengths. *)

Definition handleDuplicateImage (sku : str) (index : nat) (prev : Store)
    : M Store :=
  let newMap := prev in
  match map_get newMap sku with
  | None => ret prev
  | Some imageGroup =>
      match nth_error imageGroup index with
      | Some (Some originalImage) =>
          newId <- randomUUID ;;
          let duplicatedImage :=
            {| id := newId;
               file := file originalImage;
               url := url originalImage;
               prefix := prefix originalImage |} in
          let newImageGroup :=
            splice_insert imageGroup (index + 1) (Some duplicatedImage) in
          ret (map_set newMap sku newImageGroup)
      | _ => ret prev
      end
  end.

Definition handleDeleteImage (sku imageId : str) (prev : Store) : M Store :=
  let newMap := prev in
  match map_get newMap sku with
  | None => ret prev
  | Some imageGroup =>
      imageToDelete <- array_find (id_is imageId) imageGroup ;;
      match imageToDelete with
      | Some img => revokeObjectURL (url img)
      | None => ret tt
      end ;;;
      newImageGroup <-
        array_filter (fun img => same <- id_is imageId img ;; ret (negb same))
          imageGroup ;;
      if 0 <? length newImageGroup
      then ret (map_set newMap sku newImageGroup)
      else ret (map_delete newMap sku)
  end.

(** [confirmed] is the answer of [window.confirm]. *)
Definition handleDeleteGroup (confirmed : bool) (sku : str) (prev : Store)
    : M Store :=
  if confirmed then
    let newMap := prev in
    match map_get newMap sku with
    | Some groupToDelete => forEach revokeImage groupToDelete
    | None => ret tt
    end ;;;
    ret (map_delete newMap sku)
  else ret prev.

Definition handleSkuChange (oldSku newSku : str) (prev : Store) : Store :=
  if negb (truthy newSku) || str_eqb oldSku newSku then prev
  else
    let newMap := prev in
    let images :=
      match map_get newMap oldSku with Some i => i | None => [] end in
    let newMap := map_delete newMap oldSku in
    if map_has newMap newSku then
      let existingImages :=
        match map_get newMap newSku with Some i => i | None => [] end in
      map_set newMap newSku (existingImages ++ images)
    else map_set newMap newSku images.

Definition handleImagePrefixChange (sku imageId newPrefix : str)
    (prev : Store) : M Store :=
  let newMap := prev in
  match map_get newMap sku with
  | None => ret prev
  | Some imageGroup =>
      newImageGroup <-
        array_map
          (fun img =>
             same <- id_is imageId img ;;
             match (same : bool), img with
             | true, Some i =>
                 ret (Some {| id := id i; file := file i; url := url i;
                              prefix := Some newPrefix |})
             | _, _ => ret img
             end)
          imageGroup ;;
      ret (map_set newMap sku newImageGroup)
  end.

(** [draggedItem] is the state set by [handleDragStart], [null] ([None])
    when no item is being dragged. *)
Definition handleDropReorder (draggedItem : option (str * nat))
    (targetGroup : str) (targetIndex : nat) (prev : Store) : Store :=
  match draggedItem with
  | None => prev
  | Some (sourceGroup, sourceIndex) =>
      let newMap := prev in
      let sourceImageGroup :=
        match map_get newMap sourceGroup with Some g => g | None => [] end in
      let '(sourceImageGroup, removed) :=
        splice_remove sourceImageGroup sourceIndex in
      if str_eqb sourceGroup targetGroup then
        let sourceImageGroup :=
          splice_insert sourceImageGroup targetIndex removed in
        map_set newMap sourceGroup sourceImageGroup
      else
        let targetImageGroup :=
          match map_get newMap targetGroup with Some g => g | None => [] end in
        let targetImageGroup :=
          splice_insert targetImageGroup targetIndex removed in
        let newMap := map_set newMap targetGroup targetImageGroup in
        if length sourceImageGroup =? 0
        then map_delete newMap sourceGroup
        else map_set newMap sourceGroup sourceImageGroup
  end.

(** [draggedGroupSku] is the state set by [handleGroupDragStart]. *)
Definition handleGroupDrop (draggedGroupSku : option str) (targetSku : str)
    (prev : Store) : Store :=
  match draggedGroupSku with
  | None => prev
  | Some source =>
      if negb (truthy source) || str_eqb source targetSku then prev
      else
        let newMap := prev in
        let sourceImages :=
          match map_get newMap source with Some g => g | None => [] end in
        let targetImages :=
          match map_get newMap targetSku with Some g => g | None => [] end in
        let newMap := map_set newMap targetSku (targetImages ++ sourceImages) in
        map_delete newMap source
  end.

(** ** Organizing *)

Record AppState : Type := {
  files : list File;
  organizedImages : Store;
  isLoading : bool;
  error : option str
}.

Definition Unidentified : str := js "Unidentified".

Definition groupNameOf (f : File) : str :=
  let sku := getSkuFromFilename (name f) in
  if truthy sku then sku else Unidentified.

(** The body of [files.forEach] in [organizeImages]. *)
Definition addFile (newOrganizedImages : Store) (f : File) : M Store :=
  let groupName := groupNameOf f in
  let existing :=
    match map_get newOrganizedImages groupName with
    | Some g => g
    | None => []
    end in
  newId <- randomUUID ;;
  newUrl <- createObjectURL f ;;
  let existing :=
    existing ++ [Some {| id := newId; file := f; url := newUrl;
                         prefix := None |}] in
  ret (map_set newOrganizedImages groupName existing).

Fixpoint addFiles (newOrganizedImages : Store) (fs : list File) : M Store :=
  match fs with
  | [] => ret newOrganizedImages
  | f :: fs' =>
      m <- addFile newOrganizedImages f ;;
      addFiles m fs'
  end.

(** [organizedImages.forEach(g => g.forEach(img => revoke(img.url)))] *)
Definition revokeAll (s : Store) : M unit :=
  forEach (fun kv : str * list slot => forEach revokeImage (snd kv)) s.

Definition noFilesMessage : str := js "Please select some images first.".

(** [organizeImages], with the deferred callback run right after the
    synchronous part. When it throws, the component state is not
    modelled. *)
Definition organizeImages (st : AppState) : M AppState :=
  match files st with
  | [] =>
      ret {| files := files st;
             organizedImages := organizedImages st;
             isLoading := isLoading st;
             error := Some noFilesMessage |}
  | _ :: _ =>
      revokeAll (organizedImages st) ;;;
      newOrganizedImages <- addFiles [] (files st) ;;
      ret {| files := files st;
             organizedImages := newOrganizedImages;
             isLoading := false;
             error := None |}
  end.

(** ** Export naming *)

(** [String(n)] for a natural number. *)
Definition Number_toString (n : nat) : str :=
  js (DecimalString.NilZero.string_of_uint (Nat.to_uint n)).

(** The archive file name computed in [handleDownloadAll] and in
    [handleDownloadSingleFolder] for the image at [index]. *)
Definition newFilename (filenamePrefix : str) (image : OrganizedImage)
    (index : nat) : str :=
  let effectivePrefix :=
    trim (match prefix image with
          | None => filenamePrefix
          | Some p => p
          end) in
  if truthy effectivePrefix
  then Number_toString (index + 1) ++ c_hyphen :: effectivePrefix
         ++ c_hyphen :: name (file image)
  else Number_toString (index + 1) ++ c_hyphen :: name (file image).

(** [imageDatas.forEach((image, index) => zip.file(newFilename, file))]:
    the calls made to the archive writer, in order; destructuring
    [undefined] throws. *)
Fixpoint fileCalls (filenamePrefix : str) (imageDatas : list slot)
    (index : nat) : outcome (list (str * File)) :=
  match imageDatas with
  | [] => Ok []
  | None :: _ => TypeError
  | Some image :: rest =>
      match fileCalls filenamePrefix rest (S index) with
      | Ok calls =>
          Ok ((newFilename filenamePrefix image index, file image) :: calls)
      | TypeError => TypeError
      end
  end.

(** [organizedImages.forEach((imageGroup, sku) => ...)]: per group, the
    folder and the calls made in it. *)
Fixpoint folderCalls (filenamePrefix : str) (s : Store)
    : outcome (list (str * list (str * File))) :=
  match s with
  | [] => Ok []
  | (sku, imageGroup) :: s' =>
      match fileCalls filenamePrefix imageGroup 0 with
      | Ok calls =>
          match folderCalls filenamePrefix s' with
          | Ok folders => Ok ((sku, calls) :: folders)
          | TypeError => TypeError
          end
      | TypeError => TypeError
      end
  end.

(** The two exports: [None] when the guard returns at once, else what the
    [try] block hands to the archive writer ([TypeError] is caught and
    reported). *)
Definition handleDownloadAll (isAnyZipping : bool) (filenamePrefix : str)
    (organizedImages : Store)
    : option (outcome (list (str * list (str * File)))) :=
  if (length organizedImages =? 0) || isAnyZipping then None
  else Some (folderCalls filenamePrefix organizedImages).

Definition handleDownloadSingleFolder (isAnyZipping : bool)
    (filenamePrefix : str) (imageDatas : list slot)
    : option (outcome (list (str * File))) :=
  if isAnyZipping then None
  else Some (fileCalls filenamePrefix imageDatas 0).

(** ** Specification-level notions for the store *)

Definition is_defined (x : slot) : bool :=
  match x with Some _ => true | None => false end.

(** A store as its type promises it: no [undefined] element. *)
Definition all_defined (s : Store) : bool :=
  forallb (fun kv : str * list slot => forallb is_defined (snd kv)) s.

(** The contents of a store: keys in order, and per key the payloads in
    order; item ids and preview URLs are left out. *)
Definition contents (s : Store) : list (str * list (option File)) :=
  map (fun kv : str * list slot => (fst kv, map (option_map file) (snd kv)))
      s.

(** No group is present with zero items. *)
Definition no_empty_group (s : Store) : Prop :=
  forall k g, map_get s k = Some g -> g <> [].

(** Bucketing payloads by group name, in first-seen key order: what
    organizing a list of files is to produce, ids and URLs aside. *)
Definition bucket (c : JsMap (list (option File))) (f : File)
    : JsMap (list (option File)) :=
  map_set c (groupNameOf f)
    (match map_get c (groupNameOf f) with
     | Some g => g
     | None => []
     end ++ [Some f]).

Definition buckets (fs : list File) : JsMap (list (option File)) :=
  fold_left bucket fs [].

(** ** More of the component *)

From Stdlib Require Import ZArith.

(** [clearOrganizedImages]. The function closes over the
    [organizedImages] of the render that created it: the URLs it revokes
    are those of that captured store, which is the current store when the
    function is reached from a handler of the current render (as in
    [organizeImages]) and the empty map of the first render when it is
    reached through the memoised [handleDropUpload]. The state is then
    set to an empty map, whatever it was. *)
Definition clearOrganizedImages (organizedImages : Store) : M Store :=
  revokeAll organizedImages ;;; ret [].

(** The lightbox: [showNextImage] and [showPrevImage] as functions of
    [lightboxImages.length] and of the current index. On integers the
    JavaScript [%] is the remainder with the sign of the dividend; the
    length is not zero while the lightbox is open. *)
Definition showNextImage (len prev : Z) : Z :=
  Z.rem (prev + 1) len.

Definition showPrevImage (len prev : Z) : Z :=
  Z.rem (prev - 1 + len) len.

(** *** Entries of an archive: [extractImagesFromZip] *)

Definition c_slash : char := 47%N.

(** A lower-case ASCII letter of a pattern under the [i] flag: it matches
    itself and its upper-case form, and no character outside ASCII. *)
Definition letter_ci (lower : char) (c : char) : bool :=
  (c =? lower)%N || (c =? lower - 32)%N.

(** [/\.(jpe?g|png|gif|webp)$/i] *)
Definition imageRegex : regex :=
  Then (Class (is_char c_dot))
    (Then
       (Or (Then (Class (letter_ci 106%N))
              (Then (Class (letter_ci 112%N))
                 (Then (Or (Class (letter_ci 101%N))
                           (Repeat (letter_ci 101%N) 0))
                    (Class (letter_ci 103%N)))))
           (Or (Then (Class (letter_ci 112%N))
                  (Then (Class (letter_ci 110%N)) (Class (letter_ci 103%N))))
               (Or (Then (Class (letter_ci 103%N))
                      (Then (Class (letter_ci 105%N)) (Class (letter_ci 102%N))))
                   (Then (Class (letter_ci 119%N))
                      (Then (Class (letter_ci 101%N))
                         (Then (Class (letter_ci 98%N))
                            (Class (letter_ci 112%N))))))))
       EndAnchor).

(** [r.test(s)] for a regular expression without the global flag. *)
Definition regex_test (r : regex) (s : str) : bool :=
  match search r [] s with Some _ => true | None => false end.

(** An entry of the archive: its full name, whether it is a directory, and
    the handle of its content. *)
Record ZipEntry : Type := {
  entry_name : str;
  entry_dir : bool;
  entry_blob : nat
}.

(** [zipEntry.name.split('/').pop() || zipEntry.name] *)
Definition entryFilename (entryName : str) : str :=
  let popped := last (split c_slash entryName) [] in
  if truthy popped then popped else entryName.

(** The body of [zip.forEach]: the files made of the entries of an opened
    archive, in order. *)
Fixpoint extractImagesFromZip (entries : list ZipEntry) : list File :=
  match entries with
  | [] => []
  | zipEntry :: rest =>
      if negb (entry_dir zipEntry)
         && regex_test imageRegex (entry_name zipEntry)
      then {| name := entryFilename (entry_name zipEntry);
              blob := entry_blob zipEntry |}
           :: extractImagesFromZip rest
      else extractImagesFromZip rest
  end.

(** *** What an export has handed over when it fails *)

(** The calls [zip.file(newFilename, file)] made by the [forEach] of an
    export by the time it ends or throws: one per item, up to the first
    [undefined]. *)
Fixpoint fileCallsMade (filenamePrefix : str) (imageDatas : list slot)
    (index : nat) : list (str * File) :=
  match imageDatas with
  | [] => []
  | None :: _ => []
  | Some image :: rest =>
      (newFilename filenamePrefix image index, file image)
      :: fileCallsMade filenamePrefix rest (S index)
  end.

(** The same for [handleDownloadAll]: per group visited, the folder made
    by [zip.folder(sku)] and the calls made in it; the group in which the
    callback throws is the last one visited. *)
Fixpoint folderCallsMade (filenamePrefix : str) (s : Store)
    : list (str * list (str * File)) :=
  match s with
  | [] => []
  | (sku, imageGroup) :: s' =>
      (sku, fileCallsMade filenamePrefix imageGroup 0)
      :: match fileCalls filenamePrefix imageGroup 0 with
         | Ok _ => folderCallsMade filenamePrefix s'
         | TypeError => []
         end
  end.

(** ** Specification-level notions for these *)

(** The keys of a list in order of first appearance, those of [seen]
    left out. *)
Fixpoint first_seen (seen ks : list str) : list str :=
  match ks with
  | [] => []
  | k :: ks' =>
      if existsb (str_eqb k) seen then first_seen seen ks'
      else k :: first_seen (seen ++ [k]) ks'
  end.

(** The items [organizeImages] makes of a list of files: the [n]-th file
    gets the [n]-th UUID and the [n]-th object URL. *)
Fixpoint newItems (b : Browser) (n : nat) (fs : list File)
    : list OrganizedImage :=
  match fs with
  | [] => []
  | f :: fs' =>
      {| id := uuids b n; file := f; url := objectUrls b n; prefix := None |}
      :: newItems b (S n) fs'
  end.

Definition keyOf (it : OrganizedImage) : str := groupNameOf (file it).

(** Items grouped by key: groups in order of first appearance of their
    key, items of a group in the order of the list. *)
Definition grouped (items : list OrganizedImage) : Store :=
  map (fun k => (k, map Some (filter (fun it => str_eqb (keyOf it) k) items)))
      (first_seen [] (map keyOf items)).

(** Appending an item to the group of its key, created last when new. *)
Definition insertItem (s : Store) (it : OrganizedImage) : Store :=
  map_set s (keyOf it)
    (match map_get s (keyOf it) with Some g => g | None => [] end
     ++ [Some it]).

(** A store without [undefined], seen as the type promises it. *)
Definition typedStore (t : JsMap (list OrganizedImage)) : Store :=
  map (fun kv => (fst kv, map Some (snd kv))) t.

(** All preview URLs of a store, in the order [forEach] visits them. *)
Definition storeUrls (s : JsMap (list OrganizedImage)) : list str :=
  flat_map (fun kv => map url (snd kv)) s.

(** ASCII lower case, and the extensions of image entries. *)
Definition ascii_lower (c : char) : char :=
  if (65 <=? c)%N && (c <=? 90)%N then (c + 32)%N else c.

Definition imageExtensions : list str :=
  [js "jpg"; js "jpeg"; js "png"; js "gif"; js "webp"].

(** [u] is a [.] followed by one of the image extensions, in any case. *)
Definition is_image_suffix (u : str) : bool :=
  match u with
  | [] => false
  | d :: ext =>
      (d =? c_dot)%N
      && existsb (str_eqb (map ascii_lower ext)) imageExtensions
  end.


(** A string made of numeric suffixes only: empty, or starting with [-]
    or [_] and holding nothing but [-], [_] and digits. *)
Definition only_suffixes (s : str) : bool :=
  match s with
  | [] => true
  | c :: t => is_sep c && forallb (fun x => is_sep x || is_digit x) t
  end.
(** * Properties *)

(** ** Strings *)

Lemma str_eqb_eq (a b : str) : str_eqb a b = true <-> a = b.
Proof.
  revert b; induction a as [|x a IH]; intros [|y b]; simpl; split;
    try congruence; try reflexivity.
  - intros H. apply andb_true_iff in H as [Hx Hab].
    apply N.eqb_eq in Hx. apply IH in Hab. congruence.
  - intros H. injection H as -> ->. rewrite N.eqb_refl. simpl.
    now apply IH.
Qed.

Lemma str_eqb_refl (a : str) : str_eqb a a = true.
Proof. now apply str_eqb_eq. Qed.

Lemma str_eqb_neq (a b : str) : str_eqb a b = false <-> a <> b.
Proof.
  split.
  - intros H E. apply str_eqb_eq in E. congruence.
  - intros H. destruct (str_eqb a b) eqn:E; [|reflexivity].
    apply str_eqb_eq in E. contradiction.
Qed.

Lemma truthy_false (s : str) : truthy s = false <-> s = [].
Proof. destruct s; simpl; split; congruence. Qed.

(** ** The matcher *)

Section Matcher.

Variable p : char -> bool.

(** Whatever [exec_star] returns was returned by the continuation, after
    a run of characters of the class. *)
Lemma exec_star_sound (s : str) (k : str -> option str) (t : str) :
  exec_star p s k = Some t ->
  exists s1 s2, s = s1 ++ s2 /\ forallb p s1 = true /\ k s2 = Some t.
Proof.
  induction s as [|c s IH]; simpl.
  - intros H. now exists [], [].
  - destruct (p c) eqn:Hc.
    + destruct (exec_star p s k) as [r|] eqn:Hs.
      * intros H. injection H as ->.
        destruct (IH eq_refl) as (s1 & s2 & -> & Hp & Hk).
        exists (c :: s1), s2. simpl. now rewrite Hc.
      * intros H. now exists [], (c :: s).
    + intros H. now exists [], (c :: s).
Qed.

Lemma exec_star_here (s : str) (k : str -> option str) :
  k s <> None -> exec_star p s k <> None.
Proof.
  destruct s as [|c s]; simpl; [easy|].
  intros H. destruct (p c); [|easy].
  now destruct (exec_star p s k).
Qed.

(** Backtracking is complete: if some run of class characters leaves a
    rest the continuation accepts, the star matches. *)
Lemma exec_star_complete (s1 s2 : str) (k : str -> option str) :
  forallb p s1 = true -> k s2 <> None -> exec_star p (s1 ++ s2) k <> None.
Proof.
  induction s1 as [|c s1 IH]; simpl; intros Hp Hk.
  - now apply exec_star_here.
  - apply andb_true_iff in Hp as [Hc Hp]. rewrite Hc.
    specialize (IH Hp Hk).
    now destruct (exec_star p (s1 ++ s2) k).
Qed.

Lemma exec_repeat_sound (n : nat) (s : str) (k : str -> option str)
    (t : str) :
  exec_repeat p n s k = Some t ->
  exists s1 s2, s = s1 ++ s2 /\ length s1 = n /\ forallb p s1 = true
                /\ k s2 = Some t.
Proof.
  revert s; induction n as [|n IH]; simpl; intros s H.
  - now exists [], s.
  - destruct s as [|c s]; [discriminate|].
    destruct (p c) eqn:Hc; [|discriminate].
    destruct (IH _ H) as (s1 & s2 & -> & Hl & Hp & Hk).
    exists (c :: s1), s2. simpl. rewrite Hc, Hl. now repeat split.
Qed.

Lemma exec_repeat_complete (s1 s2 : str) (k : str -> option str) :
  forallb p s1 = true ->
  exec_repeat p (length s1) (s1 ++ s2) k = k s2.
Proof.
  induction s1 as [|c s1 IH]; simpl; intros Hp; [reflexivity|].
  apply andb_true_iff in Hp as [Hc Hp]. rewrite Hc. now apply IH.
Qed.

End Matcher.

(** What a match leaves is a suffix of its input. *)
Lemma exec_sound (r : regex) :
  forall (s : str) (k : str -> option str) (t : str),
    exec r s k = Some t -> exists m s', s = m ++ s' /\ k s' = Some t.
Proof.
  induction r as [p|p n|p|p| |r1 IH1 r2 IH2|r1 IH1 r2 IH2]; simpl;
    intros s k t H.
  - destruct s as [|c s]; [discriminate|].
    destruct (p c); [|discriminate]. now exists [c], s.
  - apply exec_repeat_sound in H as (s1 & s2 & -> & _ & _ & Hk).
    now exists s1, s2.
  - apply exec_star_sound in H as (s1 & s2 & -> & _ & Hk).
    now exists s1, s2.
  - destruct s as [|c s]; [discriminate|].
    destruct (p c); [|discriminate].
    apply exec_star_sound in H as (s1 & s2 & -> & _ & Hk).
    now exists (c :: s1), s2.
  - destruct s; [|discriminate]. now exists [], [].
  - apply IH1 in H as (m1 & s1 & -> & H).
    apply IH2 in H as (m2 & s2 & -> & H).
    exists (m1 ++ m2), s2. now rewrite <- app_assoc.
  - destruct (exec r1 s k) as [rest|] eqn:E.
    + injection H as ->. now apply IH1.
    + now apply IH2.
Qed.

Lemma match_here_suffix (r : regex) (s t : str) :
  match_here r s = Some t -> exists m, s = m ++ t.
Proof.
  intros H. apply exec_sound in H as (m & s' & -> & H).
  injection H as ->. now exists m.
Qed.

(** [search] returns the leftmost start position at which the expression
    matches, and fails only when it matches at no position. *)
Lemma search_some (r : regex) :
  forall (s b a m t : str),
    search r b s = Some (a, m, t) ->
    exists s1,
      s = s1 ++ m ++ t /\ a = rev b ++ s1 /\
      match_here r (m ++ t) = Some t /\
      (forall s1' s2', s = s1' ++ s2' -> length s1' < length s1 ->
                       match_here r s2' = None).
Proof.
  induction s as [|c s IH]; intros b a m t; cbn [search].
  - destruct (match_here r []) as [rest|] eqn:E; [|discriminate].
    intros H. injection H as <- <- <-.
    destruct (match_here_suffix _ _ _ E) as (m & Hm).
    symmetry in Hm. apply app_eq_nil in Hm as [-> ->]. simpl.
    exists []. split; [reflexivity|]. split; [now rewrite app_nil_r|].
    split; [exact E|]. intros ? ? _ Hl. simpl in Hl. lia.
  - destruct (match_here r (c :: s)) as [rest|] eqn:E.
    + intros H.
      destruct (match_here_suffix _ _ _ E) as (m' & Hm).
      assert (Hf : firstn (length (c :: s) - length rest) (c :: s) = m').
      { rewrite Hm, length_app, Nat.add_sub.
        now rewrite firstn_app, Nat.sub_diag, firstn_all, app_nil_r. }
      rewrite Hf in H. injection H as <- <- <-.
      exists []. split; [exact Hm|]. split; [now rewrite app_nil_r|].
      split; [now rewrite <- Hm|]. intros ? ? _ Hl. simpl in Hl. lia.
    + intros H. apply IH in H as (s1 & -> & -> & Hm & Hmin).
      exists (c :: s1). split; [reflexivity|].
      split; [simpl; now rewrite <- app_assoc|]. split; [exact Hm|].
      intros [|c' s1'] s2' Heq Hlen; simpl in *.
      * now subst s2'.
      * injection Heq as <- Heq. apply (Hmin s1' s2' Heq). lia.
Qed.

Lemma search_none (r : regex) :
  forall (s b : str),
    search r b s = None ->
    forall s1 s2, s = s1 ++ s2 -> match_here r s2 = None.
Proof.
  induction s as [|c s IH]; intros b; simpl.
  - destruct (match_here r []) eqn:E; [discriminate|].
    intros _ s1 s2 H. symmetry in H. apply app_eq_nil in H as [_ ->].
    exact E.
  - destruct (match_here r (c :: s)) eqn:E; [discriminate|].
    intros H [|c' s1] s2 Heq; simpl in Heq.
    + now subst s2.
    + injection Heq as <- Heq. exact (IH _ H _ _ Heq).
Qed.

(** The converse: with no match further left, the match at [s2] is the
    one [search] finds. *)
Lemma search_skip (r : regex) :
  forall (s1 s2 b : str),
    (forall s1' s2', s1 ++ s2 = s1' ++ s2' -> length s1' < length s1 ->
                     match_here r s2' = None) ->
    search r b (s1 ++ s2) = search r (rev s1 ++ b) s2.
Proof.
  induction s1 as [|c s1 IH]; intros s2 b Hmin; [reflexivity|].
  simpl app at 1. simpl search.
  rewrite (Hmin [] (c :: s1 ++ s2) eq_refl) by (simpl; lia).
  rewrite IH.
  - simpl. now rewrite <- app_assoc.
  - intros s1' s2' Heq Hlen. apply (Hmin (c :: s1') s2').
    + simpl. now rewrite Heq.
    + simpl. lia.
Qed.

(** ** The structured code *)

Lemma is_sku_code_length (c : str) : is_sku_code c = true -> length c = 16.
Proof.
  intros H.
  do 16 (destruct c as [|? c]; [discriminate H|]).
  destruct c; [reflexivity|discriminate H].
Qed.

Lemma is_sku_code_shape (a b d : str) :
  length a = 6 -> length b = 5 -> length d = 3 ->
  forallb is_digit a = true -> forallb is_digit b = true ->
  forallb is_digit d = true ->
  is_sku_code (a ++ c_hyphen :: b ++ c_hyphen :: d) = true.
Proof.
  intros La Lb Ld Ha Hb Hd.
  do 6 (destruct a as [|? a]; [discriminate La|]).
  destruct a; [|discriminate La].
  do 5 (destruct b as [|? b]; [discriminate Lb|]).
  destruct b; [|discriminate Lb].
  do 3 (destruct d as [|? d]; [discriminate Ld|]).
  destruct d; [|discriminate Ld].
  cbn [app is_sku_code]. rewrite Ha, Hb, Hd. reflexivity.
Qed.

(** The expression [skuRegex] matches at the head of [s] exactly when the
    first 16 characters of [s] are a code, and consumes just these. *)
Lemma match_sku_sound (s t : str) :
  match_here skuRegex s = Some t ->
  exists code, s = code ++ t /\ is_sku_code code = true.
Proof.
  unfold match_here, skuRegex. cbn [exec]. intros H.
  apply exec_repeat_sound in H as (a & s2 & -> & La & Ha & H).
  destruct s2 as [|h1 s3]; [discriminate|].
  destruct (is_char c_hyphen h1) eqn:Hh1; [|discriminate].
  apply N.eqb_eq in Hh1. subst h1.
  apply exec_repeat_sound in H as (b & s4 & -> & Lb & Hb & H).
  destruct s4 as [|h2 s5]; [discriminate|].
  destruct (is_char c_hyphen h2) eqn:Hh2; [|discriminate].
  apply N.eqb_eq in Hh2. subst h2.
  apply exec_repeat_sound in H as (d & s6 & -> & Ld & Hd & H).
  injection H as ->.
  exists (a ++ c_hyphen :: b ++ c_hyphen :: d). split.
  - rewrite <- !app_assoc. cbn [app]. rewrite <- !app_assoc. reflexivity.
  - now apply is_sku_code_shape.
Qed.

Lemma match_sku_complete (code t : str) :
  is_sku_code code = true -> match_here skuRegex (code ++ t) = Some t.
Proof.
  intros H.
  do 16 (destruct code as [|? code]; [discriminate H|]).
  destruct code; [|discriminate H].
  cbn [is_sku_code forallb] in H.
  unfold match_here, skuRegex, is_char. cbn [exec exec_repeat app].
  repeat match type of H with
         | context [is_digit ?x] =>
             destruct (is_digit x); [|now rewrite ?andb_false_r in H]
         | context [(?x =? c_hyphen)%N] =>
             destruct (x =? c_hyphen)%N; [|now rewrite ?andb_false_r in H]
         end.
  reflexivity.
Qed.

Lemma match_sku_firstn (s : str) :
  match_here skuRegex s = None <-> is_sku_code (firstn 16 s) = false.
Proof.
  split.
  - intros H. destruct (is_sku_code (firstn 16 s)) eqn:E; [|reflexivity].
    rewrite <- (firstn_skipn 16 s), (match_sku_complete _ _ E) in H.
    discriminate.
  - intros H. destruct (match_here skuRegex s) as [t|] eqn:E; [|reflexivity].
    apply match_sku_sound in E as (code & -> & Hc).
    rewrite firstn_app, (is_sku_code_length _ Hc), Nat.sub_diag in H.
    rewrite firstn_all2, app_nil_r in H
      by (rewrite (is_sku_code_length _ Hc); lia).
    congruence.
Qed.

Lemma contains_sku_code_false (s : str) :
  contains_sku_code s = false ->
  forall s1 s2, s = s1 ++ s2 -> match_here skuRegex s2 = None.
Proof.
  induction s as [|c s IH]; cbn [contains_sku_code]; intros H s1 s2 Heq;
    apply orb_false_iff in H as [H1 H2].
  - symmetry in Heq. apply app_eq_nil in Heq as [_ ->].
    now apply match_sku_firstn.
  - destruct s1 as [|c1 s1]; simpl in Heq.
    + subst s2. now apply match_sku_firstn.
    + injection Heq as _ Heq. exact (IH H2 _ _ Heq).
Qed.

Lemma no_code_before_none (n : nat) :
  forall s, no_code_before n s = true ->
  forall s1 s2, s = s1 ++ s2 -> length s1 < n ->
                match_here skuRegex s2 = None.
Proof.
  induction n as [|n IH]; intros s H s1 s2 Heq Hlen; [lia|].
  cbn [no_code_before] in H. apply andb_true_iff in H as [H1 H2].
  apply negb_true_iff in H1.
  destruct s1 as [|c1 s1]; simpl in Heq.
  - subst s2. now apply match_sku_firstn.
  - subst s. simpl in Hlen. apply (IH _ H2 s1 s2 eq_refl). lia.
Qed.

Lemma str_match_sku_none (s : str) :
  contains_sku_code s = false -> str_match skuRegex s = None.
Proof.
  intros H. unfold str_match.
  destruct (search skuRegex [] s) as [[[a m] t]|] eqn:E; [|reflexivity].
  apply search_some in E as (s1 & -> & _ & Hm & _).
  now rewrite (contains_sku_code_false _ H s1 (m ++ t) eq_refl) in Hm.
Qed.

Lemma str_match_sku_leftmost (pre code post : str) :
  is_sku_code code = true ->
  no_code_before (length pre) (pre ++ code ++ post) = true ->
  str_match skuRegex (pre ++ code ++ post) = Some code.
Proof.
  intros Hc Hn. unfold str_match.
  rewrite search_skip
    by (intros s1' s2' Heq Hl; exact (no_code_before_none _ _ Hn _ _ Heq Hl)).
  destruct code as [|c0 code]; [discriminate Hc|].
  cbn [app search].
  change (c0 :: code ++ post) with ((c0 :: code) ++ post).
  rewrite (match_sku_complete _ post Hc).
  rewrite length_app, Nat.add_sub, firstn_app, Nat.sub_diag, firstn_all.
  now rewrite app_nil_r.
Qed.

(** ** The two anchored expressions *)

Lemma exec_star_at_end (p : char -> bool) (s : str) :
  exec_star p s (fun s' => exec EndAnchor s' (fun rest => Some rest))
  = if forallb p s then Some [] else None.
Proof.
  induction s as [|c s IH]; [reflexivity|].
  cbn [exec_star forallb]. rewrite IH.
  destruct (p c); [|reflexivity].
  now destruct (forallb p s).
Qed.

Lemma match_suffix_iff (u t : str) :
  match_here suffixRegex u = Some t <-> numeric_suffix u /\ t = [].
Proof.
  unfold match_here, suffixRegex. cbn [exec]. split.
  - destruct u as [|c u]; [discriminate|].
    destruct (is_sep c) eqn:Hc; [|discriminate].
    destruct u as [|d u].
    + intros H. injection H as <-. split; [|reflexivity].
      now exists c, [].
    + destruct (is_digit d) eqn:Hd; [|discriminate].
      change (fun s' : str => match s' with
                              | [] => Some []
                              | _ :: _ => None
                              end)
        with (fun s' => exec EndAnchor s' (fun rest => Some rest)).
      rewrite exec_star_at_end.
      destruct (forallb is_digit u) eqn:Hu; [|discriminate].
      intros H. injection H as <-. split; [|reflexivity].
      exists c, (d :: u). cbn [forallb]. now rewrite Hd, Hu.
  - intros [(c & ds & -> & Hc & Hds) ->]. rewrite Hc.
    destruct ds as [|d ds]; [reflexivity|].
    cbn [forallb] in Hds. apply andb_true_iff in Hds as [Hd Hds].
    rewrite Hd.
    change (fun s' : str => match s' with
                            | [] => Some []
                            | _ :: _ => None
                            end)
      with (fun s' => exec EndAnchor s' (fun rest => Some rest)).
    now rewrite exec_star_at_end, Hds.
Qed.

Lemma match_paren_sound (u t : str) :
  match_here parenRegex u = Some t -> paren_suffix u /\ t = [].
Proof.
  unfold match_here, parenRegex. cbn [exec]. intros H.
  apply exec_star_sound in H as (ws & s2 & -> & Hws & H).
  destruct s2 as [|c s3]; [discriminate|].
  destruct (is_char c_lparen c) eqn:Hc; [|discriminate].
  apply N.eqb_eq in Hc. subst c.
  apply exec_star_sound in H as (body & s4 & -> & Hbody & H).
  destruct s4 as [|c' s5]; [discriminate|].
  destruct (is_char c_rparen c') eqn:Hc'; [|discriminate].
  apply N.eqb_eq in Hc'. subst c'.
  destruct s5; [|discriminate]. injection H as <-.
  split; [|reflexivity]. now exists ws, body.
Qed.

Lemma match_paren_iff (u t : str) :
  match_here parenRegex u = Some t <-> paren_suffix u /\ t = [].
Proof.
  split; [apply match_paren_sound|].
  intros [(ws & body & -> & Hws & Hbody) ->].
  destruct (match_here parenRegex (ws ++ c_lparen :: body ++ [c_rparen]))
    as [t|] eqn:E.
  - now destruct (match_paren_sound _ _ E) as [_ ->].
  - exfalso. revert E. unfold match_here, parenRegex. cbn [exec].
    apply exec_star_complete; [exact Hws|].
    unfold is_char at 1. rewrite N.eqb_refl.
    apply exec_star_complete; [exact Hbody|].
    unfold is_char. now rewrite N.eqb_refl.
Qed.

(** Replacing the leftmost match of an expression that only matches up to
    the end of the string removes the longest matching suffix. *)
Lemma replace_anchored (r : regex) (P : str -> Prop) :
  (forall u t, match_here r u = Some t <-> P u /\ t = []) ->
  forall s, strip_suffix P s (replace_empty r s).
Proof.
  intros Hr s. unfold replace_empty.
  destruct (search r [] s) as [[[a m] t]|] eqn:E.
  - apply search_some in E as (s1 & -> & -> & Hm & Hmin).
    apply Hr in Hm as Hm'. destruct Hm' as [HP ->].
    rewrite !app_nil_r in *. cbn [rev app].
    apply strip_longest; [exact HP|].
    intros p' u' Heq HP'.
    destruct (Nat.le_gt_cases (length s1) (length p')) as [Hle|Hgt];
      [exact Hle|].
    assert (Hsome : match_here r u' = Some []) by now apply Hr.
    rewrite (Hmin p' u' Heq Hgt) in Hsome. discriminate.
  - apply strip_nothing. intros p u Heq HP.
    assert (Hsome : match_here r u = Some []) by now apply Hr.
    now rewrite (search_none _ _ _ E p u Heq) in Hsome.
Qed.

(** A replacement never lengthens; it shortens unless nothing changes. *)
Lemma replace_empty_shorter (r : regex) (s : str) :
  replace_empty r s = s \/ length (replace_empty r s) < length s.
Proof.
  unfold replace_empty.
  destruct (search r [] s) as [[[a m] t]|] eqn:E; [|now left].
  apply search_some in E as (s1 & -> & -> & _ & _). cbn [rev app].
  destruct m as [|c m]; [now left|right].
  rewrite !length_app. simpl. lia.
Qed.

Lemma replace_empty_length (r : regex) (s : str) :
  length (replace_empty r s) <= length s.
Proof.
  destruct (replace_empty_shorter r s) as [-> | H]; lia.
Qed.

(** ** Splitting on the dot *)

Lemma split_nonempty (sep : char) (s : str) : split sep s <> [].
Proof.
  destruct s as [|c s]; simpl; [discriminate|].
  destruct (c =? sep)%N; [discriminate|].
  destruct (split sep s); discriminate.
Qed.

Lemma split_no_sep (sep : char) (s : str) :
  ~ In sep s -> split sep s = [s].
Proof.
  induction s as [|c s IH]; simpl; intros H; [reflexivity|].
  destruct (N.eqb_spec c sep) as [E|E]; [exfalso; auto|].
  rewrite IH by tauto. reflexivity.
Qed.

Lemma split_app (sep : char) (a b : str) :
  split sep (a ++ sep :: b) = split sep a ++ split sep b.
Proof.
  induction a as [|c a IH]; simpl.
  - now rewrite N.eqb_refl.
  - destruct (c =? sep)%N; rewrite IH; [reflexivity|].
    destruct (split sep a) eqn:E; [|reflexivity].
    now apply split_nonempty in E.
Qed.

Lemma join_split (sep : char) (s : str) : join sep (split sep s) = s.
Proof.
  induction s as [|c s IH]; simpl; [reflexivity|].
  destruct (N.eqb_spec c sep) as [->|E].
  - cbn [join]. destruct (split sep s) eqn:Es.
    + now apply split_nonempty in Es.
    + cbn [app]. now rewrite IH.
  - destruct (split sep s) as [|seg segs] eqn:Es.
    + now apply split_nonempty in Es.
    + rewrite <- IH. cbn [join]. now destruct segs.
Qed.

Lemma last_dot (sep : char) (s : str) :
  In sep s -> exists stem ext, s = stem ++ sep :: ext /\ ~ In sep ext.
Proof.
  induction s as [|c s IH]; simpl; [tauto|].
  intros H. destruct (in_dec N.eq_dec sep s) as [Hin|Hnin].
  - destruct (IH Hin) as (stem & ext & -> & Hext).
    now exists (c :: stem), ext.
  - destruct H as [->|H]; [|contradiction].
    now exists [], s.
Qed.

Lemma join_removelast_length (sep : char) (l : list str) :
  length (join sep (removelast l)) <= length (join sep l).
Proof.
  induction l as [|x l IH]; [simpl; lia|].
  destruct l as [|y l]; [simpl; lia|].
  change (removelast (x :: y :: l)) with (x :: removelast (y :: l)).
  destruct (removelast (y :: l)) as [|z l'] eqn:E.
  - cbn [join]. rewrite length_app. lia.
  - cbn [join] in *. rewrite !length_app. simpl in *. lia.
Qed.

Lemma dropWhile_length (p : char -> bool) (s : str) :
  length (dropWhile p s) <= length s.
Proof.
  induction s as [|c s IH]; simpl; [lia|].
  destruct (p c); simpl; lia.
Qed.

Lemma trim_length (s : str) : length (trim s) <= length s.
Proof.
  unfold trim. rewrite length_rev.
  etransitivity; [apply dropWhile_length|]. rewrite length_rev.
  apply dropWhile_length.
Qed.

Lemma baseName_length (filename : str) :
  length (baseName filename) <= length filename.
Proof.
  unfold baseName, slice_0_m1.
  etransitivity; [apply trim_length|].
  etransitivity; [apply join_removelast_length|].
  now rewrite join_split.
Qed.

Lemma baseName_no_dot (filename : str) :
  ~ In c_dot filename -> baseName filename = [].
Proof.
  intros H. unfold baseName, slice_0_m1. now rewrite split_no_sep.
Qed.

Lemma baseName_spec (filename : str) :
  strip_extension filename (baseName filename).
Proof.
  destruct (in_dec N.eq_dec c_dot filename) as [Hin|Hnin].
  - destruct (last_dot _ _ Hin) as (stem & ext & -> & Hext).
    unfold baseName, slice_0_m1.
    rewrite split_app, (split_no_sep _ _ Hext), removelast_last, join_split.
    now apply ext_dot.
  - rewrite baseName_no_dot by exact Hnin. now apply ext_nodot.
Qed.

(** ** The suffix-stripping loop *)

Lemma stripLoop_terminates :
  forall (fuel : nat) (name : str),
    length name < fuel ->
    exists r, stripLoop fuel name = Some r /\ length r <= length name.
Proof.
  induction fuel as [|fuel IH]; intros name Hlen; [lia|].
  cbn [stripLoop].
  pose proof (replace_empty_length suffixRegex name) as Hle.
  destruct (negb (str_eqb (replace_empty suffixRegex name) name)
            && (0 <? length (replace_empty suffixRegex name))) eqn:Hc.
  - apply andb_true_iff in Hc as [Hne _].
    apply negb_true_iff, str_eqb_neq in Hne.
    destruct (replace_empty_shorter suffixRegex name) as [Heq|Hlt];
      [contradiction|].
    destruct (IH (replace_empty suffixRegex name)) as (r & Hr & Hrl); [lia|].
    exists r. split; [exact Hr|lia].
  - now exists (replace_empty suffixRegex name).
Qed.

Lemma stripLoop_more_fuel :
  forall (fuel fuel' : nat) (name r : str),
    stripLoop fuel name = Some r -> fuel <= fuel' ->
    stripLoop fuel' name = Some r.
Proof.
  induction fuel as [|fuel IH]; intros fuel' name r H Hle; [discriminate|].
  destruct fuel' as [|fuel']; [lia|].
  cbn [stripLoop] in *.
  destruct (negb (str_eqb (replace_empty suffixRegex name) name)
            && (0 <? length (replace_empty suffixRegex name))).
  - apply (IH fuel' _ _ H). lia.
  - exact H.
Qed.

Lemma no_numeric_suffix_nil (p u : str) : [] = p ++ u -> ~ numeric_suffix u.
Proof.
  intros H (c & ds & -> & _). now destruct p.
Qed.

Lemma stripLoop_spec :
  forall (fuel : nat) (name r : str),
    stripLoop fuel name = Some r -> strip_repeatedly name r.
Proof.
  induction fuel as [|fuel IH]; intros name r H; [discriminate|].
  cbn [stripLoop] in H.
  pose proof (replace_anchored suffixRegex numeric_suffix match_suffix_iff
                name) as Hs.
  destruct (negb (str_eqb (replace_empty suffixRegex name) name)
            && (0 <? length (replace_empty suffixRegex name))) eqn:Hc.
  - apply IH in H. apply andb_true_iff in Hc as [Hne _].
    apply negb_true_iff, str_eqb_neq in Hne.
    revert Hne H. generalize dependent (replace_empty suffixRegex name).
    intros name' Hs. destruct Hs as [p u HP _|s Hno]; intros Hne H.
    + now apply strip_again.
    + contradiction.
  - injection H as <-. apply andb_false_iff in Hc.
    revert Hc. generalize dependent (replace_empty suffixRegex name).
    intros name' Hs. destruct Hs as [p u HP _|s Hno]; intros Hc.
    + destruct Hc as [Hc|Hc].
      * apply negb_false_iff, str_eqb_eq in Hc.
        destruct HP as (c & ds & -> & _).
        apply (f_equal (@length char)) in Hc.
        rewrite length_app in Hc. simpl in Hc. lia.
      * apply Nat.ltb_ge in Hc. destruct p; [|simpl in Hc; lia].
        apply (strip_again [] u []); [exact HP|].
        apply strip_stop. exact no_numeric_suffix_nil.
    + now apply strip_stop.
Qed.

(** ** The specification-level notions are what they are meant to be *)

Lemma contains_sku_code_iff (s : str) :
  contains_sku_code s = true <->
  exists pre code post, s = pre ++ code ++ post /\ is_sku_code code = true.
Proof.
  split.
  - induction s as [|c s IH]; cbn [contains_sku_code]; intros H;
      apply orb_true_iff in H as [H|H].
    + discriminate H.
    + discriminate H.
    + exists [], (firstn 16 (c :: s)), (skipn 16 (c :: s)).
      split; [|exact H]. cbn [app]. now rewrite firstn_skipn.
    + destruct (IH H) as (pre & code & post & -> & Hc).
      now exists (c :: pre), code, post.
  - intros (pre & code & post & -> & Hc).
    induction pre as [|c pre IH].
    + cbn [app]. destruct (code ++ post) as [|c0 rest] eqn:E.
      * destruct code; [discriminate Hc|discriminate E].
      * rewrite <- E. 
        assert (Hf : firstn 16 (code ++ post) = code).
        { rewrite firstn_app, (is_sku_code_length _ Hc), Nat.sub_diag.
          rewrite firstn_all2 by (rewrite (is_sku_code_length _ Hc); lia).
          cbn [firstn]. apply app_nil_r. }
        rewrite E in Hf |- *. cbn [contains_sku_code]. now rewrite Hf, Hc.
    + cbn [app contains_sku_code]. rewrite IH. apply orb_true_r.
Qed.

Lemma no_code_before_iff (n : nat) (s : str) :
  no_code_before n s = true <->
  forall pre code post,
    s = pre ++ code ++ post -> is_sku_code code = true -> n <= length pre.
Proof.
  split.
  - intros H pre code post Heq Hc.
    destruct (Nat.le_gt_cases n (length pre)) as [Hle|Hgt]; [exact Hle|].
    pose proof (no_code_before_none n s H pre (code ++ post) Heq Hgt) as Hn.
    now rewrite (match_sku_complete code post Hc) in Hn.
  - revert s. induction n as [|n IH]; intros s H; [reflexivity|].
    cbn [no_code_before]. apply andb_true_iff. split.
    + apply negb_true_iff.
      destruct (is_sku_code (firstn 16 s)) eqn:E; [|reflexivity].
      specialize (H [] (firstn 16 s) (skipn 16 s)).
      cbn [app length] in H. rewrite firstn_skipn in H.
      specialize (H eq_refl E). lia.
    + destruct s as [|c s]; [reflexivity|].
      apply IH. intros pre code post -> Hc.
      specialize (H (c :: pre) code post eq_refl Hc). simpl in H. lia.
Qed.

Lemma sep_not_digit (c : char) : is_sep c = true -> is_digit c = false.
Proof.
  unfold is_sep. intros H.
  apply orb_true_iff in H as [H|H]; apply N.eqb_eq in H; now subst c.
Qed.

Lemma app_same_length {A : Type} (p p' u u' : list A) :
  p ++ u = p' ++ u' -> length p = length p' -> p = p' /\ u = u'.
Proof.
  revert p'. induction p as [|x p IH]; intros [|x' p'] Heq Hlen;
    try discriminate Hlen.
  - now split.
  - injection Heq as -> Heq. injection Hlen as Hlen.
    destruct (IH _ Heq Hlen) as [-> ->]. now split.
Qed.

(** A string has at most one numeric suffix. *)
Lemma numeric_suffix_unique (p u p' u' : str) :
  p ++ u = p' ++ u' -> numeric_suffix u -> numeric_suffix u' ->
  p = p' /\ u = u'.
Proof.
  assert (Hone : forall p u p' u' l c,
             p = p' ++ c :: l -> u' = (c :: l) ++ u ->
             numeric_suffix u -> numeric_suffix u' -> False).
  { intros q v q' v' l c -> -> (c1 & ds1 & -> & Hc1 & _)
           (c2 & ds2 & E & _ & Hds2).
    cbn [app] in E. injection E as _ <-.
    rewrite forallb_app in Hds2. cbn [forallb] in Hds2.
    rewrite (sep_not_digit _ Hc1), andb_false_r in Hds2. discriminate. }
  intros Heq Hu Hu'.
  apply app_eq_app in Heq as (l & [[-> ->]|[-> ->]]).
  - destruct l as [|c l]; [now rewrite app_nil_r|].
    exfalso. exact (Hone _ u p' _ l c eq_refl eq_refl Hu Hu').
  - destruct l as [|c l]; [now rewrite app_nil_r|].
    exfalso. exact (Hone _ u' p _ l c eq_refl eq_refl Hu' Hu).
Qed.

Lemma last_dot_unique (stem ext stem' ext' : str) :
  stem ++ c_dot :: ext = stem' ++ c_dot :: ext' ->
  ~ In c_dot ext -> ~ In c_dot ext' -> stem = stem'.
Proof.
  intros E Hext Hext'.
  apply app_eq_app in E as (l & [[Hs E]|[Hs E]]); subst;
    (destruct l as [|c l]; [now rewrite app_nil_r|]);
    cbn [app] in E; injection E as Ec El; exfalso.
  - apply Hext'. rewrite El. apply in_or_app. right. now left.
  - apply Hext. rewrite El. apply in_or_app. right. now left.
Qed.

Lemma strip_extension_inv (s base : str) :
  strip_extension s base ->
  (exists stem ext, s = stem ++ c_dot :: ext /\ ~ In c_dot ext /\
                    base = trim stem) \/
  (~ In c_dot s /\ base = []).
Proof.
  intros [stem ext Hext|s0 Hs]; [left|right].
  - now exists stem, ext.
  - now split.
Qed.

Lemma strip_extension_functional (s base base' : str) :
  strip_extension s base -> strip_extension s base' -> base = base'.
Proof.
  intros H H'.
  apply strip_extension_inv in H as [(stem & ext & Hs & Hext & ->)|[Hs ->]];
    apply strip_extension_inv in H'
      as [(stem' & ext' & Hs' & Hext' & ->)|[Hs' ->]].
  - rewrite Hs' in Hs. now rewrite (last_dot_unique _ _ _ _ Hs Hext' Hext).
  - exfalso. apply Hs'. rewrite Hs. apply in_or_app. right. now left.
  - exfalso. apply Hs. rewrite Hs'. apply in_or_app. right. now left.
  - reflexivity.
Qed.

Lemma strip_suffix_inv (P : str -> Prop) (s s' : str) :
  strip_suffix P s s' ->
  (exists u, s = s' ++ u /\ P u /\
             forall p' u', s = p' ++ u' -> P u' -> length s' <= length p') \/
  (s' = s /\ forall p u, s = p ++ u -> ~ P u).
Proof.
  intros [p u HP Hmin|s0 Hno]; [left|right].
  - now exists u.
  - now split.
Qed.

Lemma strip_suffix_functional (P : str -> Prop) (s r r' : str) :
  strip_suffix P s r -> strip_suffix P s r' -> r = r'.
Proof.
  intros H H'.
  apply strip_suffix_inv in H as [(u & Hs & HP & Hmin)|[-> Hno]];
    apply strip_suffix_inv in H' as [(u' & Hs' & HP' & Hmin')|[-> Hno']].
  - pose proof (Hmin _ _ Hs' HP'). pose proof (Hmin' _ _ Hs HP).
    rewrite Hs' in Hs. symmetry in Hs.
    now apply app_same_length in Hs as [-> _]; [|lia].
  - exfalso. exact (Hno' _ _ Hs HP).
  - exfalso. exact (Hno _ _ Hs' HP').
  - reflexivity.
Qed.

Lemma strip_repeatedly_inv (s r : str) :
  strip_repeatedly s r ->
  (r = s /\ forall p u, s = p ++ u -> ~ numeric_suffix u) \/
  (exists p u, s = p ++ u /\ numeric_suffix u /\ strip_repeatedly p r).
Proof.
  intros [s0 Hno|p u r0 Hu Hr]; [left|right].
  - now split.
  - now exists p, u.
Qed.

Lemma strip_repeatedly_functional (s r r' : str) :
  strip_repeatedly s r -> strip_repeatedly s r' -> r = r'.
Proof.
  intros H. revert r'.
  induction H as [s Hno|p u r Hu Hr IH]; intros r' H'.
  - apply strip_repeatedly_inv in H' as [[-> _]|(p & u & Hs & Hu & _)];
      [reflexivity|].
    exfalso. exact (Hno _ _ Hs Hu).
  - apply strip_repeatedly_inv in H' as [[-> Hno]|(p' & u' & Hs & Hu' & Hr')].
    + exfalso. exact (Hno _ _ eq_refl Hu).
    + destruct (numeric_suffix_unique _ _ _ _ Hs Hu Hu') as [<- _].
      now apply IH.
Qed.

Lemma paren_suffix_last (u : str) :
  paren_suffix u -> exists z, u = z ++ [c_rparen].
Proof.
  intros (ws & body & -> & _). exists (ws ++ c_lparen :: body).
  now rewrite <- app_assoc.
Qed.

Lemma numeric_suffix_last (u : str) :
  numeric_suffix u ->
  exists z y, u = z ++ [y] /\ (is_sep y = true \/ is_digit y = true).
Proof.
  intros (c & ds & -> & Hc & Hds).
  destruct (exists_last (l := c :: ds)) as (z & y & E); [discriminate|].
  exists z, y. split; [exact E|].
  destruct z as [|c' z]; cbn [app] in E.
  - injection E as -> _. now left.
  - injection E as _ ->. right.
    rewrite forallb_app in Hds. cbn [forallb] in Hds.
    apply andb_true_iff in Hds as [_ Hy].
    now apply andb_true_iff in Hy as [Hy _].
Qed.

(** A name that ends in a character other than [)], [-], [_] and the
    digits has no suffix to strip. *)
Lemma plain_end_no_paren (t : str) (x : char) :
  x <> c_rparen -> strip_suffix paren_suffix (t ++ [x]) (t ++ [x]).
Proof.
  intros Hx. apply strip_nothing. intros p u Heq Hu.
  destruct (paren_suffix_last _ Hu) as (z & ->).
  rewrite app_assoc in Heq. apply app_inj_tail in Heq as [_ E].
  now apply Hx.
Qed.

Lemma plain_end_no_numeric (t : str) (x : char) :
  is_sep x = false -> is_digit x = false ->
  strip_repeatedly (t ++ [x]) (t ++ [x]).
Proof.
  intros Hsep Hdig. apply strip_stop. intros p u Heq Hu.
  destruct (numeric_suffix_last _ Hu) as (z & y & -> & Hy).
  rewrite app_assoc in Heq. apply app_inj_tail in Heq as [_ <-].
  destruct Hy as [Hy|Hy]; congruence.
Qed.

Lemma nil_no_numeric : strip_repeatedly [] [].
Proof.
  apply strip_stop. intros p u Heq (c & ds & -> & _).
  now destruct p.
Qed.


(** ** The key extractor *)

Lemma getSku_fuel_code (fuel : nat) (filename code : str) :
  str_match skuRegex filename = Some code -> truthy code = true ->
  getSkuFromFilename_fuel fuel filename = Some code.
Proof.
  intros Hm Ht. unfold getSkuFromFilename_fuel. now rewrite Hm, Ht.
Qed.

Lemma getSku_fuel_nocode (fuel : nat) (filename : str) :
  contains_sku_code filename = false ->
  getSkuFromFilename_fuel fuel filename =
  match stripLoop fuel (replace_empty parenRegex (baseName filename)) with
  | Some r => Some (if truthy r then r else baseName filename)
  | None => None
  end.
Proof.
  intros H. unfold getSkuFromFilename_fuel.
  now rewrite (str_match_sku_none _ H).
Qed.

Lemma stripLoop_enough (filename : str) (fuel : nat) :
  length filename < fuel ->
  exists r,
    stripLoop fuel (replace_empty parenRegex (baseName filename)) = Some r.
Proof.
  intros Hlen.
  destruct (stripLoop_terminates fuel
              (replace_empty parenRegex (baseName filename)))
    as (r & Hr & _).
  - pose proof (replace_empty_length parenRegex (baseName filename)).
    pose proof (baseName_length filename). lia.
  - now exists r.
Qed.

Lemma getSku_fuel_enough (filename : str) (fuel : nat) :
  length filename < fuel ->
  getSkuFromFilename_fuel fuel filename
  = Some (getSkuFromFilename filename).
Proof.
  intros Hlen. unfold getSkuFromFilename, getSkuFromFilename_fuel.
  destruct (stripLoop_enough filename (S (length filename)))
    as (r & Hr); [lia|].
  rewrite Hr, (stripLoop_more_fuel _ fuel _ _ Hr) by lia.
  destruct (str_match skuRegex filename) as [m1|]; [|reflexivity].
  now destruct (truthy m1).
Qed.

(** C6. [getSkuFromFilename] is total: one iteration of the stripping loop
    leaves the name unchanged or strictly shortens it, so the loop exits
    within [length filename + 1] iterations and a key is returned, whatever
    the file name; names made of separators and digits included. *)
Theorem getSkuFromFilename_total (filename : str) (fuel : nat) :
  length filename < fuel ->
  (forall name : str,
      replace_empty suffixRegex name = name \/
      length (replace_empty suffixRegex name) < length name) /\
  (exists key : str,
      getSkuFromFilename_fuel fuel filename = Some key /\
      getSkuFromFilename filename = key) /\
  getSkuFromFilename (js "1-2-3.png") = js "1" /\
  getSkuFromFilename (js "_-_.jpg") = js "_-_".
Proof.
  intros Hlen. split; [|split; [|split]].
  - intros name0. apply replace_empty_shorter.
  - exists (getSkuFromFilename filename).
    split; [now apply getSku_fuel_enough|reflexivity].
  - vm_compute. reflexivity.
  - vm_compute. reflexivity.
Qed.

Lemma getSkuFromFilename_total_witness :
  length (js "_-_1-22_.jpg") < 13 /\
  exists key : str,
    getSkuFromFilename_fuel 13 (js "_-_1-22_.jpg") = Some key /\
    getSkuFromFilename (js "_-_1-22_.jpg") = key.
Proof.
  split; [vm_compute; lia|].
  apply (getSkuFromFilename_total (js "_-_1-22_.jpg") 13).
  vm_compute. lia.
Defined.

(** C4 does not hold of every code in the name: a file name with two codes
    contains the second one as a substring, and the key is the first. *)
Lemma getSkuFromFilename_second_code :
  ~ (forall pre code post : str,
        is_sku_code code = true ->
        getSkuFromFilename (pre ++ code ++ post) = code).
Proof.
  intros H.
  specialize (H (js "111111-22222-333_") (js "444444-55555-666") (js ".jpg")
                eq_refl).
  vm_compute in H. discriminate H.
Qed.

(** C4, amended. When a file name contains a 6-5-3 code and no such code
    starts further left, the key is exactly that substring, whatever
    surrounds it. *)
Theorem getSkuFromFilename_leftmost_code (pre code post : str) :
  is_sku_code code = true ->
  no_code_before (length pre) (pre ++ code ++ post) = true ->
  getSkuFromFilename (pre ++ code ++ post) = code.
Proof.
  intros Hc Hn. unfold getSkuFromFilename.
  rewrite (getSku_fuel_code _ _ code); [reflexivity| |].
  - now apply str_match_sku_leftmost.
  - destruct code; [discriminate Hc|reflexivity].
Qed.

Lemma getSkuFromFilename_leftmost_code_witness :
  is_sku_code (js "123456-78901-234") = true /\
  no_code_before (length (js "sku-"))
    (js "sku-" ++ js "123456-78901-234" ++ js " front.jpg") = true /\
  getSkuFromFilename (js "sku-" ++ js "123456-78901-234" ++ js " front.jpg")
  = js "123456-78901-234".
Proof.
  split; [reflexivity|]. split; [reflexivity|].
  apply (getSkuFromFilename_leftmost_code
           (js "sku-") (js "123456-78901-234") (js " front.jpg"));
    reflexivity.
Defined.

(** Where the stages as worded and the program part: the worded stages
    leave nothing of ["-1.jpg"], keep the white space around the stem of
    [" a .jpg"], and keep a name without a [.] whole; the program falls
    back to the stem, trims it, and keeps nothing of a name without a
    [.]. *)
Example worded_stages_differ :
  worded_key (js "-1.jpg") (js "") /\
  getSkuFromFilename (js "-1.jpg") = js "-1" /\
  worded_key (js " a .jpg") (js " a ") /\
  getSkuFromFilename (js " a .jpg") = js "a" /\
  worded_key (js "holiday photo") (js "holiday photo") /\
  getSkuFromFilename (js "holiday photo") = js "".
Proof.
  assert (Hjpg : ~ In c_dot (js "jpg")).
  { intros H. vm_compute in H. repeat destruct H as [H|H]; try discriminate H.
    exact H. }
  split; [|split; [vm_compute; reflexivity|]].
  { exists (js "-1"), (js "-1"). split; [|split].
    - exact (worded_dot (js "-1") (js "jpg") Hjpg).
    - apply (plain_end_no_paren (js "-") 49%N). discriminate.
    - apply (strip_again [] (js "-1") []); [|exact nil_no_numeric].
      exists c_hyphen, (js "1"). now repeat split. }
  split; [|split; [vm_compute; reflexivity|]].
  { exists (js " a "), (js " a "). split; [|split].
    - exact (worded_dot (js " a ") (js "jpg") Hjpg).
    - apply (plain_end_no_paren (js " a") 32%N). discriminate.
    - now apply (plain_end_no_numeric (js " a") 32%N). }
  split; [|vm_compute; reflexivity].
  exists (js "holiday photo"), (js "holiday photo"). split; [|split].
  - apply worded_nodot. intros H. vm_compute in H.
    repeat destruct H as [H|H]; try discriminate H. exact H.
  - apply (plain_end_no_paren (js "holiday phot") 111%N). discriminate.
  - now apply (plain_end_no_numeric (js "holiday phot") 111%N).
Qed.

(** C5 does not hold as worded: stripping the extension, one trailing
    parenthesized suffix and the numeric suffixes of ["-1.jpg"] leaves the
    empty string, and the key of that name is ["-1"]. *)
Lemma getSkuFromFilename_not_worded_stages :
  ~ (forall filename key : str,
        contains_sku_code filename = false ->
        worded_key filename key ->
        getSkuFromFilename filename = key).
Proof.
  intros H.
  specialize (H (js "-1.jpg") (js "") eq_refl (proj1 worded_stages_differ)).
  vm_compute in H. discriminate H.
Qed.

(** C5, amended. Without a 6-5-3 code, the key is obtained from the text
    before the final [.], trimmed of white space at both ends (nothing,
    when the name has no [.]), by stripping one trailing parenthesized
    suffix, then trailing [[-_]digits] or lone [[-_]] suffixes one at a
    time until none is left; when nothing is left the trimmed text before
    the final [.] is the key. These stages can always be carried out and
    whatever way they are carried out gives the key. In particular
    ["product (2).jpg"] and ["product.jpg"] give ["product"], and
    ["img-001-2.png"] gives ["img"]. *)
Theorem getSkuFromFilename_stages :
  (forall filename : str,
      contains_sku_code filename = false ->
      (exists base stripped r : str,
          strip_extension filename base /\
          strip_suffix paren_suffix base stripped /\
          strip_repeatedly stripped r) /\
      (forall base stripped r : str,
          strip_extension filename base ->
          strip_suffix paren_suffix base stripped ->
          strip_repeatedly stripped r ->
          getSkuFromFilename filename = if truthy r then r else base)) /\
  getSkuFromFilename (js "product (2).jpg") = js "product" /\
  getSkuFromFilename (js "product.jpg") = js "product" /\
  getSkuFromFilename (js "img-001-2.png") = js "img".
Proof.
  split; [|repeat split; vm_compute; reflexivity].
  intros filename Hno.
  destruct (stripLoop_enough filename (S (length filename)))
    as (r0 & Hr); [lia|].
  pose proof (baseName_spec filename) as Hbase.
  pose proof (replace_anchored parenRegex paren_suffix match_paren_iff
                (baseName filename)) as Hparen.
  pose proof (stripLoop_spec _ _ _ Hr) as Hloop.
  split.
  - now exists (baseName filename),
      (replace_empty parenRegex (baseName filename)), r0.
  - intros base stripped r Hb Hp Hs.
    rewrite (strip_extension_functional _ _ _ Hb Hbase) in Hp |- *.
    rewrite (strip_suffix_functional _ _ _ _ Hp Hparen) in Hs.
    rewrite (strip_repeatedly_functional _ _ _ Hs Hloop).
    unfold getSkuFromFilename. now rewrite getSku_fuel_nocode, Hr.
Qed.

Lemma getSkuFromFilename_stages_witness :
  contains_sku_code (js "widget (3)-1-2.jpg") = false /\
  exists base stripped r : str,
    strip_extension (js "widget (3)-1-2.jpg") base /\
    strip_suffix paren_suffix base stripped /\
    strip_repeatedly stripped r /\
    getSkuFromFilename (js "widget (3)-1-2.jpg")
    = if truthy r then r else base.
Proof.
  split; [reflexivity|].
  destruct (proj1 getSkuFromFilename_stages (js "widget (3)-1-2.jpg")
              eq_refl) as [(base & stripped & r & Hb & Hp & Hs) Hkey].
  exists base, stripped, r.
  split; [exact Hb|]. split; [exact Hp|]. split; [exact Hs|].
  exact (Hkey base stripped r Hb Hp Hs).
Defined.

(** Further file names from the specification. *)
Example getSkuFromFilename_examples :
  getSkuFromFilename (js "sku-123456-78901-234 front.jpg")
  = js "123456-78901-234" /\
  getSkuFromFilename (js "random.png") = js "random" /\
  getSkuFromFilename (js "img_.png") = js "img" /\
  getSkuFromFilename (js "widget-1-2.jpg") = js "widget" /\
  getSkuFromFilename (js "widget (2).jpg") = js "widget" /\
  getSkuFromFilename (js "a (b) c.jpg") = js "a (b) c".
Proof. repeat split; vm_compute; reflexivity. Qed.

Lemma getSkuFromFilename_no_dot (filename : str) :
  ~ In c_dot filename -> contains_sku_code filename = false ->
  getSkuFromFilename filename = [].
Proof.
  intros Hdot Hno. unfold getSkuFromFilename.
  rewrite getSku_fuel_nocode, baseName_no_dot by assumption.
  reflexivity.
Qed.

(** ** The map *)

Section MapLemmas.

Context {V : Type}.
Implicit Types (m : JsMap V) (k : str) (v : V).

Lemma map_get_set_same m k v : map_get (map_set m k v) k = Some v.
Proof.
  induction m as [|[k' v'] m IH]; simpl.
  - now rewrite str_eqb_refl.
  - destruct (str_eqb k' k) eqn:E; simpl; now rewrite E.
Qed.

Lemma map_get_set_other m k k' v :
  k <> k' -> map_get (map_set m k v) k' = map_get m k'.
Proof.
  intros Hne. induction m as [|[k0 v0] m IH]; simpl.
  - apply str_eqb_neq in Hne. now rewrite Hne.
  - destruct (str_eqb k0 k) eqn:E; simpl.
    + apply str_eqb_eq in E. subst k0.
      apply str_eqb_neq in Hne. now rewrite Hne.
    + now rewrite IH.
Qed.

Lemma map_get_delete_same m k : map_get (map_delete m k) k = None.
Proof.
  induction m as [|[k' v'] m IH]; simpl; [reflexivity|].
  destruct (str_eqb k' k) eqn:E; simpl; [exact IH|].
  now rewrite E.
Qed.

Lemma map_get_delete_other m k k' :
  k <> k' -> map_get (map_delete m k) k' = map_get m k'.
Proof.
  intros Hne. induction m as [|[k0 v0] m IH]; simpl; [reflexivity|].
  destruct (str_eqb k0 k) eqn:E; simpl.
  - apply str_eqb_eq in E. subst k0.
    apply str_eqb_neq in Hne. now rewrite Hne.
  - now rewrite IH.
Qed.

Lemma map_delete_absent m k : map_get m k = None -> map_delete m k = m.
Proof.
  induction m as [|[k' v'] m IH]; simpl; [reflexivity|].
  destruct (str_eqb k' k); [discriminate|].
  intros H. now rewrite IH.
Qed.

Lemma map_set_same_value m k v : map_get m k = Some v -> map_set m k v = m.
Proof.
  induction m as [|[k' v'] m IH]; simpl; [discriminate|].
  destruct (str_eqb k' k).
  - intros H. now injection H as ->.
  - intros H. now rewrite IH.
Qed.

Lemma map_get_In m k v : map_get m k = Some v -> In (k, v) m.
Proof.
  induction m as [|[k' v'] m IH]; simpl; [discriminate|].
  destruct (str_eqb k' k) eqn:E.
  - apply str_eqb_eq in E. subst k'. intros H. injection H as ->. now left.
  - intros H. right. now apply IH.
Qed.

End MapLemmas.

(** ** Renaming and merging groups *)

(** C7. For distinct keys [a] and [b], [b] not empty, and a store that has
    group [a]: when [b] exists, [handleSkuChange a b] leaves under [b] its
    former items followed by those of [a], in order; when [b] does not
    exist, [b] gets the items of [a] unchanged; in both cases [a] is absent
    afterwards and every other group is untouched. With [b] equal to [a] or
    empty the store is unchanged. *)
Theorem handleSkuChange_spec (prev : Store) (a b : str)
    (itemsA : list slot) :
  map_get prev a = Some itemsA -> a <> b -> b <> [] ->
  (forall itemsB,
      map_get prev b = Some itemsB ->
      map_get (handleSkuChange a b prev) b = Some (itemsB ++ itemsA)) /\
  (map_get prev b = None ->
   map_get (handleSkuChange a b prev) b = Some itemsA) /\
  map_get (handleSkuChange a b prev) a = None /\
  (forall k, k <> a -> k <> b ->
             map_get (handleSkuChange a b prev) k = map_get prev k) /\
  handleSkuChange a a prev = prev /\
  handleSkuChange a [] prev = prev.
Proof.
  intros Ha Hab Hb.
  assert (Hgo : forall s, handleSkuChange a b s =
      if map_has (map_delete s a) b
      then map_set (map_delete s a) b
             (match map_get (map_delete s a) b with
              | Some i => i | None => [] end
              ++ match map_get s a with Some i => i | None => [] end)
      else map_set (map_delete s a) b
             match map_get s a with Some i => i | None => [] end).
  { intros s. unfold handleSkuChange.
    apply str_eqb_neq in Hab. rewrite Hab.
    destruct b; [contradiction|reflexivity]. }
  assert (Hget : map_get (map_delete prev a) b = map_get prev b)
    by now apply map_get_delete_other.
  split; [|split; [|split; [|split; [|split]]]].
  - intros itemsB HB. rewrite Hgo. unfold map_has.
    rewrite Hget, HB, Ha. apply map_get_set_same.
  - intros HB. rewrite Hgo. unfold map_has.
    rewrite Hget, HB, Ha. apply map_get_set_same.
  - rewrite Hgo.
    destruct (map_has (map_delete prev a) b);
      rewrite map_get_set_other by congruence;
      apply map_get_delete_same.
  - intros k Hka Hkb. rewrite Hgo.
    destruct (map_has (map_delete prev a) b);
      rewrite map_get_set_other by congruence;
      now apply map_get_delete_other.
  - unfold handleSkuChange. now rewrite str_eqb_refl, orb_true_r.
  - reflexivity.
Qed.

Lemma handleSkuChange_spec_witness :
  let x := {| id := js "i1"; file := {| name := js "a.png"; blob := 1 |};
              url := js "blob:1"; prefix := None |} in
  let y := {| id := js "i2"; file := {| name := js "b.png"; blob := 2 |};
              url := js "blob:2"; prefix := None |} in
  let prev : Store := [(js "A", [Some x]); (js "B", [Some y])] in
  map_get prev (js "A") = Some [Some x] /\
  js "A" <> js "B" /\ js "B" <> [] /\
  map_get (handleSkuChange (js "A") (js "B") prev) (js "B")
  = Some ([Some y] ++ [Some x]) /\
  map_get (handleSkuChange (js "A") (js "B") prev) (js "A") = None.
Proof.
  intros x y prev.
  assert (H1 : map_get prev (js "A") = Some [Some x]) by reflexivity.
  assert (H2 : js "A" <> js "B") by discriminate.
  assert (H3 : js "B" <> []) by discriminate.
  destruct (handleSkuChange_spec prev (js "A") (js "B") [Some x] H1 H2 H3)
    as (Hmerge & _ & Habsent & _).
  split; [exact H1|]. split; [exact H2|]. split; [exact H3|].
  split; [apply Hmerge; reflexivity|exact Habsent].
Defined.

(** ** Export names *)

Lemma fileCalls_defined (filenamePrefix : str) :
  forall (imgs : list OrganizedImage) (start : nat),
  exists calls,
    fileCalls filenamePrefix (map Some imgs) start = Ok calls /\
    length calls = length imgs /\
    forall i img,
      nth_error imgs i = Some img ->
      nth_error calls i
      = Some (newFilename filenamePrefix img (start + i), file img).
Proof.
  induction imgs as [|img0 imgs IH]; intros start.
  - exists []. repeat split. intros [|i] img; discriminate.
  - destruct (IH (S start)) as (calls & Hcalls & Hlen & Hnth).
    exists ((newFilename filenamePrefix img0 start, file img0) :: calls).
    cbn [map fileCalls]. rewrite Hcalls. split; [reflexivity|].
    split; [simpl; now rewrite Hlen|].
    intros [|i] img; cbn [nth_error].
    + intros H. injection H as <-. now rewrite Nat.add_0_r.
    + intros H. rewrite (Hnth i img H). now rewrite Nat.add_succ_r.
Qed.

Lemma defined_typed (g : list slot) :
  forallb is_defined g = true -> exists imgs, g = map Some imgs.
Proof.
  induction g as [|[img|] g IH]; cbn [forallb is_defined andb]; intros H.
  - now exists [].
  - destruct (IH H) as (imgs & ->). now exists (img :: imgs).
  - discriminate.
Qed.

Lemma typed_defined (imgs : list OrganizedImage) :
  forallb is_defined (map Some imgs) = true.
Proof. induction imgs; simpl; auto. Qed.

Lemma folderCalls_defined (filenamePrefix : str) :
  forall s : Store,
    all_defined s = true ->
    exists folders,
      folderCalls filenamePrefix s = Ok folders /\
      forall n sku g,
        nth_error s n = Some (sku, g) ->
        exists calls,
          nth_error folders n = Some (sku, calls) /\
          fileCalls filenamePrefix g 0 = Ok calls.
Proof.
  induction s as [|[sku0 g0] s IH]; cbn [all_defined forallb snd]; intros H.
  - exists []. split; [reflexivity|]. intros [|n]; discriminate.
  - apply andb_true_iff in H as [Hg Hs].
    destruct (defined_typed _ Hg) as (imgs0 & ->).
    destruct (fileCalls_defined filenamePrefix imgs0 0) as (calls0 & Hc & _).
    destruct (IH Hs) as (folders & Hf & Hnth).
    exists ((sku0, calls0) :: folders). cbn [folderCalls].
    rewrite Hc, Hf. split; [reflexivity|].
    intros [|n] sku g; cbn [nth_error].
    + intros E. injection E as <- <-. now exists calls0.
    + apply Hnth.
Qed.

(** C8. For the item at 1-based position [pos] of a group and a global
    prefix, the effective prefix is the override trimmed when the item has
    one (the empty string included), else the global prefix trimmed; the
    name handed to the archive writer for that item, in a single-folder
    export and in the export of all folders alike, is
    [pos-prefix-filename] when the effective prefix is not empty and
    [pos-filename] otherwise; so an empty override suppresses a global
    prefix. *)
Theorem export_name_spec (filenamePrefix : str)
    (imgs : list OrganizedImage) (pos : nat) (img : OrganizedImage) :
  1 <= pos -> nth_error imgs (pos - 1) = Some img ->
  let effective :=
    match prefix img with
    | Some override => trim override
    | None => trim filenamePrefix
    end in
  let expected :=
    match effective with
    | [] => Number_toString pos ++ js "-" ++ name (file img)
    | _ :: _ =>
        Number_toString pos ++ js "-" ++ effective ++ js "-"
          ++ name (file img)
    end in
  (exists calls,
      handleDownloadSingleFolder false filenamePrefix (map Some imgs)
      = Some (Ok calls) /\
      nth_error calls (pos - 1) = Some (expected, file img)) /\
  (forall (sku : str) (before after : Store),
      all_defined (before ++ (sku, map Some imgs) :: after) = true ->
      exists folders calls,
        handleDownloadAll false filenamePrefix
          (before ++ (sku, map Some imgs) :: after) = Some (Ok folders) /\
        nth_error folders (length before) = Some (sku, calls) /\
        nth_error calls (pos - 1) = Some (expected, file img)) /\
  (prefix img = Some [] ->
   expected = Number_toString pos ++ js "-" ++ name (file img)).
Proof.
  intros Hpos Hnth effective expected.
  destruct (fileCalls_defined filenamePrefix imgs 0)
    as (calls & Hcalls & _ & Hcall).
  assert (Hname : newFilename filenamePrefix img (0 + (pos - 1)) = expected).
  { unfold newFilename, expected, effective.
    replace (0 + (pos - 1) + 1) with pos by lia.
    destruct (prefix img) as [override|]; cbn [js map app];
      match goal with
      | |- context [truthy ?e] => destruct e; reflexivity
      end. }
  split; [|split].
  - exists calls. unfold handleDownloadSingleFolder. rewrite Hcalls.
    split; [reflexivity|]. now rewrite (Hcall _ _ Hnth), Hname.
  - intros sku before after Hdef.
    destruct (folderCalls_defined filenamePrefix _ Hdef)
      as (folders & Hf & Hfn).
    destruct (Hfn (length before) sku (map Some imgs)) as (calls' & Hn & Hc).
    { now rewrite nth_error_app2, Nat.sub_diag by lia. }
    rewrite Hcalls in Hc. injection Hc as <-.
    exists folders, calls. unfold handleDownloadAll.
    rewrite length_app. cbn [length]. rewrite Nat.add_succ_r.
    cbn [Nat.eqb orb]. rewrite Hf. split; [reflexivity|].
    split; [exact Hn|]. now rewrite (Hcall _ _ Hnth), Hname.
  - intros Hov. unfold expected, effective. now rewrite Hov.
Qed.

Lemma export_name_spec_witness :
  let photo := {| name := js "photo.jpg"; blob := 7 |} in
  let plain := {| id := js "i1"; file := photo; url := js "blob:1";
                  prefix := None |} in
  let silenced := {| id := js "i2"; file := photo; url := js "blob:2";
                     prefix := Some (js "") |} in
  1 <= 2 /\ nth_error [plain; silenced] (2 - 1) = Some silenced /\
  (exists calls,
      handleDownloadSingleFolder false (js "eci")
        (map Some [plain; silenced]) = Some (Ok calls) /\
      nth_error calls (2 - 1) = Some (js "2-photo.jpg", photo)) /\
  (exists calls,
      handleDownloadSingleFolder false (js "eci")
        (map Some [plain; silenced]) = Some (Ok calls) /\
      nth_error calls (1 - 1) = Some (js "1-eci-photo.jpg", photo)).
Proof.
  intros photo plain silenced.
  split; [lia|]. split; [reflexivity|]. split.
  - exact (proj1 (export_name_spec (js "eci") [plain; silenced] 2 silenced
                    (le_S 1 1 (le_n 1)) eq_refl)).
  - exact (proj1 (export_name_spec (js "eci") [plain; silenced] 1 plain
                    (le_n 1) eq_refl)).
Defined.

(** ** Organizing *)

Lemma contents_get (s : Store) (k : str) :
  map_get (contents s) k
  = option_map (map (option_map file)) (map_get s k).
Proof.
  induction s as [|[k' g] s IH]; simpl; [reflexivity|].
  now destruct (str_eqb k' k).
Qed.

Lemma contents_set (s : Store) (k : str) (g : list slot) :
  contents (map_set s k g)
  = map_set (contents s) k (map (option_map file) g).
Proof.
  induction s as [|[k' g'] s IH]; simpl; [reflexivity|].
  destruct (str_eqb k' k); simpl; [reflexivity|].
  now rewrite <- IH.
Qed.

Lemma addFile_contents (acc : Store) (f : File) (b : Browser) :
  exists s b',
    addFile acc f b = (Ok s, b') /\
    revoked b' = revoked b /\
    contents s = bucket (contents acc) f.
Proof.
  unfold addFile, bind, randomUUID, createObjectURL, ret. cbn [uuids objectUrls].
  eexists. eexists. split; [reflexivity|]. split; [reflexivity|].
  rewrite contents_set. unfold bucket. rewrite contents_get, map_app.
  now destruct (map_get acc (groupNameOf f)).
Qed.

Lemma addFiles_contents :
  forall (fs : list File) (acc : Store) (b : Browser),
  exists s b',
    addFiles acc fs b = (Ok s, b') /\
    revoked b' = revoked b /\
    contents s = fold_left bucket fs (contents acc).
Proof.
  induction fs as [|f fs IH]; intros acc b.
  - now exists acc, b.
  - destruct (addFile_contents acc f b) as (s1 & b1 & H1 & Hr1 & Hc1).
    destruct (IH s1 b1) as (s & b' & H & Hr & Hc).
    exists s, b'. cbn [addFiles fold_left]. unfold bind at 1.
    rewrite H1, H, Hc, Hc1. repeat split. congruence.
Qed.

Lemma forEach_revoke_defined (imgs : list OrganizedImage) (b : Browser) :
  exists b',
    forEach revokeImage (map Some imgs) b = (Ok tt, b') /\
    revoked b' = revoked b ++ map url imgs.
Proof.
  revert b. induction imgs as [|img imgs IH]; intros b.
  - exists b. split; [reflexivity|]. now rewrite app_nil_r.
  - cbn [map forEach]. unfold bind. cbn [revokeImage revokeObjectURL].
    match goal with
    | |- context [forEach revokeImage (map Some imgs) ?b0] =>
        destruct (IH b0) as (b' & H & Hr)
    end.
    exists b'. rewrite H. split; [reflexivity|].
    rewrite Hr. cbn [revoked]. now rewrite <- app_assoc.
Qed.

Lemma revokeAll_defined (s : Store) (b : Browser) :
  all_defined s = true -> exists b', revokeAll s b = (Ok tt, b').
Proof.
  revert b. induction s as [|[k g] s IH]; intros b H.
  - now exists b.
  - cbn [all_defined forallb snd] in H. apply andb_true_iff in H as [Hg Hs].
    destruct (defined_typed _ Hg) as (imgs & ->).
    unfold revokeAll. cbn [forEach snd]. unfold bind.
    destruct (forEach_revoke_defined imgs b) as (b1 & H1 & _). rewrite H1.
    apply (IH b1 Hs).
Qed.

Lemma organizeImages_contents (st : AppState) (b : Browser) :
  files st <> [] -> all_defined (organizedImages st) = true ->
  exists st' b',
    organizeImages st b = (Ok st', b') /\
    contents (organizedImages st') = buckets (files st) /\
    files st' = files st /\ isLoading st' = false /\ error st' = None.
Proof.
  intros Hfiles Hdef. unfold organizeImages.
  destruct (files st) as [|f fs] eqn:Ef; [contradiction|].
  destruct (revokeAll_defined _ b Hdef) as (b1 & H1).
  destruct (addFiles_contents (f :: fs) [] b1) as (s & b2 & H2 & _ & Hc).
  unfold bind at 1. rewrite H1. unfold bind at 1. rewrite H2.
  eexists. eexists. split; [reflexivity|]. cbn [organizedImages files
    isLoading error]. now repeat split.
Qed.

(** C3 does not hold of the empty list: with no file selected,
    [organizeImages] sets the error message (and leaves the store alone). *)
Lemma organizeImages_empty_is_error :
  ~ (forall (st : AppState) (b : Browser),
        files st = [] ->
        exists st' b',
          organizeImages st b = (Ok st', b') /\
          organizedImages st' = [] /\ error st' = None).
Proof.
  intros H.
  destruct (H {| files := []; organizedImages := []; isLoading := false;
                 error := None |}
              {| uuids := fun _ => []; objectUrls := fun _ => [];
                 revoked := [] |} eq_refl)
    as (st' & b' & Hrun & _ & Herr).
  cbn in Hrun. injection Hrun as <- _. discriminate Herr.
Qed.

(** C3, amended. On an empty list of files [organizeImages] reports
    ["Please select some images first."] and changes nothing else. On a
    non-empty list it replaces the store by the files bucketed by group
    name in first-seen key order, whatever the store held and whatever ids
    and URLs the browser hands out: two runs on the same files give stores
    with the same keys, in the same order, with the same payloads. *)
Theorem organizeImages_spec :
  (forall (st : AppState) (b : Browser),
      files st = [] ->
      organizeImages st b
      = (Ok {| files := files st; organizedImages := organizedImages st;
               isLoading := isLoading st; error := Some noFilesMessage |},
         b)) /\
  (forall (st1 st2 : AppState) (b1 b2 : Browser),
      files st1 = files st2 -> files st1 <> [] ->
      all_defined (organizedImages st1) = true ->
      all_defined (organizedImages st2) = true ->
      exists st1' b1' st2' b2',
        organizeImages st1 b1 = (Ok st1', b1') /\
        organizeImages st2 b2 = (Ok st2', b2') /\
        contents (organizedImages st1') = buckets (files st1) /\
        contents (organizedImages st1') = contents (organizedImages st2') /\
        error st1' = None /\ error st2' = None).
Proof.
  split.
  - intros st b H. unfold organizeImages. now rewrite H.
  - intros st1 st2 b1 b2 Hsame Hne Hd1 Hd2.
    destruct (organizeImages_contents st1 b1 Hne Hd1)
      as (st1' & b1' & Hr1 & Hc1 & _ & _ & He1).
    destruct (organizeImages_contents st2 b2) as
      (st2' & b2' & Hr2 & Hc2 & _ & _ & He2);
      [congruence|exact Hd2|].
    exists st1', b1', st2', b2'. repeat split; try assumption.
    congruence.
Qed.

Lemma organizeImages_spec_witness :
  let fs := [ {| name := js "sku-123456-78901-234 front.jpg"; blob := 1 |};
              {| name := js "sku-123456-78901-234 back.jpg"; blob := 2 |};
              {| name := js "random.png"; blob := 3 |} ] in
  let st := {| files := fs; organizedImages := []; isLoading := false;
               error := None |} in
  let b1 := {| uuids := fun n => Number_toString n;
               objectUrls := fun n => Number_toString n; revoked := [] |} in
  let b2 := {| uuids := fun n => Number_toString (n + 100);
               objectUrls := fun n => Number_toString (n + 100);
               revoked := [] |} in
  files st = files st /\ files st <> [] /\
  all_defined (organizedImages st) = true /\
  exists st1' b1' st2' b2',
    organizeImages st b1 = (Ok st1', b1') /\
    organizeImages st b2 = (Ok st2', b2') /\
    contents (organizedImages st1') = buckets (files st) /\
    contents (organizedImages st1') = contents (organizedImages st2') /\
    error st1' = None /\ error st2' = None.
Proof.
  intros fs st b1 b2.
  assert (Hne : files st <> []) by discriminate.
  split; [reflexivity|]. split; [exact Hne|]. split; [reflexivity|].
  exact (proj2 organizeImages_spec st st b1 b2 eq_refl Hne eq_refl eq_refl).
Defined.

Example organizeImages_scenario :
  buckets [ {| name := js "sku-123456-78901-234 front.jpg"; blob := 1 |};
            {| name := js "sku-123456-78901-234 back.jpg"; blob := 2 |};
            {| name := js "random.png"; blob := 3 |} ]
  = [ (js "123456-78901-234",
       [ Some {| name := js "sku-123456-78901-234 front.jpg"; blob := 1 |};
         Some {| name := js "sku-123456-78901-234 back.jpg"; blob := 2 |} ]);
      (js "random", [ Some {| name := js "random.png"; blob := 3 |} ]) ].
Proof. vm_compute. reflexivity. Qed.

(** Every file ends up in the group of its name. *)
Lemma bucket_keeps (fs : list File) :
  forall (c : JsMap (list (option File))) (k : str)
         (g : list (option File)) (x : option File),
    map_get c k = Some g -> In x g ->
    exists g', map_get (fold_left bucket fs c) k = Some g' /\ In x g'.
Proof.
  induction fs as [|f fs IH]; intros c k g x Hg Hx; [now exists g|].
  cbn [fold_left]. unfold bucket at 2.
  destruct (list_eq_dec N.eq_dec (groupNameOf f) k) as [E|E].
  - apply (IH _ k (g ++ [Some f]) x).
    + rewrite E, Hg. apply map_get_set_same.
    + apply in_or_app. now left.
  - apply (IH _ k g x); [|exact Hx].
    now rewrite map_get_set_other.
Qed.

Lemma buckets_member (fs : list File) :
  forall (c : JsMap (list (option File))) (f : File),
    In f fs ->
    exists g,
      map_get (fold_left bucket fs c) (groupNameOf f) = Some g /\
      In (Some f) g.
Proof.
  induction fs as [|f0 fs IH]; intros c f Hin; [contradiction|].
  destruct Hin as [->|Hin]; [|now apply IH].
  cbn [fold_left].
  eapply bucket_keeps.
  - unfold bucket. apply map_get_set_same.
  - apply in_or_app. right. now left.
Qed.

(** C9. A file name with no [.] and no 6-5-3 code has the empty key,
    however ordinary the name, so [organizeImages] puts the file in the
    group ["Unidentified"]. *)
Theorem no_dot_is_Unidentified (st : AppState) (b : Browser) (f : File) :
  In f (files st) -> ~ In c_dot (name f) ->
  contains_sku_code (name f) = false ->
  all_defined (organizedImages st) = true ->
  getSkuFromFilename (name f) = [] /\
  groupNameOf f = js "Unidentified" /\
  exists st' b' group img,
    organizeImages st b = (Ok st', b') /\
    map_get (organizedImages st') (js "Unidentified") = Some group /\
    In (Some img) group /\ file img = f.
Proof.
  intros Hin Hdot Hno Hdef.
  pose proof (getSkuFromFilename_no_dot _ Hdot Hno) as Hkey.
  assert (Hname : groupNameOf f = js "Unidentified")
    by (unfold groupNameOf; now rewrite Hkey).
  split; [exact Hkey|]. split; [exact Hname|].
  destruct (organizeImages_contents st b) as (st' & b' & Hrun & Hc & _);
    [intros E; rewrite E in Hin; contradiction|exact Hdef|].
  destruct (buckets_member (files st) [] f Hin) as (g & Hg & Hf).
  fold (buckets (files st)) in Hg. rewrite <- Hc, contents_get, Hname in Hg.
  destruct (map_get (organizedImages st') (js "Unidentified"))
    as [group|] eqn:Eg; [|discriminate].
  cbn [option_map] in Hg. injection Hg as <-.
  apply in_map_iff in Hf as ([img|] & Himg & Hin'); [|discriminate].
  cbn [option_map] in Himg. injection Himg as Himg.
  now exists st', b', group, img.
Qed.

Lemma no_dot_is_Unidentified_witness :
  let f := {| name := js "holiday photo"; blob := 1 |} in
  let st := {| files := [f]; organizedImages := []; isLoading := false;
               error := None |} in
  let b := {| uuids := fun n => Number_toString n;
              objectUrls := fun n => Number_toString n; revoked := [] |} in
  In f (files st) /\ ~ In c_dot (name f) /\
  contains_sku_code (name f) = false /\
  getSkuFromFilename (name f) = [] /\
  groupNameOf f = js "Unidentified".
Proof.
  intros f st b.
  assert (Hin : In f (files st)) by (left; reflexivity).
  assert (Hdot : ~ In c_dot (name f)).
  { cbv. intros H. repeat destruct H as [H|H]; try discriminate H.
    exact H. }
  assert (Hno : contains_sku_code (name f) = false) by reflexivity.
  destruct (no_dot_is_Unidentified st b f Hin Hdot Hno eq_refl)
    as (Hkey & Hname & _).
  split; [exact Hin|]. split; [exact Hdot|]. split; [exact Hno|].
  split; [exact Hkey|exact Hname].
Defined.

(** ** Deleting and duplicating items *)

Lemma array_find_defined (v : str) (imgs : list OrganizedImage)
    (b : Browser) :
  array_find (id_is v) (map Some imgs) b
  = (Ok (find (fun i => str_eqb (id i) v) imgs), b).
Proof.
  induction imgs as [|i imgs IH]; [reflexivity|].
  cbn [map array_find find]. unfold bind. cbn [id_is ret].
  destruct (str_eqb (id i) v); [reflexivity|exact IH].
Qed.

Lemma array_filter_defined (v : str) (imgs : list OrganizedImage)
    (b : Browser) :
  array_filter (fun img => same <- id_is v img ;; ret (negb same))
    (map Some imgs) b
  = (Ok (map Some (filter (fun i => negb (str_eqb (id i) v)) imgs)), b).
Proof.
  induction imgs as [|i imgs IH]; [reflexivity|].
  cbn [map array_filter filter]. unfold bind at 1 2. cbn [id_is ret].
  unfold bind at 1. rewrite IH. unfold ret.
  now destruct (str_eqb (id i) v).
Qed.

(** [handleDeleteImage] on a group without [undefined] elements. *)
Lemma handleDeleteImage_defined (sku v : str) (prev : Store)
    (imgs : list OrganizedImage) (b : Browser) :
  map_get prev sku = Some (map Some imgs) ->
  exists b',
    handleDeleteImage sku v prev b
    = (Ok (let kept := filter (fun i => negb (str_eqb (id i) v)) imgs in
           if 0 <? length kept then map_set prev sku (map Some kept)
           else map_delete prev sku),
       b') /\
    revoked b'
    = revoked b ++ match find (fun i => str_eqb (id i) v) imgs with
                   | Some i => [url i]
                   | None => []
                   end.
Proof.
  intros Hg. unfold handleDeleteImage. rewrite Hg.
  unfold bind at 1. rewrite array_find_defined.
  destruct (find (fun i => str_eqb (id i) v) imgs) as [i|].
  - unfold bind at 1. cbn [revokeObjectURL].
    unfold bind at 1. rewrite array_filter_defined.
    rewrite length_map. eexists. split.
    + destruct (0 <? length _); reflexivity.
    + reflexivity.
  - unfold bind at 1. cbn [ret].
    unfold bind at 1. rewrite array_filter_defined.
    rewrite length_map. exists b. split.
    + destruct (0 <? length _); reflexivity.
    + now rewrite app_nil_r.
Qed.

Lemma find_by_unique_id (imgs : list OrganizedImage) (v : OrganizedImage) :
  NoDup (map id imgs) -> In v imgs ->
  find (fun i => str_eqb (id i) (id v)) imgs = Some v.
Proof.
  induction imgs as [|i imgs IH]; cbn [map find]; intros Hnd Hin;
    [contradiction|].
  apply NoDup_cons_iff in Hnd as [Hni Hnd].
  destruct Hin as [->|Hin]; [now rewrite str_eqb_refl|].
  destruct (str_eqb (id i) (id v)) eqn:E; [|now apply IH].
  apply str_eqb_eq in E. exfalso. apply Hni. rewrite E.
  now apply in_map.
Qed.

Lemma splice_insert_defined (imgs : list OrganizedImage) (n : nat)
    (x : OrganizedImage) :
  splice_insert (map Some imgs) n (Some x)
  = map Some (firstn n imgs ++ x :: skipn n imgs).
Proof.
  unfold splice_insert. now rewrite map_app, firstn_map, skipn_map.
Qed.

Lemma handleDuplicateImage_defined (sku : str) (index : nat) (prev : Store)
    (imgs : list OrganizedImage) (img : OrganizedImage) (b : Browser) :
  map_get prev sku = Some (map Some imgs) ->
  nth_error imgs index = Some img ->
  let copy := {| id := uuids b 0; file := file img; url := url img;
                 prefix := prefix img |} in
  exists b',
    handleDuplicateImage sku index prev b
    = (Ok (map_set prev sku
             (map Some (firstn (index + 1) imgs ++ copy
                          :: skipn (index + 1) imgs))), b') /\
    revoked b' = revoked b /\
    nth_error (firstn (index + 1) imgs ++ copy :: skipn (index + 1) imgs)
      (index + 1) = Some copy.
Proof.
  intros Hg Hnth copy. unfold handleDuplicateImage. rewrite Hg.
  rewrite nth_error_map, Hnth. cbn [option_map].
  unfold bind, randomUUID, ret. rewrite splice_insert_defined.
  eexists. split; [reflexivity|]. split; [reflexivity|].
  assert (Hlen : index < length imgs)
    by (apply nth_error_Some; congruence).
  rewrite nth_error_app2; rewrite length_firstn, Nat.min_l by lia;
    [|lia].
  now rewrite Nat.sub_diag.
Qed.


(** ** Missing keys *)

(** The guarded handlers: a missing group or index leaves the store as it
    is. *)
Lemma handleDuplicateImage_missing_group (sku : str) (index : nat)
    (prev : Store) (b : Browser) :
  map_get prev sku = None ->
  handleDuplicateImage sku index prev b = (Ok prev, b).
Proof. intros H. unfold handleDuplicateImage. now rewrite H. Qed.

Lemma handleDuplicateImage_missing_index (sku : str) (index : nat)
    (prev : Store) (g : list slot) (b : Browser) :
  map_get prev sku = Some g -> nth_error g index = None ->
  handleDuplicateImage sku index prev b = (Ok prev, b).
Proof. intros H1 H2. unfold handleDuplicateImage. now rewrite H1, H2. Qed.

Lemma handleDeleteImage_missing_group (sku v : str) (prev : Store)
    (b : Browser) :
  map_get prev sku = None -> handleDeleteImage sku v prev b = (Ok prev, b).
Proof. intros H. unfold handleDeleteImage. now rewrite H. Qed.

Lemma filter_other_ids (v : str) (imgs : list OrganizedImage) :
  ~ In v (map id imgs) ->
  filter (fun i => negb (str_eqb (id i) v)) imgs = imgs /\
  find (fun i => str_eqb (id i) v) imgs = None.
Proof.
  induction imgs as [|i imgs IH]; cbn [map filter find In]; intros H;
    [now split|].
  assert (E : str_eqb (id i) v = false) by (apply str_eqb_neq; tauto).
  rewrite E. cbn [negb]. destruct IH as [-> ->]; tauto.
Qed.

Lemma handleDeleteImage_missing_id (sku v : str) (prev : Store)
    (imgs : list OrganizedImage) (b : Browser) :
  map_get prev sku = Some (map Some imgs) -> imgs <> [] ->
  ~ In v (map id imgs) ->
  handleDeleteImage sku v prev b = (Ok prev, b).
Proof.
  intros Hg Hne Hv. unfold handleDeleteImage. rewrite Hg.
  destruct (filter_other_ids v imgs Hv) as [Hfilter Hfind].
  unfold bind at 1. rewrite array_find_defined, Hfind.
  unfold bind at 1. cbn [ret].
  unfold bind at 1. rewrite array_filter_defined, Hfilter, length_map.
  destruct imgs as [|i imgs]; [contradiction|]. cbn [length Nat.ltb Nat.leb].
  unfold ret. now rewrite map_set_same_value.
Qed.

Lemma handleImagePrefixChange_missing_group (sku v p : str) (prev : Store)
    (b : Browser) :
  map_get prev sku = None ->
  handleImagePrefixChange sku v p prev b = (Ok prev, b).
Proof. intros H. unfold handleImagePrefixChange. now rewrite H. Qed.

Lemma handleDeleteGroup_missing_group (confirmed : bool) (sku : str)
    (prev : Store) (b : Browser) :
  map_get prev sku = None ->
  handleDeleteGroup confirmed sku prev b = (Ok prev, b).
Proof.
  intros H. unfold handleDeleteGroup. destruct confirmed; [|reflexivity].
  rewrite H. unfold bind, ret. now rewrite map_delete_absent.
Qed.

Lemma handleGroupDrop_same (sku : str) (prev : Store) :
  handleGroupDrop (Some sku) sku prev = prev.
Proof.
  unfold handleGroupDrop. now rewrite str_eqb_refl, orb_true_r.
Qed.

Lemma handleGroupDrop_missing_source (source target : str) (prev : Store)
    (g : list slot) :
  map_get prev source = None -> map_get prev target = Some g ->
  handleGroupDrop (Some source) target prev = prev.
Proof.
  intros Hs Ht. unfold handleGroupDrop.
  destruct (negb (truthy source) || str_eqb source target); [reflexivity|].
  rewrite Hs, Ht, app_nil_r, map_set_same_value by exact Ht.
  now apply map_delete_absent.
Qed.

(** C1. A missing key is not always a no-op. The guarded handlers above
    return the store unchanged, but the three handlers that read a missing
    group as an empty list do not: dropping an item whose source group is
    missing stores [undefined] in the target group (and the next deletion
    there throws), merging into a missing group renames the dragged group,
    and renaming a missing group creates an empty one. *)
Theorem missing_key_changes_store :
  let x := {| id := js "i1"; file := {| name := js "a.png"; blob := 1 |};
              url := js "blob:1"; prefix := None |} in
  let prev : Store := [(js "A", [Some x])] in
  handleDropReorder (Some (js "ghost", 0)) (js "A") 0 prev
  = [(js "A", [None; Some x])] /\
  (forall b : Browser,
      fst (handleDeleteImage (js "A") (js "i1")
             (handleDropReorder (Some (js "ghost", 0)) (js "A") 0 prev) b)
      = TypeError) /\
  handleDropReorder (Some (js "ghost", 0)) (js "ghost") 0 prev
  = [(js "A", [Some x]); (js "ghost", [None])] /\
  handleGroupDrop (Some (js "A")) (js "ghost") prev
  = [(js "ghost", [Some x])] /\
  handleGroupDrop (Some (js "ghost")) (js "other") prev
  = [(js "A", [Some x]); (js "other", [])] /\
  handleSkuChange (js "ghost") (js "new") prev
  = [(js "A", [Some x]); (js "new", [])].
Proof.
  intros x prev. repeat split; vm_compute; reflexivity.
Qed.

(** ** No empty group *)

Lemma str_eq_dec (a b : str) : {a = b} + {a <> b}.
Proof. apply (list_eq_dec N.eq_dec). Qed.

Lemma no_empty_set (s : Store) (k : str) (g : list slot) :
  no_empty_group s -> g <> [] -> no_empty_group (map_set s k g).
Proof.
  intros Hs Hg k' g' H.
  destruct (str_eq_dec k k') as [<-|Hne].
  - rewrite map_get_set_same in H. congruence.
  - rewrite map_get_set_other in H by exact Hne. exact (Hs _ _ H).
Qed.

Lemma no_empty_delete (s : Store) (k : str) :
  no_empty_group s -> no_empty_group (map_delete s k).
Proof.
  intros Hs k' g' H.
  destruct (str_eq_dec k k') as [<-|Hne].
  - rewrite map_get_delete_same in H. discriminate.
  - rewrite map_get_delete_other in H by exact Hne. exact (Hs _ _ H).
Qed.

Lemma splice_insert_nonempty (a : list slot) (n : nat) (x : slot) :
  splice_insert a n x <> [].
Proof.
  unfold splice_insert. destruct (firstn n a); discriminate.
Qed.

(** Deleting the last item of a group removes the key. *)
Lemma handleDeleteImage_last (sku : str) (prev : Store)
    (img : OrganizedImage) (b : Browser) :
  map_get prev sku = Some [Some img] ->
  exists b',
    handleDeleteImage sku (id img) prev b = (Ok (map_delete prev sku), b') /\
    map_get (map_delete prev sku) sku = None /\
    revoked b' = revoked b ++ [url img].
Proof.
  intros Hg.
  destruct (handleDeleteImage_defined sku (id img) prev [img] b Hg)
    as (b' & Hrun & Hrev).
  cbn [filter find] in Hrun, Hrev. rewrite str_eqb_refl in Hrun, Hrev.
  exists b'. split; [exact Hrun|].
  split; [apply map_get_delete_same|exact Hrev].
Qed.

Lemma handleDeleteImage_no_empty (sku v : str) (prev s' : Store)
    (b b' : Browser) :
  no_empty_group prev ->
  handleDeleteImage sku v prev b = (Ok s', b') ->
  no_empty_group s'.
Proof.
  intros Hprev. unfold handleDeleteImage.
  destruct (map_get prev sku) as [g|].
  - unfold bind at 1.
    destruct (array_find (id_is v) g b) as [[found|] b1]; [|discriminate].
    unfold bind at 1.
    destruct (match found with
              | Some img => revokeObjectURL (url img)
              | None => ret tt
              end b1) as [[u|] b2]; [|discriminate].
    unfold bind at 1.
    destruct (array_filter _ g b2) as [[kept|] b3]; [|discriminate].
    destruct (0 <? length kept) eqn:E; unfold ret; intros H;
      injection H as <- <-.
    + apply no_empty_set; [exact Hprev|].
      apply Nat.ltb_lt in E. destruct kept; [simpl in E; lia|discriminate].
    + now apply no_empty_delete.
  - unfold ret. intros H. now injection H as <- <-.
Qed.

Lemma handleDropReorder_no_empty (draggedItem : option (str * nat))
    (targetGroup : str) (targetIndex : nat) (prev : Store) :
  no_empty_group prev ->
  no_empty_group (handleDropReorder draggedItem targetGroup targetIndex prev).
Proof.
  intros Hprev. unfold handleDropReorder.
  destruct draggedItem as [[sourceGroup sourceIndex]|]; [|exact Hprev].
  unfold splice_remove.
  destruct (str_eqb sourceGroup targetGroup).
  - apply no_empty_set; [exact Hprev|apply splice_insert_nonempty].
  - destruct (length _ =? 0) eqn:E.
    + apply no_empty_delete, no_empty_set;
        [exact Hprev|apply splice_insert_nonempty].
    + apply no_empty_set.
      * apply no_empty_set; [exact Hprev|apply splice_insert_nonempty].
      * intros Hnil. rewrite Hnil in E. discriminate.
Qed.

Lemma handleSkuChange_no_empty (oldSku newSku : str) (prev : Store)
    (g : list slot) :
  no_empty_group prev -> map_get prev oldSku = Some g ->
  no_empty_group (handleSkuChange oldSku newSku prev).
Proof.
  intros Hprev Hg. unfold handleSkuChange.
  destruct (negb (truthy newSku) || str_eqb oldSku newSku); [exact Hprev|].
  rewrite Hg. pose proof (Hprev _ _ Hg) as Hne.
  destruct (map_has (map_delete prev oldSku) newSku);
    apply no_empty_set; try (now apply no_empty_delete); try exact Hne.
  intros E. apply app_eq_nil in E as [_ E]. contradiction.
Qed.

Lemma handleGroupDrop_no_empty (draggedGroupSku : option str)
    (targetSku : str) (prev : Store) :
  no_empty_group prev ->
  (forall source, draggedGroupSku = Some source ->
                  map_get prev source <> None \/
                  map_get prev targetSku <> None) ->
  no_empty_group (handleGroupDrop draggedGroupSku targetSku prev).
Proof.
  intros Hprev Hpresent. unfold handleGroupDrop.
  destruct draggedGroupSku as [source|]; [|exact Hprev].
  destruct (negb (truthy source) || str_eqb source targetSku);
    [exact Hprev|].
  apply no_empty_delete, no_empty_set; [exact Hprev|].
  intros E. apply app_eq_nil in E as [Et Es].
  destruct (Hpresent source eq_refl) as [H|H].
  - destruct (map_get prev source) as [g|] eqn:Eg; [|contradiction].
    subst g. now apply (Hprev _ _ Eg).
  - destruct (map_get prev targetSku) as [g|] eqn:Eg; [|contradiction].
    subst g. now apply (Hprev _ _ Eg).
Qed.

Lemma handleDuplicateImage_no_empty (sku : str) (index : nat)
    (prev s' : Store) (b b' : Browser) :
  no_empty_group prev ->
  handleDuplicateImage sku index prev b = (Ok s', b') ->
  no_empty_group s'.
Proof.
  intros Hprev. unfold handleDuplicateImage.
  destruct (map_get prev sku) as [g|];
    [|unfold ret; intros H; now injection H as <- <-].
  destruct (nth_error g index) as [[img|]|];
    try (unfold ret; intros H; now injection H as <- <-).
  unfold bind, randomUUID, ret. intros H. injection H as <- <-.
  apply no_empty_set; [exact Hprev|apply splice_insert_nonempty].
Qed.

(** C2. The handlers keep the store free of empty groups as long as the
    keys they are given are present (lemmas above), and deleting the last
    item of a group removes its key; but renaming a group that is not in
    the store, or merging a missing group into a missing group, adds a
    group with no item to a store that had none. *)
Theorem empty_group_from_missing_key :
  let x := {| id := js "i1"; file := {| name := js "a.png"; blob := 1 |};
              url := js "blob:1"; prefix := None |} in
  let prev : Store := [(js "A", [Some x])] in
  no_empty_group prev /\
  map_get (handleSkuChange (js "ghost") (js "new") prev) (js "new")
  = Some [] /\
  ~ no_empty_group (handleSkuChange (js "ghost") (js "new") prev) /\
  map_get (handleGroupDrop (Some (js "ghost")) (js "other") prev) (js "other")
  = Some [] /\
  ~ no_empty_group (handleGroupDrop (Some (js "ghost")) (js "other") prev).
Proof.
  intros x prev. split; [|split; [|split; [|split]]].
  - intros k g. unfold prev. cbn [map_get].
    destruct (str_eqb (js "A") k); [|discriminate].
    intros H. injection H as <-. discriminate.
  - reflexivity.
  - intros H. now apply (H (js "new") [] eq_refl).
  - reflexivity.
  - intros H. now apply (H (js "other") [] eq_refl).
Qed.
(** ** Duplicating, then deleting *)

Lemma map_set_set {V : Type} (m : JsMap V) (k : str) (v v' : V) :
  map_set (map_set m k v) k v' = map_set m k v'.
Proof.
  induction m as [|[k0 v0] m IH]; simpl.
  - now rewrite str_eqb_refl.
  - destruct (str_eqb k0 k) eqn:E; simpl; rewrite E; [reflexivity|].
    now rewrite IH.
Qed.

Lemma filter_all_other (v : str) (imgs : list OrganizedImage) :
  ~ In v (map id imgs) ->
  filter (fun i => negb (str_eqb (id i) v)) imgs = imgs.
Proof. intros H. now destruct (filter_other_ids v imgs H). Qed.

Lemma find_none_other (v : str) (imgs : list OrganizedImage) :
  ~ In v (map id imgs) -> find (fun i => str_eqb (id i) v) imgs = None.
Proof. intros H. now destruct (filter_other_ids v imgs H). Qed.

Lemma find_app_fresh (v : str) (l1 l2 : list OrganizedImage)
    (x : OrganizedImage) :
  ~ In v (map id l1) -> id x = v ->
  find (fun i => str_eqb (id i) v) (l1 ++ x :: l2) = Some x.
Proof.
  intros Hl1 Hx. induction l1 as [|y l1 IH]; cbn [app find].
  - now rewrite Hx, str_eqb_refl.
  - cbn [map In] in Hl1.
    assert (E : str_eqb (id y) v = false) by (apply str_eqb_neq; tauto).
    rewrite E. apply IH. tauto.
Qed.

Lemma nth_error_cut {A : Type} (g : list A) (i : nat) (x : A) :
  nth_error g i = Some x -> g = firstn i g ++ x :: skipn (S i) g.
Proof.
  revert i. induction g as [|y g IH]; intros [|i] H; try discriminate H;
    cbn [nth_error firstn skipn app] in *.
  - now injection H as ->.
  - f_equal. now apply IH.
Qed.

Lemma firstn_succ_nth {A : Type} (g : list A) (i : nat) (x : A) :
  nth_error g i = Some x -> firstn (i + 1) g = firstn i g ++ [x].
Proof.
  revert i. induction g as [|y g IH]; intros [|i] H; try discriminate H;
    cbn [nth_error Nat.add firstn app] in *.
  - now injection H as ->.
  - now rewrite (IH i H).
Qed.

Lemma skipn_succ (A : Type) (g : list A) (i : nat) :
  skipn (i + 1) g = skipn (S i) g.
Proof. now rewrite Nat.add_1_r. Qed.

(** C10. The copy made by [handleDuplicateImage] has the preview URL and
    the payload of the original and sits right after it, and
    [handleDeleteImage] removes the item it is asked to delete and revokes
    its URL: after duplicating an item and deleting the original or the
    copy, the deleted one has left the group, the other one stays at the
    place of the original among the unchanged other items, and it holds a
    revoked URL. *)
Theorem duplicate_then_delete_revokes_shared_url (prev : Store) (sku : str)
    (imgs : list OrganizedImage) (index : nat) (img : OrganizedImage)
    (b : Browser) (victim : str) :
  map_get prev sku = Some (map Some imgs) ->
  nth_error imgs index = Some img ->
  NoDup (map id imgs) ->
  ~ In (uuids b 0) (map id imgs) ->
  victim = id img \/ victim = uuids b 0 ->
  exists (s1 : Store) (b1 : Browser) (g1 : list slot) (copy : OrganizedImage)
         (s2 : Store) (b2 : Browser) (g2 : list slot)
         (survivor : OrganizedImage),
    handleDuplicateImage sku index prev b = (Ok s1, b1) /\
    map_get s1 sku = Some g1 /\
    nth_error g1 (index + 1) = Some (Some copy) /\
    id copy = uuids b 0 /\ url copy = url img /\ file copy = file img /\
    handleDeleteImage sku victim s1 b1 = (Ok s2, b2) /\
    revoked b2 = revoked b ++ [url img] /\
    map_get s2 sku = Some g2 /\
    In (Some survivor) g2 /\ id survivor <> victim /\
    url survivor = url img /\ In (url survivor) (revoked b2) /\
    g1 = map Some (firstn index imgs ++ img :: copy :: skipn (S index) imgs) /\
    survivor = (if str_eqb victim (id img) then copy else img) /\
    g2 = map Some (firstn index imgs ++ survivor :: skipn (S index) imgs) /\
    (forall it : OrganizedImage, In (Some it) g2 -> id it <> victim) /\
    (forall k : str, k <> sku -> map_get s2 k = map_get prev k).
Proof.
  intros Hg Hnth Hnd Hfresh Hvictim.
  set (copy := {| id := uuids b 0; file := file img; url := url img;
                  prefix := prefix img |}).
  destruct (handleDuplicateImage_defined sku index prev imgs img b Hg Hnth)
    as (b1 & Hdup & Hrev1 & Hcopy).
  fold copy in Hdup, Hcopy.
  rewrite (firstn_succ_nth _ _ _ Hnth), skipn_succ, <- app_assoc
    in Hdup, Hcopy.
  cbn [app] in Hdup, Hcopy.
  pose proof (nth_error_cut imgs index img Hnth) as Himgs.
  set (A := firstn index imgs) in *. set (B := skipn (S index) imgs) in *.
  set (imgs1 := A ++ img :: copy :: B) in *.
  rewrite Himgs in Hnd, Hfresh. rewrite map_app in Hnd, Hfresh.
  cbn [map] in Hnd, Hfresh.
  pose proof (NoDup_remove_2 _ _ _ Hnd) as Hother.
  assert (HiA : ~ In (id img) (map id A))
    by (intros H; apply Hother, in_or_app; now left).
  assert (HiB : ~ In (id img) (map id B))
    by (intros H; apply Hother, in_or_app; now right).
  assert (HuA : ~ In (uuids b 0) (map id A))
    by (intros H; apply Hfresh, in_or_app; now left).
  assert (HuB : ~ In (uuids b 0) (map id B))
    by (intros H; apply Hfresh, in_or_app; right; now right).
  assert (Hne : id img <> uuids b 0)
    by (intros E; apply Hfresh, in_or_app; right; now left).
  assert (Hg1 : map_get (map_set prev sku (map Some imgs1)) sku
                = Some (map Some imgs1)) by apply map_get_set_same.
  destruct (handleDeleteImage_defined sku victim _ imgs1 b1 Hg1)
    as (b2 & Hdel & Hrev2).
  set (survivor := if str_eqb victim (id img) then copy else img).
  assert (Hrun : filter (fun i => negb (str_eqb (id i) victim)) imgs1
                 = A ++ survivor :: B /\
                 exists gone,
                   find (fun i => str_eqb (id i) victim) imgs1 = Some gone /\
                   url gone = url img).
  { unfold imgs1, survivor. rewrite filter_app. cbn [filter].
    destruct Hvictim as [-> | ->].
    - rewrite !str_eqb_refl. cbn [negb id copy].
      assert (E : str_eqb (uuids b 0) (id img) = false)
        by (apply str_eqb_neq; congruence).
      rewrite E. cbn [negb].
      rewrite !filter_all_other by assumption.
      split; [reflexivity|].
      exists img. split; [|reflexivity].
      now apply find_app_fresh.
    - cbn [id copy]. rewrite str_eqb_refl.
      assert (E : str_eqb (id img) (uuids b 0) = false)
        by (now apply str_eqb_neq).
      assert (E' : str_eqb (uuids b 0) (id img) = false)
        by (apply str_eqb_neq; congruence).
      rewrite E, E'. cbn [negb].
      rewrite !filter_all_other by assumption.
      split; [reflexivity|].
      exists copy. split; [|reflexivity].
      replace (A ++ img :: copy :: B) with ((A ++ [img]) ++ copy :: B)
        by (now rewrite <- app_assoc).
      apply find_app_fresh; [|reflexivity].
      rewrite map_app. cbn [map]. intros H.
      apply in_app_or in H as [H|[H|[]]]; [now apply HuA|now apply Hne]. }
  destruct Hrun as [Hkept (gone & Hfind & Hurl)].
  assert (Hsid : id survivor <> victim).
  { unfold survivor. destruct Hvictim as [-> | ->].
    - rewrite str_eqb_refl. cbn [id copy]. congruence.
    - assert (E' : str_eqb (uuids b 0) (id img) = false)
        by (apply str_eqb_neq; congruence).
      now rewrite E'. }
  assert (Hsurl : url survivor = url img)
    by (unfold survivor; now destruct (str_eqb victim (id img))).
  rewrite Hfind, Hurl, Hrev1 in Hrev2.
  cbv zeta in Hdel. rewrite Hkept in Hdel.
  assert (Hpos : (0 <? length (A ++ survivor :: B)) = true)
    by (rewrite length_app; cbn [length]; apply Nat.ltb_lt; lia).
  rewrite Hpos, map_set_set in Hdel.
  exists (map_set prev sku (map Some imgs1)), b1, (map Some imgs1), copy,
    (map_set prev sku (map Some (A ++ survivor :: B))), b2,
    (map Some (A ++ survivor :: B)), survivor.
  split; [exact Hdup|]. split; [exact Hg1|].
  split; [now rewrite nth_error_map, Hcopy|].
  split; [reflexivity|]. split; [reflexivity|]. split; [reflexivity|].
  split; [exact Hdel|]. split; [exact Hrev2|].
  split; [apply map_get_set_same|].
  split; [apply in_map, in_or_app; right; now left|].
  split; [exact Hsid|]. split; [exact Hsurl|].
  split; [rewrite Hrev2, Hsurl; apply in_or_app; right; now left|].
  split; [reflexivity|]. split; [reflexivity|]. split; [reflexivity|].
  split.
  - intros it Hin. apply in_map_iff in Hin as (it' & Heq & Hin).
    injection Heq as ->. rewrite <- Hkept in Hin.
    apply filter_In in Hin as [_ Hin].
    apply negb_true_iff in Hin. now apply str_eqb_neq.
  - intros k Hk. apply map_get_set_other. congruence.
Qed.

Lemma duplicate_then_delete_revokes_shared_url_witness :
  let x := {| id := js "i1"; file := {| name := js "a.png"; blob := 1 |};
              url := js "blob:1"; prefix := None |} in
  let prev : Store := [(js "A", map Some [x])] in
  let b := {| uuids := fun n => Number_toString n;
              objectUrls := fun n => Number_toString n; revoked := [] |} in
  map_get prev (js "A") = Some (map Some [x]) /\
  nth_error [x] 0 = Some x /\
  NoDup (map id [x]) /\
  ~ In (uuids b 0) (map id [x]) /\
  exists (s1 : Store) (b1 : Browser) (g1 : list slot) (copy : OrganizedImage)
         (s2 : Store) (b2 : Browser) (g2 : list slot)
         (survivor : OrganizedImage),
    handleDuplicateImage (js "A") 0 prev b = (Ok s1, b1) /\
    map_get s1 (js "A") = Some g1 /\
    nth_error g1 (0 + 1) = Some (Some copy) /\
    id copy = uuids b 0 /\ url copy = url x /\ file copy = file x /\
    handleDeleteImage (js "A") (js "i1") s1 b1 = (Ok s2, b2) /\
    revoked b2 = revoked b ++ [url x] /\
    map_get s2 (js "A") = Some g2 /\
    In (Some survivor) g2 /\ id survivor <> js "i1" /\
    url survivor = url x /\ In (url survivor) (revoked b2) /\
    g1 = map Some (firstn 0 [x] ++ x :: copy :: skipn 1 [x]) /\
    survivor = (if str_eqb (js "i1") (id x) then copy else x) /\
    g2 = map Some (firstn 0 [x] ++ survivor :: skipn 1 [x]) /\
    (forall it : OrganizedImage, In (Some it) g2 -> id it <> js "i1") /\
    (forall k : str, k <> js "A" -> map_get s2 k = map_get prev k).
Proof.
  intros x prev b.
  assert (H1 : map_get prev (js "A") = Some (map Some [x])) by reflexivity.
  assert (H2 : nth_error [x] 0 = Some x) by reflexivity.
  assert (H3 : NoDup (map id [x])).
  { apply NoDup_cons; [intros []|apply NoDup_nil]. }
  assert (H4 : ~ In (uuids b 0) (map id [x])).
  { intros [H|[]]. vm_compute in H. discriminate H. }
  split; [exact H1|]. split; [exact H2|]. split; [exact H3|].
  split; [exact H4|].
  exact (duplicate_then_delete_revokes_shared_url prev (js "A") [x] 0 x b
           (js "i1") H1 H2 H3 H4 (or_introl eq_refl)).
Defined.

(** * Further properties *)

(** ** The key extractor *)

Lemma strip_suffix_prefix (P : str -> Prop) (s s' : str) :
  strip_suffix P s s' -> exists u, s = s' ++ u.
Proof.
  intros [p u _ _|s0 _]; [now exists u|].
  exists []. now rewrite app_nil_r.
Qed.

Lemma strip_repeatedly_prefix (s r : str) :
  strip_repeatedly s r -> exists u, s = r ++ u.
Proof.
  induction 1 as [s _|p u r _ _ (v & ->)].
  - exists []. now rewrite app_nil_r.
  - exists (v ++ u). now rewrite app_assoc.
Qed.

Lemma strip_repeatedly_done (s r : str) :
  strip_repeatedly s r -> forall p u, r = p ++ u -> ~ numeric_suffix u.
Proof. induction 1 as [s Hno|p u r _ _ IH]; assumption. Qed.

(** What the stripping stages make of a name without a code. *)
Lemma getSku_nocode_stages (filename : str) :
  contains_sku_code filename = false ->
  exists stripped r,
    strip_suffix paren_suffix (baseName filename) stripped /\
    strip_repeatedly stripped r /\
    getSkuFromFilename filename
    = if truthy r then r else baseName filename.
Proof.
  intros Hno.
  destruct (stripLoop_enough filename (S (length filename)))
    as (r & Hr); [lia|].
  exists (replace_empty parenRegex (baseName filename)), r.
  split; [apply replace_anchored, match_paren_iff|].
  split; [exact (stripLoop_spec _ _ _ Hr)|].
  unfold getSkuFromFilename. now rewrite getSku_fuel_nocode, Hr.
Qed.

Lemma getSku_code_found (filename : str) :
  contains_sku_code filename = true ->
  exists pre post,
    filename = pre ++ getSkuFromFilename filename ++ post /\
    is_sku_code (getSkuFromFilename filename) = true /\
    no_code_before (length pre) filename = true.
Proof.
  intros Hc.
  apply contains_sku_code_iff in Hc as (pre0 & code0 & post0 & Hf & Hc0).
  pose proof (match_sku_complete code0 post0 Hc0) as Hm0.
  destruct (search skuRegex [] filename) as [[[a m] t]|] eqn:E.
  - destruct (search_some _ _ _ _ _ _ E) as (s1 & Hs & _ & Hm & Hmin).
    destruct (match_sku_sound _ _ Hm) as (code & Hcode & Hc).
    apply app_inv_tail in Hcode. subst m.
    assert (Hkey : getSkuFromFilename filename = code).
    { unfold getSkuFromFilename.
      rewrite (getSku_fuel_code _ _ code); [reflexivity| |].
      - unfold str_match. now rewrite E.
      - destruct code; [discriminate Hc|reflexivity]. }
    exists s1, t. rewrite Hkey. split; [exact Hs|]. split; [exact Hc|].
    apply no_code_before_iff. intros pre' code' post' Hf' Hc'.
    destruct (Nat.le_gt_cases (length s1) (length pre')) as [Hle|Hgt];
      [exact Hle|].
    pose proof (match_sku_complete code' post' Hc') as Hm'.
    rewrite (Hmin pre' (code' ++ post') Hf' Hgt) in Hm'. discriminate Hm'.
  - rewrite (search_none _ _ _ E pre0 (code0 ++ post0) Hf) in Hm0.
    discriminate Hm0.
Qed.

(** X1. Whenever a file name contains a 6-5-3 code, the key is such a code,
    it occurs in the name, and no code starts further left. *)
Theorem getSkuFromFilename_code_found (filename : str) :
  contains_sku_code filename = true ->
  exists pre post,
    filename = pre ++ getSkuFromFilename filename ++ post /\
    is_sku_code (getSkuFromFilename filename) = true /\
    no_code_before (length pre) filename = true.
Proof.
  exact (getSku_code_found filename).
Qed.

Lemma getSkuFromFilename_code_found_witness :
  contains_sku_code (js "sku-123456-78901-234 front.jpg") = true /\
  exists pre post,
    js "sku-123456-78901-234 front.jpg"
    = pre ++ getSkuFromFilename (js "sku-123456-78901-234 front.jpg")
        ++ post /\
    is_sku_code (getSkuFromFilename (js "sku-123456-78901-234 front.jpg"))
    = true /\
    no_code_before (length pre) (js "sku-123456-78901-234 front.jpg") = true.
Proof.
  split; [reflexivity|].
  apply (getSkuFromFilename_code_found (js "sku-123456-78901-234 front.jpg")).
  reflexivity.
Defined.

Lemma dropWhile_nil_iff (p : char -> bool) (s : str) :
  dropWhile p s = [] <-> forallb p s = true.
Proof.
  induction s as [|c s IH]; simpl; [tauto|].
  destruct (p c); simpl; [exact IH|]. split; discriminate.
Qed.

Lemma dropWhile_head (p : char -> bool) (s : str) (c : char) (t : str) :
  dropWhile p s = c :: t -> p c = false.
Proof.
  induction s as [|c0 s IH]; simpl; [discriminate|].
  destruct (p c0) eqn:E; [exact IH|].
  intros H. injection H as <- _. exact E.
Qed.

Lemma trim_nil_iff (s : str) : trim s = [] <-> forallb is_space s = true.
Proof.
  unfold trim. split.
  - intros H. apply dropWhile_nil_iff.
    destruct (dropWhile is_space s) as [|c t] eqn:E; [reflexivity|].
    apply dropWhile_head in E.
    apply (f_equal (@rev char)) in H. rewrite rev_involutive in H.
    cbn [rev] in H. apply dropWhile_nil_iff in H.
    rewrite forallb_app in H. cbn [forallb] in H.
    rewrite E, andb_false_r in H. discriminate H.
  - intros H. apply dropWhile_nil_iff in H. now rewrite H.
Qed.

Lemma baseName_dot (stem ext : str) :
  ~ In c_dot ext -> baseName (stem ++ c_dot :: ext) = trim stem.
Proof.
  intros Hext. unfold baseName, slice_0_m1.
  now rewrite split_app, (split_no_sep _ _ Hext), removelast_last, join_split.
Qed.

(** X2. The key is empty, and the file goes to ["Unidentified"], exactly
    when the name holds no 6-5-3 code and has either no [.] at all or
    nothing but white space before its last [.]. *)
Theorem getSkuFromFilename_empty_iff (filename : str) :
  getSkuFromFilename filename = [] <->
  contains_sku_code filename = false /\
  (~ In c_dot filename \/
   exists stem ext,
     filename = stem ++ c_dot :: ext /\ ~ In c_dot ext /\
     forallb is_space stem = true).
Proof.
  split.
  - intros Hkey.
    destruct (contains_sku_code filename) eqn:Hc.
    + destruct (getSku_code_found _ Hc) as (_ & _ & _ & Hcode & _).
      rewrite Hkey in Hcode. discriminate Hcode.
    + split; [reflexivity|].
      destruct (getSku_nocode_stages _ Hc) as (stripped & r & _ & _ & Hr).
      assert (Hbase : baseName filename = []).
      { rewrite Hkey in Hr. destruct r; [now symmetry|discriminate Hr]. }
      destruct (in_dec N.eq_dec c_dot filename) as [Hin|Hnin]; [right|now left].
      destruct (last_dot _ _ Hin) as (stem & ext & -> & Hext).
      exists stem, ext. split; [reflexivity|]. split; [exact Hext|].
      rewrite baseName_dot in Hbase by exact Hext. now apply trim_nil_iff.
  - intros [Hc Hshape].
    assert (Hbase : baseName filename = []).
    { destruct Hshape as [Hnin|(stem & ext & -> & Hext & Hstem)].
      - now apply baseName_no_dot.
      - rewrite baseName_dot by exact Hext. now apply trim_nil_iff. }
    unfold getSkuFromFilename. now rewrite getSku_fuel_nocode, Hbase.
Qed.

(** X3. The key never has more characters than the file name, and for a
    name without a code it is a prefix of the text before the last [.]
    once the white space at both ends of that text is removed. *)
Theorem getSkuFromFilename_prefix (filename : str) :
  length (getSkuFromFilename filename) <= length filename /\
  (forall stem ext : str,
      filename = stem ++ c_dot :: ext -> ~ In c_dot ext ->
      contains_sku_code filename = false ->
      exists rest, trim stem = getSkuFromFilename filename ++ rest).
Proof.
  assert (Hpre : contains_sku_code filename = false ->
                 exists rest,
                   baseName filename = getSkuFromFilename filename ++ rest).
  { intros Hc.
    destruct (getSku_nocode_stages _ Hc) as (stripped & r & Hp & Hs & ->).
    destruct (strip_suffix_prefix _ _ _ Hp) as (u & Hu).
    destruct (strip_repeatedly_prefix _ _ Hs) as (v & ->).
    destruct (truthy r).
    - exists (v ++ u). now rewrite app_assoc.
    - exists []. now rewrite app_nil_r. }
  split.
  - destruct (contains_sku_code filename) eqn:Hc.
    + destruct (getSku_code_found _ Hc) as (pre & post & Hf & _).
      rewrite Hf at 2. rewrite !length_app. lia.
    + destruct (Hpre eq_refl) as (rest & Hrest).
      pose proof (baseName_length filename) as Hlen.
      rewrite Hrest, length_app in Hlen. lia.
  - intros stem ext Hf Hext Hc.
    destruct (Hpre Hc) as (rest & Hrest). exists rest.
    rewrite <- Hrest, Hf. symmetry. now apply baseName_dot.
Qed.

Lemma getSkuFromFilename_prefix_witness :
  exists rest,
    trim (js " widget (2)-1 ")
    = getSkuFromFilename (js " widget (2)-1 .jpg") ++ rest.
Proof.
  apply (proj2 (getSkuFromFilename_prefix (js " widget (2)-1 .jpg"))
           (js " widget (2)-1 ") (js "jpg")).
  - reflexivity.
  - intros H. vm_compute in H.
    repeat destruct H as [H|H]; try discriminate H. exact H.
  - reflexivity.
Defined.

Lemma only_suffixes_app (w u : str) :
  only_suffixes w = true -> numeric_suffix u ->
  only_suffixes (w ++ u) = true.
Proof.
  intros Hw (c & ds & -> & Hc & Hds).
  assert (Hall : forallb (fun x => is_sep x || is_digit x) (c :: ds) = true).
  { cbn [forallb]. rewrite Hc. cbn [orb andb].
    apply forallb_forall. intros x Hx.
    rewrite (proj1 (forallb_forall _ _) Hds x Hx). apply orb_true_r. }
  destruct w as [|c0 w]; cbn [app only_suffixes] in *.
  - rewrite Hc. cbn [andb]. cbn [forallb] in Hall. rewrite Hc in Hall.
    exact Hall.
  - apply andb_true_iff in Hw as [H0 Hw]. rewrite H0. cbn [andb].
    now rewrite forallb_app, Hw, Hall.
Qed.

(** What the loop strips is a run of numeric suffixes. *)
Lemma strip_repeatedly_tail (s r : str) :
  strip_repeatedly s r ->
  exists w, s = r ++ w /\ only_suffixes w = true.
Proof.
  induction 1 as [s _|p u r Hu _ (w & -> & Hw)].
  - exists []. now rewrite app_nil_r.
  - exists (w ++ u). split; [now rewrite app_assoc|].
    now apply only_suffixes_app.
Qed.

Lemma only_suffixes_last (s : str) :
  s <> [] -> only_suffixes s = true ->
  exists p u, s = p ++ u /\ numeric_suffix u /\ only_suffixes p = true.
Proof.
  induction s as [|y s IH] using rev_ind; [contradiction|].
  intros _ Hs.
  destruct (is_sep y) eqn:Hy.
  - exists s, [y]. split; [reflexivity|]. split.
    + now exists y, [].
    + destruct s as [|c s]; [reflexivity|].
      cbn [app only_suffixes] in *.
      apply andb_true_iff in Hs as [Hc Hs]. rewrite Hc. cbn [andb].
      rewrite forallb_app in Hs. now apply andb_true_iff in Hs as [Hs _].
  - destruct s as [|c s].
    + cbn [app only_suffixes] in Hs. rewrite Hy in Hs. discriminate Hs.
    + assert (Hd : is_digit y = true).
      { cbn [app only_suffixes] in Hs.
        apply andb_true_iff in Hs as [_ Hs]. rewrite forallb_app in Hs.
        apply andb_true_iff in Hs as [_ Hs]. cbn [forallb] in Hs.
        rewrite Hy in Hs. cbn [orb] in Hs.
        now apply andb_true_iff in Hs as [Hs _]. }
      assert (Hcs : only_suffixes (c :: s) = true).
      { cbn [app only_suffixes] in *.
        apply andb_true_iff in Hs as [Hc Hs]. rewrite Hc. cbn [andb].
        rewrite forallb_app in Hs. now apply andb_true_iff in Hs as [Hs _]. }
      destruct (IH ltac:(discriminate) Hcs)
        as (p & u & E & (c1 & ds & -> & Hc1 & Hds) & Hp).
      exists p, (c1 :: ds ++ [y]). split; [|split].
      * rewrite E. now rewrite <- app_assoc.
      * exists c1, (ds ++ [y]). split; [reflexivity|]. split; [exact Hc1|].
        rewrite forallb_app, Hds. cbn [forallb]. now rewrite Hd.
      * exact Hp.
Qed.

(** Of a run of numeric suffixes the loop leaves nothing. *)
Lemma only_suffixes_strip (s : str) :
  only_suffixes s = true -> strip_repeatedly s [].
Proof.
  remember (length s) as n eqn:Hn. revert s Hn.
  induction n as [n IH] using lt_wf_ind. intros s Hn Hs.
  destruct s as [|c s]; [exact nil_no_numeric|].
  destruct (only_suffixes_last (c :: s) ltac:(discriminate) Hs)
    as (p & u & E & Hu & Hp).
  rewrite E. apply strip_again; [exact Hu|].
  apply (IH (length p)); [|reflexivity|exact Hp].
  rewrite Hn, E, length_app.
  destruct Hu as (c1 & ds & -> & _). cbn [length]. lia.
Qed.

(** X4. For a name with a [.] and without a code, let [stripped] be the
    text before the last [.], trimmed and without its trailing
    parenthesized suffix. When [stripped] is made of numeric suffixes
    only, stripping leaves nothing and the key is the fall-back, the
    trimmed text before the last [.]. Otherwise the key is not empty,
    [stripped] is the key followed by numeric suffixes only, and the key
    does not end in [-] or [_] followed by digits. *)
Theorem getSkuFromFilename_fully_stripped (stem ext : str) :
  ~ In c_dot ext ->
  contains_sku_code (stem ++ c_dot :: ext) = false ->
  exists stripped : str,
    strip_suffix paren_suffix (trim stem) stripped /\
    if only_suffixes stripped
    then getSkuFromFilename (stem ++ c_dot :: ext) = trim stem
    else exists tail : str,
        stripped = getSkuFromFilename (stem ++ c_dot :: ext) ++ tail /\
        only_suffixes tail = true /\
        getSkuFromFilename (stem ++ c_dot :: ext) <> [] /\
        forall p u : str,
          getSkuFromFilename (stem ++ c_dot :: ext) = p ++ u ->
          ~ numeric_suffix u.
Proof.
  intros Hext Hc.
  destruct (getSku_nocode_stages _ Hc) as (stripped & r & Hp & Hs & ->).
  rewrite baseName_dot in * by exact Hext.
  exists stripped. split; [exact Hp|].
  destruct (only_suffixes stripped) eqn:Hall.
  - pose proof (strip_repeatedly_functional _ _ _ Hs
                  (only_suffixes_strip _ Hall)) as ->.
    reflexivity.
  - destruct (strip_repeatedly_tail _ _ Hs) as (w & Hw & Hwall).
    destruct r as [|c r].
    + cbn [app] in Hw. subst w. congruence.
    + cbn [truthy]. exists w. split; [exact Hw|]. split; [exact Hwall|].
      split; [discriminate|]. exact (strip_repeatedly_done _ _ Hs).
Qed.

Lemma getSkuFromFilename_fully_stripped_witness :
  exists stripped : str,
    strip_suffix paren_suffix (trim (js "img-001-2 (copy)")) stripped /\
    if only_suffixes stripped
    then getSkuFromFilename (js "img-001-2 (copy).png")
         = trim (js "img-001-2 (copy)")
    else exists tail : str,
        stripped = getSkuFromFilename (js "img-001-2 (copy).png") ++ tail /\
        only_suffixes tail = true /\
        getSkuFromFilename (js "img-001-2 (copy).png") <> [] /\
        forall p u : str,
          getSkuFromFilename (js "img-001-2 (copy).png") = p ++ u ->
          ~ numeric_suffix u.
Proof.
  apply (getSkuFromFilename_fully_stripped (js "img-001-2 (copy)")
           (js "png")).
  - intros H. vm_compute in H.
    repeat destruct H as [H|H]; try discriminate H. exact H.
  - reflexivity.
Defined.

(** *** Numbered and parenthesized copies *)

Lemma digit_not_space (c : char) : is_digit c = true -> is_space c = false.
Proof.
  unfold is_digit, is_space. intros H.
  apply andb_true_iff in H as [H1 H2].
  apply N.leb_le in H1, H2.
  apply orb_false_iff. split.
  - cbn [existsb]. repeat (apply orb_false_iff; split);
      try reflexivity; apply N.eqb_neq; lia.
  - apply andb_false_iff. left. apply N.leb_gt. lia.
Qed.

Lemma sep_not_space (c : char) : is_sep c = true -> is_space c = false.
Proof.
  unfold is_sep. intros H.
  apply orb_true_iff in H as [H|H]; apply N.eqb_eq in H; now subst c.
Qed.

Lemma dropWhile_app_plain (p : char -> bool) (a : str) (x : char) (u : str) :
  p x = false -> dropWhile p (a ++ x :: u) = dropWhile p (a ++ [x]) ++ u.
Proof.
  intros Hx. induction a as [|c a IH]; simpl.
  - now rewrite Hx.
  - destruct (p c); [exact IH|]. cbn [app]. now rewrite <- app_assoc.
Qed.

Lemma dropWhile_keeps_last (p : char -> bool) (a : str) (x : char) :
  p x = false -> exists t, dropWhile p (a ++ [x]) = t ++ [x].
Proof.
  intros Hx. induction a as [|c a IH]; simpl.
  - rewrite Hx. now exists [].
  - destruct (p c); [exact IH|]. now exists (c :: a).
Qed.

Lemma trim_plain_end (a : str) (y : char) :
  is_space y = false -> trim (a ++ [y]) = dropWhile is_space (a ++ [y]).
Proof.
  intros Hy. unfold trim.
  destruct (dropWhile_keeps_last is_space a y Hy) as (t & ->).
  rewrite rev_app_distr. cbn [rev app dropWhile]. rewrite Hy.
  cbn [rev]. now rewrite rev_involutive.
Qed.

Lemma replace_paren_unchanged (s : str) :
  (forall z, s <> z ++ [c_rparen]) -> replace_empty parenRegex s = s.
Proof.
  intros Hend.
  pose proof (replace_anchored parenRegex paren_suffix match_paren_iff s)
    as H.
  apply strip_suffix_inv in H as [(u & Hs & HP & _)|[H _]]; [|exact H].
  destruct (paren_suffix_last _ HP) as (z & ->).
  exfalso. apply (Hend (replace_empty parenRegex s ++ z)).
  now rewrite <- app_assoc.
Qed.

(** The loop leaves alone a name whose last character is neither a
    separator nor a digit. *)
Lemma stripLoop_plain_end (fuel : nat) (t : str) (x : char) :
  is_sep x = false -> is_digit x = false ->
  stripLoop (S fuel) (t ++ [x]) = Some (t ++ [x]).
Proof.
  intros Hsep Hdig.
  destruct (stripLoop_terminates (S (length (t ++ [x]))) (t ++ [x]))
    as (r & Hr & _); [lia|].
  assert (Hstop : strip_repeatedly (t ++ [x]) (t ++ [x])).
  { apply strip_stop. intros p u Heq Hu.
    destruct (numeric_suffix_last _ Hu) as (z & y & -> & Hy).
    rewrite app_assoc in Heq. apply app_inj_tail in Heq as [_ <-].
    destruct Hy as [Hy|Hy]; congruence. }
  pose proof (strip_repeatedly_functional _ _ _ (stripLoop_spec _ _ _ Hr)
                Hstop) as ->.
  cbn [stripLoop] in *.
  destruct (negb (str_eqb (replace_empty suffixRegex (t ++ [x])) (t ++ [x]))
            && (0 <? length (replace_empty suffixRegex (t ++ [x])))) eqn:E.
  - exfalso. apply andb_true_iff in E as [E _].
    apply negb_true_iff, str_eqb_neq in E. apply E.
    pose proof (replace_anchored suffixRegex numeric_suffix match_suffix_iff
                  (t ++ [x])) as H.
    apply strip_suffix_inv in H as [(u & Hs & HP & _)|[H _]]; [|exact H].
    destruct (numeric_suffix_last _ HP) as (z & y & -> & Hy).
    rewrite app_assoc in Hs. apply app_inj_tail in Hs as [_ <-].
    destruct Hy as [Hy|Hy]; congruence.
  - exact Hr.
Qed.

Lemma stripLoop_one_suffix (fuel : nat) (t : str) (x c : char) (ds : str) :
  is_sep x = false -> is_digit x = false ->
  is_sep c = true -> forallb is_digit ds = true ->
  length (t ++ x :: c :: ds) < fuel ->
  stripLoop fuel (t ++ x :: c :: ds) = Some (t ++ [x]).
Proof.
  intros Hsep Hdig Hc Hds Hfuel.
  destruct (stripLoop_terminates fuel (t ++ x :: c :: ds) Hfuel)
    as (r & Hr & _).
  rewrite Hr. f_equal.
  apply (strip_repeatedly_functional _ _ _ (stripLoop_spec _ _ _ Hr)).
  change (t ++ x :: c :: ds) with (t ++ [x] ++ c :: ds).
  rewrite app_assoc. apply strip_again; [now exists c, ds|].
  apply strip_stop. intros p u Heq Hu.
  destruct (numeric_suffix_last _ Hu) as (z & y & -> & Hy).
  rewrite app_assoc in Heq. apply app_inj_tail in Heq as [_ <-].
  destruct Hy as [Hy|Hy]; congruence.
Qed.

(** X5. Numbered variants share a key, when neither name holds a 6-5-3
    code: if the stem ends in a character that is not white space, [)],
    [-], [_] or a digit, a name with one more [-digits] or [_digits]
    suffix before the extension has the same key as the name without it,
    namely the stem without its leading white space. (A name that holds a
    code has that code as its key, whatever its stem.) *)
Theorem numbered_variant_same_key (stem : str) (x c : char)
    (ds ext : str) :
  is_space x = false -> x <> c_rparen -> is_sep x = false ->
  is_digit x = false ->
  is_sep c = true -> forallb is_digit ds = true -> ~ In c_dot ext ->
  contains_sku_code (stem ++ x :: c :: ds ++ c_dot :: ext) = false ->
  contains_sku_code (stem ++ x :: c_dot :: ext) = false ->
  getSkuFromFilename (stem ++ x :: c :: ds ++ c_dot :: ext)
  = dropWhile is_space (stem ++ [x]) /\
  getSkuFromFilename (stem ++ x :: c_dot :: ext)
  = dropWhile is_space (stem ++ [x]).
Proof.
  intros Hsp Hrp Hsep Hdig Hc Hds Hext Hno1 Hno2.
  destruct (dropWhile_keeps_last is_space stem x Hsp) as (t & Ht).
  split.
  - unfold getSkuFromFilename. rewrite getSku_fuel_nocode by exact Hno1.
    replace (stem ++ x :: c :: ds ++ c_dot :: ext)
      with ((stem ++ x :: c :: ds) ++ c_dot :: ext)
      by (rewrite <- app_assoc; reflexivity).
    rewrite baseName_dot by exact Hext.
    destruct (exists_last (l := c :: ds)) as (z & y & Ez); [discriminate|].
    assert (Hy : is_sep y = true \/ is_digit y = true).
    { destruct (numeric_suffix_last (c :: ds)) as (z' & y' & E' & Hy');
        [now exists c, ds|].
      rewrite Ez in E'. apply app_inj_tail in E' as [_ <-]. exact Hy'. }
    assert (Hysp : is_space y = false)
      by (destruct Hy; [now apply sep_not_space|now apply digit_not_space]).
    assert (Htrim : trim (stem ++ x :: c :: ds) = t ++ x :: c :: ds).
    { replace (stem ++ x :: c :: ds) with ((stem ++ x :: z) ++ [y])
        by (rewrite <- app_assoc; cbn [app]; now rewrite <- Ez).
      rewrite trim_plain_end by exact Hysp.
      rewrite <- app_assoc. cbn [app]. rewrite <- Ez.
      rewrite dropWhile_app_plain by exact Hsp.
      rewrite Ht, <- app_assoc. reflexivity. }
    rewrite Htrim.
    rewrite replace_paren_unchanged.
    + rewrite stripLoop_one_suffix; try assumption.
      * rewrite Ht. destruct (t ++ [x]) eqn:E; [|reflexivity].
        now destruct t.
      * pose proof (trim_length (stem ++ x :: c :: ds)) as Hl.
        rewrite Htrim in Hl. clear - Hl.
        repeat (rewrite length_app in * || cbn [length] in * ). lia.
    + intros z0 E. rewrite Ez in E.
      replace (t ++ x :: z ++ [y]) with ((t ++ x :: z) ++ [y]) in E
        by (rewrite <- app_assoc; reflexivity).
      apply app_inj_tail in E as [_ ->].
      destruct Hy as [Hy|Hy]; vm_compute in Hy; discriminate Hy.
  - unfold getSkuFromFilename. rewrite getSku_fuel_nocode by exact Hno2.
    replace (stem ++ x :: c_dot :: ext) with ((stem ++ [x]) ++ c_dot :: ext)
      by (rewrite <- app_assoc; reflexivity).
    rewrite baseName_dot by exact Hext.
    rewrite trim_plain_end by exact Hsp. rewrite Ht.
    rewrite replace_paren_unchanged.
    + rewrite stripLoop_plain_end by assumption.
      destruct (t ++ [x]) eqn:E; [|reflexivity]. now destruct t.
    + intros z0 E. apply app_inj_tail in E as [_ ->]. now apply Hrp.
Qed.

Lemma numbered_variant_same_key_witness :
  getSkuFromFilename (js "  img" ++ 103%N :: 45%N :: js "12" ++ c_dot
                        :: js "png")
  = dropWhile is_space (js "  img" ++ [103%N]) /\
  getSkuFromFilename (js "  img" ++ 103%N :: c_dot :: js "png")
  = dropWhile is_space (js "  img" ++ [103%N]).
Proof.
  apply (numbered_variant_same_key (js "  img") 103%N 45%N (js "12")
           (js "png")); try reflexivity.
  - discriminate.
  - cbv. intros H. repeat destruct H as [H|H]; try discriminate H. exact H.
Defined.

Ltac list_norm :=
  repeat first [rewrite <- app_assoc | progress cbn [app]].

Lemma dropWhile_suffix (p : char -> bool) (s : str) :
  exists pre, s = pre ++ dropWhile p s.
Proof.
  induction s as [|c s (pre & IH)]; simpl; [now exists []|].
  destruct (p c); [|now exists []].
  exists (c :: pre). cbn [app]. now rewrite <- IH.
Qed.

Lemma first_occurrence_unique (c : char) (a r a' r' : str) :
  ~ In c a -> ~ In c a' -> a ++ c :: r = a' ++ c :: r' -> a = a'.
Proof.
  intros Ha Ha' E.
  apply app_eq_app in E as (l & [[Hs E]|[Hs E]]); subst;
    (destruct l as [|c0 l]; [now rewrite app_nil_r|]);
    cbn [app] in E; injection E as Ec El; subst c0; exfalso.
  - apply Ha. apply in_or_app. right. now left.
  - apply Ha'. apply in_or_app. right. now left.
Qed.

Lemma plain_stem_key (stem : str) (x : char) (ext : str) :
  is_space x = false -> x <> c_rparen -> is_sep x = false ->
  is_digit x = false -> ~ In c_dot ext ->
  contains_sku_code (stem ++ x :: c_dot :: ext) = false ->
  getSkuFromFilename (stem ++ x :: c_dot :: ext)
  = dropWhile is_space (stem ++ [x]).
Proof.
  intros Hsp Hrp Hsep Hdig Hext Hno.
  destruct (dropWhile_keeps_last is_space stem x Hsp) as (t & Ht).
  unfold getSkuFromFilename. rewrite getSku_fuel_nocode by exact Hno.
  replace (stem ++ x :: c_dot :: ext) with ((stem ++ [x]) ++ c_dot :: ext)
    by (rewrite <- app_assoc; reflexivity).
  rewrite baseName_dot by exact Hext.
  rewrite trim_plain_end by exact Hsp. rewrite Ht.
  rewrite replace_paren_unchanged.
  - rewrite stripLoop_plain_end by assumption.
    destruct (t ++ [x]) eqn:E; [|reflexivity]. now destruct t.
  - intros z0 E. apply app_inj_tail in E as [_ ->]. now apply Hrp.
Qed.

(** X6. Parenthesized copies share a key, when neither name holds a
    6-5-3 code: if the stem has no [(] and ends in a character that is not
    white space, [)], [-], [_] or a digit, a name with a trailing [ (...)]
    before the extension has the same key as the name without it, namely
    the stem without its leading white space. (A code between the
    parentheses would be the key of the copy.) *)
Theorem parenthesized_copy_same_key (stem : str) (x : char)
    (ws body ext : str) :
  is_space x = false -> x <> c_rparen -> is_sep x = false ->
  is_digit x = false -> ~ In c_lparen (stem ++ [x]) ->
  forallb is_space ws = true -> forallb not_rparen body = true ->
  ~ In c_dot ext ->
  contains_sku_code
    (stem ++ x :: ws ++ c_lparen :: body ++ c_rparen :: c_dot :: ext)
  = false ->
  contains_sku_code (stem ++ x :: c_dot :: ext) = false ->
  getSkuFromFilename
    (stem ++ x :: ws ++ c_lparen :: body ++ c_rparen :: c_dot :: ext)
  = getSkuFromFilename (stem ++ x :: c_dot :: ext) /\
  getSkuFromFilename (stem ++ x :: c_dot :: ext)
  = dropWhile is_space (stem ++ [x]).
Proof.
  intros Hsp Hrp Hsep Hdig Hlp Hws Hbody Hext Hno1 Hno2.
  pose proof (plain_stem_key stem x ext Hsp Hrp Hsep Hdig Hext Hno2) as Hplain.
  split; [|exact Hplain]. rewrite Hplain.
  destruct (dropWhile_keeps_last is_space stem x Hsp) as (t & Ht).
  set (u := ws ++ c_lparen :: body ++ [c_rparen]).
  assert (Hu : paren_suffix u) by now exists ws, body.
  unfold getSkuFromFilename. rewrite getSku_fuel_nocode by exact Hno1.
  replace (stem ++ x :: ws ++ c_lparen :: body ++ c_rparen :: c_dot :: ext)
    with ((stem ++ x :: u) ++ c_dot :: ext).
  2:{ unfold u. list_norm. reflexivity. }
  rewrite baseName_dot by exact Hext.
  assert (Htrim : trim (stem ++ x :: u) = (t ++ [x]) ++ u).
  { replace (stem ++ x :: u)
      with ((stem ++ x :: ws ++ c_lparen :: body) ++ [c_rparen]).
    2:{ unfold u. list_norm. reflexivity. }
    rewrite trim_plain_end by reflexivity.
    replace ((stem ++ x :: ws ++ c_lparen :: body) ++ [c_rparen])
      with (stem ++ x :: u) by (unfold u; list_norm; reflexivity).
    rewrite dropWhile_app_plain by exact Hsp. now rewrite Ht. }
  assert (HnoT : ~ In c_lparen (t ++ [x])).
  { rewrite <- Ht. intros Hin.
    destruct (dropWhile_suffix is_space (stem ++ [x])) as (pre & Hpre).
    apply Hlp. rewrite Hpre. apply in_or_app. now right. }
  assert (Hnows : forall w, forallb is_space w = true -> ~ In c_lparen w).
  { intros w Hw Hin. rewrite forallb_forall in Hw.
    specialize (Hw _ Hin). discriminate Hw. }
  assert (Hstrip : strip_suffix paren_suffix ((t ++ [x]) ++ u) (t ++ [x])).
  { apply strip_longest; [exact Hu|].
    intros p' u' Heq (ws' & body' & -> & Hws' & _).
    apply app_eq_app in Heq as (l & [[HT Hu']|[-> _]]);
      [|rewrite !length_app; lia].
    destruct l as [|c0 l1]; [rewrite app_nil_r in HT; now rewrite HT|].
    destruct (exists_last (l := c0 :: l1)) as (l0 & y & El); [discriminate|].
    rewrite El in HT, Hu'. clear El c0 l1.
    exfalso. rewrite app_assoc in HT. apply app_inj_tail in HT as [HT Hy].
    subst y.
    assert (E : ws' ++ c_lparen :: body' ++ [c_rparen]
                = (l0 ++ x :: ws) ++ c_lparen :: body ++ [c_rparen]).
    { rewrite Hu'. unfold u. list_norm. reflexivity. }
    apply first_occurrence_unique in E.
    - rewrite E, !forallb_app in Hws'. cbn [forallb] in Hws'.
      rewrite Hsp in Hws'. cbn [andb] in Hws'.
      now rewrite andb_false_r in Hws'.
    - now apply Hnows.
    - intros Hin. apply in_app_or in Hin as [Hin|[Hin|Hin]].
      + apply HnoT. rewrite HT. apply in_or_app. left.
        apply in_or_app. now right.
      + apply HnoT. apply in_or_app. right. now left.
      + exact (Hnows ws Hws Hin). }
  rewrite Htrim.
  rewrite (strip_suffix_functional _ _ _ _
             (replace_anchored parenRegex paren_suffix match_paren_iff _)
             Hstrip).
  rewrite stripLoop_plain_end by assumption.
  rewrite Ht. now destruct t.
Qed.

Lemma parenthesized_copy_same_key_witness :
  getSkuFromFilename
    (js "produc" ++ 116%N :: js " " ++ c_lparen :: js "2" ++ c_rparen
       :: c_dot :: js "jpg")
  = getSkuFromFilename (js "produc" ++ 116%N :: c_dot :: js "jpg") /\
  getSkuFromFilename (js "produc" ++ 116%N :: c_dot :: js "jpg")
  = dropWhile is_space (js "produc" ++ [116%N]).
Proof.
  apply (parenthesized_copy_same_key (js "produc") 116%N (js " ") (js "2")
           (js "jpg")); try reflexivity.
  - discriminate.
  - cbv. intros H. repeat destruct H as [H|H]; try discriminate H. exact H.
  - cbv. intros H. repeat destruct H as [H|H]; try discriminate H. exact H.
Defined.


(** ** The store handlers on present keys *)

From Stdlib Require Import Permutation.

Lemma map_set_keys {V : Type} (m : JsMap V) (k : str) (v v0 : V) :
  map_get m k = Some v0 -> map fst (map_set m k v) = map fst m.
Proof.
  induction m as [|[k' v'] m IH]; simpl; [discriminate|].
  destruct (str_eqb k' k); simpl; [reflexivity|].
  intros H. now rewrite IH.
Qed.

Lemma map_set_delete_comm {V : Type} (m : JsMap V) (a b : str) (v : V) :
  a <> b -> map_set (map_delete m a) b v = map_delete (map_set m b v) a.
Proof.
  intros Hab. induction m as [|[k0 v0] m IH]; simpl.
  - assert (E : str_eqb b a = false)
      by (apply str_eqb_neq; congruence).
    now rewrite E.
  - destruct (str_eqb k0 a) eqn:Ea; destruct (str_eqb k0 b) eqn:Eb; simpl;
      rewrite ?Ea, ?Eb; try rewrite IH; try reflexivity.
    apply str_eqb_eq in Ea, Eb. congruence.
Qed.

Lemma splice_insert_length (a : list slot) (n : nat) (x : slot) :
  length (splice_insert a n x) = S (length a).
Proof.
  unfold splice_insert. rewrite length_app. cbn [length].
  rewrite <- (firstn_skipn n a) at 3. rewrite length_app. lia.
Qed.

Lemma splice_insert_nth (a : list slot) (n : nat) (x : slot) :
  nth_error (splice_insert a n x) (Nat.min n (length a)) = Some x.
Proof.
  unfold splice_insert.
  rewrite nth_error_app2; rewrite length_firstn; [|lia].
  now rewrite Nat.sub_diag.
Qed.

Lemma splice_insert_before (a : list slot) (n j : nat) (x : slot) :
  j < n -> j < length a ->
  nth_error (splice_insert a n x) j = nth_error a j.
Proof.
  intros Hj Hl. unfold splice_insert.
  rewrite nth_error_app1 by (rewrite length_firstn; lia).
  rewrite nth_error_firstn.
  destruct (Nat.ltb_spec j n); [reflexivity|lia].
Qed.

Lemma splice_insert_after (a : list slot) (n j : nat) (x : slot) :
  n <= j -> n <= length a ->
  nth_error (splice_insert a n x) (S j) = nth_error a j.
Proof.
  intros Hj Hl. unfold splice_insert.
  rewrite nth_error_app2; rewrite length_firstn, Nat.min_l by lia; [|lia].
  replace (S j - n) with (S (j - n)) by lia. cbn [nth_error].
  rewrite nth_error_skipn. f_equal. lia.
Qed.

(** X7. Duplicating the defined item at [index] never throws and revokes
    nothing; the group gains exactly one item, the copy, right after the
    original: same payload, URL and prefix, the next UUID as id; the items
    before keep their place, those after move by one; keys, key order and
    the other groups are unchanged. *)
Theorem handleDuplicateImage_spec (sku : str) (index : nat) (prev : Store)
    (g : list slot) (img : OrganizedImage) (b : Browser) :
  map_get prev sku = Some g -> nth_error g index = Some (Some img) ->
  exists (s' : Store) (b' : Browser) (g' : list slot),
    handleDuplicateImage sku index prev b = (Ok s', b') /\
    revoked b' = revoked b /\
    map fst s' = map fst prev /\
    (forall k, k <> sku -> map_get s' k = map_get prev k) /\
    map_get s' sku = Some g' /\
    length g' = S (length g) /\
    nth_error g' (index + 1)
    = Some (Some {| id := uuids b 0; file := file img; url := url img;
                    prefix := prefix img |}) /\
    (forall j, j <= index -> nth_error g' j = nth_error g j) /\
    (forall j, index < j -> nth_error g' (S j) = nth_error g j).
Proof.
  intros Hg Hnth.
  assert (Hlen : index < length g) by (apply nth_error_Some; congruence).
  unfold handleDuplicateImage. rewrite Hg, Hnth.
  unfold bind, randomUUID, ret.
  eexists _, _, _. split; [reflexivity|]. cbn [revoked uuids].
  split; [reflexivity|].
  split; [exact (map_set_keys _ _ _ _ Hg)|].
  split; [intros k Hk; now apply map_get_set_other|].
  split; [apply map_get_set_same|].
  split; [apply splice_insert_length|].
  split.
  - pose proof (splice_insert_nth g (index + 1)
                  (Some {| id := uuids b 0; file := file img;
                           url := url img; prefix := prefix img |})) as H.
    now rewrite Nat.min_l in H by lia.
  - split.
    + intros j Hj. apply splice_insert_before; lia.
    + intros j Hj. apply splice_insert_after; lia.
Qed.

Lemma handleDuplicateImage_spec_witness :
  let x := {| id := js "i1"; file := {| name := js "a.png"; blob := 1 |};
              url := js "blob:1"; prefix := Some (js "eci") |} in
  let prev : Store := [(js "A", [Some x])] in
  let b := {| uuids := fun n => Number_toString n;
              objectUrls := fun n => Number_toString n; revoked := [] |} in
  exists (s' : Store) (b' : Browser) (g' : list slot),
    handleDuplicateImage (js "A") 0 prev b = (Ok s', b') /\
    revoked b' = revoked b /\
    map fst s' = map fst prev /\
    (forall k, k <> js "A" -> map_get s' k = map_get prev k) /\
    map_get s' (js "A") = Some g' /\
    length g' = S (length [Some x]) /\
    nth_error g' (0 + 1)
    = Some (Some {| id := uuids b 0; file := file x; url := url x;
                    prefix := prefix x |}) /\
    (forall j, j <= 0 -> nth_error g' j = nth_error [Some x] j) /\
    (forall j, 0 < j -> nth_error g' (S j) = nth_error [Some x] j).
Proof.
  intros x prev b.
  exact (handleDuplicateImage_spec (js "A") 0 prev [Some x] x b
           eq_refl eq_refl).
Defined.

(** X8. Duplicating an item and then deleting the copy gives back the
    store as it was; it also revokes the preview URL the original still
    uses. *)
Theorem duplicate_then_delete_copy_restores (prev : Store) (sku : str)
    (imgs : list OrganizedImage) (index : nat) (img : OrganizedImage)
    (b : Browser) :
  map_get prev sku = Some (map Some imgs) ->
  nth_error imgs index = Some img ->
  ~ In (uuids b 0) (map id imgs) ->
  exists (s1 : Store) (b1 b2 : Browser),
    handleDuplicateImage sku index prev b = (Ok s1, b1) /\
    handleDeleteImage sku (uuids b 0) s1 b1 = (Ok prev, b2) /\
    revoked b2 = revoked b ++ [url img].
Proof.
  intros Hg Hnth Hfresh.
  set (copy := {| id := uuids b 0; file := file img; url := url img;
                  prefix := prefix img |}).
  set (imgs1 := firstn (index + 1) imgs ++ copy :: skipn (index + 1) imgs).
  destruct (handleDuplicateImage_defined sku index prev imgs img b Hg Hnth)
    as (b1 & Hdup & Hrev1 & _).
  fold copy in Hdup. fold imgs1 in Hdup.
  destruct (handleDeleteImage_defined sku (uuids b 0)
              (map_set prev sku (map Some imgs1)) imgs1 b1
              (map_get_set_same _ _ _)) as (b2 & Hdel & Hrev2).
  assert (Hf1 : ~ In (uuids b 0) (map id (firstn (index + 1) imgs))).
  { intros H. apply Hfresh. rewrite <- (firstn_skipn (index + 1) imgs).
    rewrite map_app. apply in_or_app. now left. }
  assert (Hf2 : ~ In (uuids b 0) (map id (skipn (index + 1) imgs))).
  { intros H. apply Hfresh. rewrite <- (firstn_skipn (index + 1) imgs).
    rewrite map_app. apply in_or_app. now right. }
  assert (Hkept : filter (fun i => negb (str_eqb (id i) (uuids b 0))) imgs1
                  = imgs).
  { unfold imgs1. rewrite filter_app. cbn [filter id copy].
    rewrite str_eqb_refl. cbn [negb].
    rewrite !filter_all_other by assumption. apply firstn_skipn. }
  assert (Hfind : find (fun i => str_eqb (id i) (uuids b 0)) imgs1
                  = Some copy)
    by (apply find_app_fresh; [exact Hf1|reflexivity]).
  rewrite Hfind, Hrev1 in Hrev2. cbv zeta in Hdel. rewrite Hkept in Hdel.
  assert (Hpos : (0 <? length imgs) = true).
  { destruct imgs; [destruct index; discriminate Hnth|reflexivity]. }
  rewrite Hpos, map_set_set, (map_set_same_value _ _ _ Hg) in Hdel.
  now exists (map_set prev sku (map Some imgs1)), b1, b2.
Qed.

Lemma duplicate_then_delete_copy_restores_witness :
  let x := {| id := js "i1"; file := {| name := js "a.png"; blob := 1 |};
              url := js "blob:1"; prefix := None |} in
  let y := {| id := js "i2"; file := {| name := js "b.png"; blob := 2 |};
              url := js "blob:2"; prefix := None |} in
  let prev : Store := [(js "A", map Some [x; y])] in
  let b := {| uuids := fun n => Number_toString n;
              objectUrls := fun n => Number_toString n; revoked := [] |} in
  exists (s1 : Store) (b1 b2 : Browser),
    handleDuplicateImage (js "A") 0 prev b = (Ok s1, b1) /\
    handleDeleteImage (js "A") (uuids b 0) s1 b1 = (Ok prev, b2) /\
    revoked b2 = revoked b ++ [url x].
Proof.
  intros x y prev b.
  apply (duplicate_then_delete_copy_restores prev (js "A") [x; y] 0 x b);
    try reflexivity.
  intros [H|[H|[]]]; vm_compute in H; discriminate H.
Defined.

Lemma filter_unique_id (imgs : list OrganizedImage) (i : nat)
    (img : OrganizedImage) :
  NoDup (map id imgs) -> nth_error imgs i = Some img ->
  filter (fun x => negb (str_eqb (id x) (id img))) imgs
  = firstn i imgs ++ skipn (S i) imgs.
Proof.
  revert i. induction imgs as [|y imgs IH]; intros [|i] Hnd Hnth;
    try discriminate Hnth; cbn [map] in Hnd;
    apply NoDup_cons_iff in Hnd as [Hy Hnd]; cbn [nth_error] in Hnth.
  - injection Hnth as ->. cbn [filter firstn skipn app].
    rewrite str_eqb_refl. cbn [negb]. now apply filter_all_other.
  - cbn [filter firstn skipn app].
    assert (E : str_eqb (id y) (id img) = false).
    { apply str_eqb_neq. intros E. apply Hy. rewrite E.
      apply in_map. now apply nth_error_In in Hnth. }
    rewrite E. cbn [negb]. f_equal. now apply IH.
Qed.

(** X9. Deleting an item by its id, in a group whose ids are distinct,
    removes that item and no other: the rest of the group keeps its order,
    the group disappears when it had only this item, the other groups are
    untouched, and exactly the URL of the removed item is revoked. *)
Theorem handleDeleteImage_spec (sku : str) (prev : Store)
    (imgs : list OrganizedImage) (i : nat) (img : OrganizedImage)
    (b : Browser) :
  map_get prev sku = Some (map Some imgs) ->
  NoDup (map id imgs) -> nth_error imgs i = Some img ->
  exists (s' : Store) (b' : Browser),
    handleDeleteImage sku (id img) prev b = (Ok s', b') /\
    revoked b' = revoked b ++ [url img] /\
    (forall k, k <> sku -> map_get s' k = map_get prev k) /\
    map_get s' sku
    = match firstn i imgs ++ skipn (S i) imgs with
      | [] => None
      | rest => Some (map Some rest)
      end.
Proof.
  intros Hg Hnd Hnth.
  destruct (handleDeleteImage_defined sku (id img) prev imgs b Hg)
    as (b' & Hdel & Hrev).
  rewrite (find_by_unique_id imgs img Hnd (nth_error_In _ _ Hnth)) in Hrev.
  cbv zeta in Hdel. rewrite (filter_unique_id imgs i img Hnd Hnth) in Hdel.
  eexists _, b'. split; [exact Hdel|]. split; [exact Hrev|].
  destruct (firstn i imgs ++ skipn (S i) imgs) as [|r rest];
    cbn [length Nat.ltb Nat.leb].
  - split; [intros k Hk; now apply map_get_delete_other|].
    apply map_get_delete_same.
  - split; [intros k Hk; now apply map_get_set_other|].
    apply map_get_set_same.
Qed.

Lemma handleDeleteImage_spec_witness :
  let x := {| id := js "i1"; file := {| name := js "a.png"; blob := 1 |};
              url := js "blob:1"; prefix := None |} in
  let y := {| id := js "i2"; file := {| name := js "b.png"; blob := 2 |};
              url := js "blob:2"; prefix := None |} in
  let prev : Store := [(js "A", map Some [x; y])] in
  let b := {| uuids := fun n => Number_toString n;
              objectUrls := fun n => Number_toString n; revoked := [] |} in
  exists (s' : Store) (b' : Browser),
    handleDeleteImage (js "A") (id y) prev b = (Ok s', b') /\
    revoked b' = revoked b ++ [url y] /\
    (forall k, k <> js "A" -> map_get s' k = map_get prev k) /\
    map_get s' (js "A") = Some (map Some [x]).
Proof.
  intros x y prev b.
  apply (handleDeleteImage_spec (js "A") prev [x; y] 1 y b);
    try reflexivity.
  apply NoDup_cons; [|apply NoDup_cons; [intros []|apply NoDup_nil]].
  intros [H|[]]. discriminate H.
Defined.

(** X10. Deleting a group, once confirmed, removes its key, revokes the
    URL of each of its items in order and leaves the other groups alone;
    when the confirmation is declined neither the store nor the browser
    changes. *)
Theorem handleDeleteGroup_spec (sku : str) (prev : Store)
    (imgs : list OrganizedImage) (b : Browser) :
  map_get prev sku = Some (map Some imgs) ->
  (exists b',
      handleDeleteGroup true sku prev b = (Ok (map_delete prev sku), b') /\
      revoked b' = revoked b ++ map url imgs) /\
  map_get (map_delete prev sku) sku = None /\
  (forall k, k <> sku -> map_get (map_delete prev sku) k = map_get prev k) /\
  handleDeleteGroup false sku prev b = (Ok prev, b).
Proof.
  intros Hg. split; [|split; [|split]].
  - unfold handleDeleteGroup. rewrite Hg. unfold bind.
    destruct (forEach_revoke_defined imgs b) as (b' & Hrun & Hrev).
    rewrite Hrun. now exists b'.
  - apply map_get_delete_same.
  - intros k Hk. now apply map_get_delete_other.
  - reflexivity.
Qed.

Lemma handleDeleteGroup_spec_witness :
  let x := {| id := js "i1"; file := {| name := js "a.png"; blob := 1 |};
              url := js "blob:1"; prefix := None |} in
  let prev : Store := [(js "A", map Some [x])] in
  let b := {| uuids := fun n => Number_toString n;
              objectUrls := fun n => Number_toString n; revoked := [] |} in
  exists b',
    handleDeleteGroup true (js "A") prev b = (Ok (map_delete prev (js "A")), b')
    /\ revoked b' = revoked b ++ map url [x].
Proof.
  intros x prev b.
  exact (proj1 (handleDeleteGroup_spec (js "A") prev [x] b eq_refl)).
Defined.

Lemma array_map_defined (v p : str) (imgs : list OrganizedImage)
    (b : Browser) :
  array_map
    (fun img =>
       same <- id_is v img ;;
       match (same : bool), img with
       | true, Some i =>
           ret (Some {| id := id i; file := file i; url := url i;
                        prefix := Some p |})
       | _, _ => ret img
       end)
    (map Some imgs) b
  = (Ok (map Some
           (map (fun i =>
                   if str_eqb (id i) v
                   then {| id := id i; file := file i; url := url i;
                           prefix := Some p |}
                   else i) imgs)), b).
Proof.
  match goal with |- array_map ?f _ _ = _ => set (F := f) end.
  induction imgs as [|i imgs IH]; [reflexivity|].
  assert (HF : F (Some i) b
               = (Ok (Some (if str_eqb (id i) v
                            then {| id := id i; file := file i; url := url i;
                                    prefix := Some p |}
                            else i)), b)).
  { unfold F, bind, id_is, ret. now destruct (str_eqb (id i) v). }
  cbn [map array_map]. unfold bind at 1. rewrite HF.
  unfold bind at 1. now rewrite IH.
Qed.

Lemma map_unique_id (imgs : list OrganizedImage) (i : nat)
    (img : OrganizedImage) (f : OrganizedImage -> OrganizedImage) :
  NoDup (map id imgs) -> nth_error imgs i = Some img ->
  map (fun x => if str_eqb (id x) (id img) then f x else x) imgs
  = firstn i imgs ++ f img :: skipn (S i) imgs.
Proof.
  revert i. induction imgs as [|y imgs IH]; intros [|i] Hnd Hnth;
    try discriminate Hnth; cbn [map] in Hnd;
    apply NoDup_cons_iff in Hnd as [Hy Hnd]; cbn [nth_error] in Hnth.
  - injection Hnth as ->. cbn [map firstn skipn app].
    rewrite str_eqb_refl. f_equal.
    rewrite <- (map_id imgs) at 2. apply map_ext_in. intros x Hx.
    assert (E : str_eqb (id x) (id img) = false).
    { apply str_eqb_neq. intros E. apply Hy. rewrite <- E. now apply in_map. }
    now rewrite E.
  - cbn [map firstn skipn app].
    assert (E : str_eqb (id y) (id img) = false).
    { apply str_eqb_neq. intros E. apply Hy. rewrite E.
      apply in_map. now apply nth_error_In in Hnth. }
    rewrite E. f_equal. now apply IH.
Qed.

Lemma handleImagePrefixChange_run (sku newPrefix : str) (prev : Store)
    (imgs : list OrganizedImage) (i : nat) (img : OrganizedImage)
    (b : Browser) :
  map_get prev sku = Some (map Some imgs) ->
  NoDup (map id imgs) -> nth_error imgs i = Some img ->
  handleImagePrefixChange sku (id img) newPrefix prev b
  = (Ok (map_set prev sku
           (map Some
              (firstn i imgs
               ++ {| id := id img; file := file img; url := url img;
                     prefix := Some newPrefix |} :: skipn (S i) imgs))), b).
Proof.
  intros Hg Hnd Hnth. unfold handleImagePrefixChange. rewrite Hg.
  unfold bind at 1. rewrite array_map_defined. unfold ret.
  now rewrite (map_unique_id imgs i img
                 (fun x => {| id := id x; file := file x; url := url x;
                              prefix := Some newPrefix |}) Hnd Hnth).
Qed.

(** X11. Setting the prefix of an item, in a group whose ids are distinct,
    changes that one field of that one item: id, payload and URL stay, the
    other items, their order, the other groups and the key order stay, and
    no URL is revoked. The prefix is then present even when the string
    given is empty. *)
Theorem handleImagePrefixChange_spec (sku newPrefix : str) (prev : Store)
    (imgs : list OrganizedImage) (i : nat) (img : OrganizedImage)
    (b : Browser) :
  map_get prev sku = Some (map Some imgs) ->
  NoDup (map id imgs) -> nth_error imgs i = Some img ->
  exists s' : Store,
    handleImagePrefixChange sku (id img) newPrefix prev b = (Ok s', b) /\
    map fst s' = map fst prev /\
    (forall k, k <> sku -> map_get s' k = map_get prev k) /\
    map_get s' sku
    = Some (map Some
              (firstn i imgs
               ++ {| id := id img; file := file img; url := url img;
                     prefix := Some newPrefix |} :: skipn (S i) imgs)).
Proof.
  intros Hg Hnd Hnth.
  rewrite (handleImagePrefixChange_run sku newPrefix prev imgs i img b
             Hg Hnd Hnth).
  eexists. split; [reflexivity|].
  split; [exact (map_set_keys _ _ _ _ Hg)|].
  split; [intros k Hk; now apply map_get_set_other|].
  apply map_get_set_same.
Qed.

Lemma handleImagePrefixChange_spec_witness :
  let x := {| id := js "i1"; file := {| name := js "a.png"; blob := 1 |};
              url := js "blob:1"; prefix := None |} in
  let prev : Store := [(js "A", map Some [x])] in
  let b := {| uuids := fun n => Number_toString n;
              objectUrls := fun n => Number_toString n; revoked := [] |} in
  exists s' : Store,
    handleImagePrefixChange (js "A") (id x) (js "") prev b = (Ok s', b) /\
    map fst s' = map fst prev /\
    (forall k, k <> js "A" -> map_get s' k = map_get prev k) /\
    map_get s' (js "A")
    = Some (map Some
              [{| id := id x; file := file x; url := url x;
                  prefix := Some (js "") |}]).
Proof.
  intros x prev b.
  apply (handleImagePrefixChange_spec (js "A") (js "") prev [x] 0 x b);
    try reflexivity.
  apply NoDup_cons; [intros []|apply NoDup_nil].
Defined.

(** X12. Once the prefix of an item has been set, the export names it by
    that prefix, trimmed, whatever the global prefix; setting it to an
    empty or blank string (clearing the input) exports the item with no
    prefix at all, not with the global one. *)
Theorem prefix_change_then_export (sku newPrefix filenamePrefix : str)
    (prev : Store) (imgs : list OrganizedImage) (i : nat)
    (img : OrganizedImage) (b : Browser) :
  map_get prev sku = Some (map Some imgs) ->
  NoDup (map id imgs) -> nth_error imgs i = Some img ->
  exists (s' : Store) (group : list slot) (calls : list (str * File)),
    handleImagePrefixChange sku (id img) newPrefix prev b = (Ok s', b) /\
    map_get s' sku = Some group /\
    handleDownloadSingleFolder false filenamePrefix group = Some (Ok calls) /\
    nth_error calls i
    = Some (match trim newPrefix with
            | [] => Number_toString (i + 1) ++ js "-" ++ name (file img)
            | _ :: _ =>
                Number_toString (i + 1) ++ js "-" ++ trim newPrefix
                  ++ js "-" ++ name (file img)
            end, file img).
Proof.
  intros Hg Hnd Hnth.
  set (img' := {| id := id img; file := file img; url := url img;
                  prefix := Some newPrefix |}).
  set (imgs' := firstn i imgs ++ img' :: skipn (S i) imgs).
  assert (Hi : i < length imgs) by (apply nth_error_Some; congruence).
  assert (Hnth' : nth_error imgs' i = Some img').
  { unfold imgs'.
    rewrite nth_error_app2; rewrite length_firstn, Nat.min_l by lia; [|lia].
    now rewrite Nat.sub_diag. }
  destruct (fileCalls_defined filenamePrefix imgs' 0)
    as (calls & Hcalls & _ & Hcall).
  exists (map_set prev sku (map Some imgs')), (map Some imgs'), calls.
  split; [exact (handleImagePrefixChange_run sku newPrefix prev imgs i img b
                   Hg Hnd Hnth)|].
  split; [apply map_get_set_same|].
  split; [unfold handleDownloadSingleFolder; now rewrite Hcalls|].
  rewrite (Hcall _ _ Hnth'). unfold newFilename, img'. cbn [prefix file plus].
  destruct (trim newPrefix); reflexivity.
Qed.

Lemma prefix_change_then_export_witness :
  let x := {| id := js "i1"; file := {| name := js "a.png"; blob := 1 |};
              url := js "blob:1"; prefix := None |} in
  let prev : Store := [(js "A", map Some [x])] in
  let b := {| uuids := fun n => Number_toString n;
              objectUrls := fun n => Number_toString n; revoked := [] |} in
  exists (s' : Store) (group : list slot) (calls : list (str * File)),
    handleImagePrefixChange (js "A") (id x) (js " ") prev b = (Ok s', b) /\
    map_get s' (js "A") = Some group /\
    handleDownloadSingleFolder false (js "eci") group = Some (Ok calls) /\
    nth_error calls 0 = Some (js "1-a.png", file x).
Proof.
  intros x prev b.
  apply (prefix_change_then_export (js "A") (js " ") (js "eci") prev [x] 0 x
           b); try reflexivity.
  apply NoDup_cons; [intros []|apply NoDup_nil].
Defined.

(** *** Dragging items *)

Lemma cut_length {A : Type} (g : list A) (i : nat) :
  i < length g -> length (firstn i g ++ skipn (S i) g) = length g - 1.
Proof.
  intros H. rewrite length_app, length_firstn, length_skipn. lia.
Qed.

Lemma cut_insert_same {A : Type} (g : list A) (i : nat) (x : A) :
  nth_error g i = Some x ->
  firstn i (firstn i g ++ skipn (S i) g)
    ++ x :: skipn i (firstn i g ++ skipn (S i) g) = g.
Proof.
  revert i. induction g as [|y g IH]; intros [|i] H; try discriminate H.
  - cbn in H. injection H as ->. reflexivity.
  - cbn [nth_error] in H.
    change (firstn (S i) (y :: g) ++ skipn (S (S i)) (y :: g))
      with (y :: (firstn i g ++ skipn (S i) g)).
    cbn [firstn skipn app]. f_equal. now apply IH.
Qed.

Lemma splice_remove_present (g : list slot) (i : nat) (x : slot) :
  nth_error g i = Some x ->
  splice_remove g i = (firstn i g ++ skipn (S i) g, x).
Proof. intros H. unfold splice_remove. now rewrite H. Qed.

(** X13. Dropping an item of a group inside the same group, from a valid
    position, permutes the group: same items, same number of them, the
    dragged one now at the target position (the last position when the
    target is past the end); the keys, their order and the other groups
    stay; dropping it where it was changes nothing. *)
Theorem handleDropReorder_within (sku : str) (i t : nat) (prev : Store)
    (g : list slot) (x : slot) :
  map_get prev sku = Some g -> nth_error g i = Some x ->
  exists g' : list slot,
    map_get (handleDropReorder (Some (sku, i)) sku t prev) sku = Some g' /\
    Permutation g g' /\ length g' = length g /\
    nth_error g' (Nat.min t (length g - 1)) = Some x /\
    map fst (handleDropReorder (Some (sku, i)) sku t prev) = map fst prev /\
    (forall k, k <> sku ->
               map_get (handleDropReorder (Some (sku, i)) sku t prev) k
               = map_get prev k) /\
    handleDropReorder (Some (sku, i)) sku i prev = prev.
Proof.
  intros Hg Hnth.
  assert (Hi : i < length g) by (apply nth_error_Some; congruence).
  assert (Hrun : forall t',
             handleDropReorder (Some (sku, i)) sku t' prev
             = map_set prev sku
                 (splice_insert (firstn i g ++ skipn (S i) g) t' x)).
  { intros t'. unfold handleDropReorder.
    rewrite Hg, (splice_remove_present _ _ _ Hnth). now rewrite str_eqb_refl. }
  exists (splice_insert (firstn i g ++ skipn (S i) g) t x).
  rewrite !Hrun.
  split; [apply map_get_set_same|].
  split.
  { rewrite (nth_error_cut g i x Hnth) at 1. unfold splice_insert.
    etransitivity; [symmetry; apply Permutation_middle|].
    etransitivity; [|apply Permutation_middle].
    apply perm_skip.
    now rewrite firstn_skipn. }
  split; [rewrite splice_insert_length, cut_length by exact Hi; lia|].
  split.
  { rewrite <- (cut_length g i Hi). apply splice_insert_nth. }
  split; [exact (map_set_keys _ _ _ _ Hg)|].
  split; [intros k Hk; now apply map_get_set_other|].
  apply map_set_same_value. rewrite Hg. f_equal.
  unfold splice_insert. symmetry. now apply cut_insert_same.
Qed.

Lemma handleDropReorder_within_witness :
  let x := Some {| id := js "i1"; file := {| name := js "a.png"; blob := 1 |};
                   url := js "blob:1"; prefix := None |} in
  let y := Some {| id := js "i2"; file := {| name := js "b.png"; blob := 2 |};
                   url := js "blob:2"; prefix := None |} in
  let prev : Store := [(js "A", [x; y])] in
  exists g' : list slot,
    map_get (handleDropReorder (Some (js "A", 0)) (js "A") 2 prev) (js "A")
    = Some g' /\
    Permutation [x; y] g' /\ length g' = 2 /\
    nth_error g' 1 = Some x.
Proof.
  intros x y prev.
  destruct (handleDropReorder_within (js "A") 0 2 prev [x; y] x
              eq_refl eq_refl) as (g' & H1 & H2 & H3 & H4 & _).
  now exists g'.
Defined.

(** X14. Dropping an item of one group into another group removes it from
    the first and inserts it in the second at the target position (at the
    end when the target is past it, in a new group when the second did not
    exist); the first group disappears when this was its only item; the
    other groups are unchanged. *)
Theorem handleDropReorder_across (source target : str) (i t : nat)
    (prev : Store) (g : list slot) (x : slot) :
  source <> target ->
  map_get prev source = Some g -> nth_error g i = Some x ->
  let next := handleDropReorder (Some (source, i)) target t prev in
  let old := match map_get prev target with Some o => o | None => [] end in
  map_get next target = Some (firstn t old ++ x :: skipn t old) /\
  nth_error (firstn t old ++ x :: skipn t old) (Nat.min t (length old))
  = Some x /\
  map_get next source
  = match firstn i g ++ skipn (S i) g with
    | [] => None
    | rest => Some rest
    end /\
  (forall k, k <> source -> k <> target -> map_get next k = map_get prev k).
Proof.
  intros Hne Hg Hnth next old.
  assert (Hrun : next
                 = let m := map_set prev target (splice_insert old t x) in
                   if length (firstn i g ++ skipn (S i) g) =? 0
                   then map_delete m source
                   else map_set m source (firstn i g ++ skipn (S i) g)).
  { unfold next, handleDropReorder.
    rewrite Hg, (splice_remove_present _ _ _ Hnth).
    apply str_eqb_neq in Hne. now rewrite Hne. }
  rewrite Hrun. cbv zeta.
  split.
  { destruct (length _ =? 0).
    - rewrite map_get_delete_other by exact Hne. apply map_get_set_same.
    - rewrite map_get_set_other by exact Hne. apply map_get_set_same. }
  split; [apply (splice_insert_nth old t x)|].
  split.
  { destruct (firstn i g ++ skipn (S i) g) as [|r rest];
      cbn [length Nat.eqb].
    - apply map_get_delete_same.
    - apply map_get_set_same. }
  intros k Hks Hkt.
  destruct (length _ =? 0).
  - rewrite map_get_delete_other by congruence.
    now rewrite map_get_set_other by congruence.
  - rewrite map_get_set_other by congruence.
    now rewrite map_get_set_other by congruence.
Qed.

Lemma handleDropReorder_across_witness :
  let x := Some {| id := js "i1"; file := {| name := js "a.png"; blob := 1 |};
                   url := js "blob:1"; prefix := None |} in
  let y := Some {| id := js "i2"; file := {| name := js "b.png"; blob := 2 |};
                   url := js "blob:2"; prefix := None |} in
  let prev : Store := [(js "X", [x]); (js "Y", [y])] in
  map_get (handleDropReorder (Some (js "X", 0)) (js "Y") 0 prev) (js "Y")
  = Some [x; y] /\
  map_get (handleDropReorder (Some (js "X", 0)) (js "Y") 0 prev) (js "X")
  = None.
Proof.
  intros x y prev.
  assert (Hne : js "X" <> js "Y") by discriminate.
  destruct (handleDropReorder_across (js "X") (js "Y") 0 0 prev [x] x
              Hne eq_refl eq_refl) as (H1 & _ & H2 & _).
  split; [exact H1|exact H2].
Defined.

Lemma all_defined_get (s : Store) (k : str) (g : list slot) :
  all_defined s = true -> map_get s k = Some g ->
  forallb is_defined g = true.
Proof.
  induction s as [|[k' g'] s IH]; cbn [all_defined forallb snd map_get];
    [discriminate|].
  intros H. apply andb_true_iff in H as [Hg' Hs].
  destruct (str_eqb k' k); [|now apply IH].
  intros E. now injection E as <-.
Qed.

Lemma all_defined_set (s : Store) (k : str) (g : list slot) :
  all_defined s = true -> forallb is_defined g = true ->
  all_defined (map_set s k g) = true.
Proof.
  intros Hs Hg. induction s as [|[k' g'] s IH];
    cbn [all_defined forallb snd map_set] in *.
  - now rewrite Hg.
  - apply andb_true_iff in Hs as [Hg' Hs].
    destruct (str_eqb k' k); cbn [forallb snd].
    + now rewrite Hg.
    + rewrite Hg'. now apply IH.
Qed.

Lemma all_defined_delete (s : Store) (k : str) :
  all_defined s = true -> all_defined (map_delete s k) = true.
Proof.
  intros Hs. induction s as [|[k' g'] s IH];
    cbn [all_defined forallb snd map_delete] in *; [reflexivity|].
  apply andb_true_iff in Hs as [Hg' Hs].
  destruct (str_eqb k' k); cbn [forallb snd]; [now apply IH|].
  rewrite Hg'. now apply IH.
Qed.

(** X15. A drop whose dragged item exists (its group is in the store and
    its index is within the group) never puts [undefined] in a store that
    had none, wherever it is dropped. *)
Theorem handleDropReorder_keeps_defined (source target : str) (i t : nat)
    (prev : Store) (g : list slot) :
  all_defined prev = true ->
  map_get prev source = Some g -> i < length g ->
  all_defined (handleDropReorder (Some (source, i)) target t prev) = true.
Proof.
  intros Hdef Hg Hi.
  pose proof (all_defined_get _ _ _ Hdef Hg) as Hgd.
  destruct (nth_error g i) as [x|] eqn:Hnth;
    [|apply nth_error_None in Hnth; lia].
  assert (Hx : is_defined x = true).
  { rewrite forallb_forall in Hgd. apply Hgd.
    now apply nth_error_In in Hnth. }
  assert (Hrest : forallb is_defined (firstn i g ++ skipn (S i) g) = true).
  { rewrite (nth_error_cut g i x Hnth), forallb_app in Hgd.
    cbn [forallb] in Hgd. apply andb_true_iff in Hgd as [H1 H2].
    apply andb_true_iff in H2 as [_ H2].
    now rewrite forallb_app, H1, H2. }
  assert (Hins : forall a n, forallb is_defined a = true ->
                             forallb is_defined (splice_insert a n x) = true).
  { intros a n Ha. unfold splice_insert.
    rewrite <- (firstn_skipn n a), forallb_app in Ha.
    apply andb_true_iff in Ha as [H1 H2].
    rewrite forallb_app. cbn [forallb]. now rewrite H1, Hx, H2. }
  unfold handleDropReorder.
  rewrite Hg, (splice_remove_present _ _ _ Hnth).
  destruct (str_eqb source target).
  - apply all_defined_set; [exact Hdef|now apply Hins].
  - assert (Ht : forallb is_defined
                   match map_get prev target with
                   | Some o => o
                   | None => []
                   end = true).
    { destruct (map_get prev target) as [o|] eqn:Eo; [|reflexivity].
      exact (all_defined_get _ _ _ Hdef Eo). }
    destruct (length _ =? 0).
    + apply all_defined_delete, all_defined_set; [exact Hdef|now apply Hins].
    + apply all_defined_set; [|exact Hrest].
      apply all_defined_set; [exact Hdef|now apply Hins].
Qed.

Lemma handleDropReorder_keeps_defined_witness :
  let x := Some {| id := js "i1"; file := {| name := js "a.png"; blob := 1 |};
                   url := js "blob:1"; prefix := None |} in
  let prev : Store := [(js "X", [x])] in
  all_defined (handleDropReorder (Some (js "X", 0)) (js "Y") 5 prev) = true.
Proof.
  intros x prev.
  apply (handleDropReorder_keeps_defined (js "X") (js "Y") 0 5 prev [x]);
    [reflexivity|reflexivity|simpl; lia].
Defined.

(** *** Merging groups *)

(** X16. Dropping group [a] on group [b] is the same store transformation
    as renaming [a] to [b], for any two distinct non-empty keys, present or
    not; when both groups exist, [b] keeps its place in the key order and
    holds its items followed by those of [a], and [a] is gone. *)
Theorem handleGroupDrop_is_rename (a b : str) (prev : Store) :
  a <> b -> a <> [] -> b <> [] ->
  handleGroupDrop (Some a) b prev = handleSkuChange a b prev /\
  (forall itemsA itemsB,
      map_get prev a = Some itemsA -> map_get prev b = Some itemsB ->
      map_get (handleGroupDrop (Some a) b prev) b = Some (itemsB ++ itemsA) /\
      map_get (handleGroupDrop (Some a) b prev) a = None /\
      map fst (handleGroupDrop (Some a) b prev)
      = filter (fun k => negb (str_eqb k a)) (map fst prev)).
Proof.
  intros Hab Ha Hb.
  assert (Hrun : handleGroupDrop (Some a) b prev
                 = map_delete
                     (map_set prev b
                        (match map_get prev b with Some g => g | None => [] end
                         ++ match map_get prev a with
                            | Some g => g
                            | None => []
                            end)) a).
  { unfold handleGroupDrop. apply str_eqb_neq in Hab. rewrite Hab.
    destruct a; [contradiction|reflexivity]. }
  split.
  - rewrite Hrun. unfold handleSkuChange.
    assert (E : str_eqb a b = false) by now apply str_eqb_neq.
    rewrite E. destruct b as [|c0 b0]; [contradiction|]. cbn [truthy negb orb].
    unfold map_has. rewrite map_get_delete_other by exact Hab.
    destruct (map_get prev (c0 :: b0)) as [gb|];
      now rewrite map_set_delete_comm by exact Hab.
  - intros itemsA itemsB HA HB. rewrite Hrun, HA, HB.
    split; [|split].
    + rewrite map_get_delete_other by exact Hab. apply map_get_set_same.
    + apply map_get_delete_same.
    + rewrite <- (map_set_keys prev b (itemsB ++ itemsA) itemsB HB).
      generalize (map_set prev b (itemsB ++ itemsA)). intros m.
      induction m as [|[k v] m IH]; [reflexivity|].
      cbn [map_delete map fst filter].
      destruct (str_eqb k a); cbn [negb map fst]; now rewrite IH.
Qed.

Lemma handleGroupDrop_is_rename_witness :
  let x := Some {| id := js "i1"; file := {| name := js "a.png"; blob := 1 |};
                   url := js "blob:1"; prefix := None |} in
  let y := Some {| id := js "i2"; file := {| name := js "b.png"; blob := 2 |};
                   url := js "blob:2"; prefix := None |} in
  let prev : Store := [(js "A", [x]); (js "B", [y])] in
  handleGroupDrop (Some (js "A")) (js "B") prev
  = handleSkuChange (js "A") (js "B") prev /\
  map_get (handleGroupDrop (Some (js "A")) (js "B") prev) (js "B")
  = Some ([y] ++ [x]).
Proof.
  intros x y prev.
  assert (H1 : js "A" <> js "B") by discriminate.
  assert (H2 : js "A" <> []) by discriminate.
  assert (H3 : js "B" <> []) by discriminate.
  destruct (handleGroupDrop_is_rename (js "A") (js "B") prev H1 H2 H3)
    as (Heq & Hmerge).
  split; [exact Heq|].
  exact (proj1 (Hmerge [x] [y] eq_refl eq_refl)).
Defined.

(** ** Organizing, in full *)

Lemma str_eqb_sym (a b : str) : str_eqb a b = str_eqb b a.
Proof.
  destruct (str_eqb a b) eqn:E; symmetry.
  - apply str_eqb_eq in E. subst. apply str_eqb_refl.
  - apply str_eqb_neq. apply str_eqb_neq in E. congruence.
Qed.

Lemma map_has_keys {V : Type} (m : JsMap V) (k : str) :
  map_has m k = existsb (str_eqb k) (map fst m).
Proof.
  unfold map_has. induction m as [|[k' v] m IH]; simpl; [reflexivity|].
  rewrite (str_eqb_sym k k'). now destruct (str_eqb k' k).
Qed.

Lemma insertItem_keys (s : Store) (it : OrganizedImage) :
  map fst (insertItem s it)
  = if existsb (str_eqb (keyOf it)) (map fst s) then map fst s
    else map fst s ++ [keyOf it].
Proof.
  rewrite <- map_has_keys. unfold insertItem, map_has.
  generalize (match map_get s (keyOf it) with Some g => g | None => [] end
              ++ [Some it]). intros v.
  induction s as [|[k' g] s IH]; simpl; [reflexivity|].
  destruct (str_eqb k' (keyOf it)); simpl; [reflexivity|].
  rewrite IH. now destruct (map_get s (keyOf it)).
Qed.

Lemma insertItem_get (s : Store) (it : OrganizedImage) (k : str) :
  map_get (insertItem s it) k
  = if str_eqb (keyOf it) k
    then Some (match map_get s k with Some g => g | None => [] end
               ++ [Some it])
    else map_get s k.
Proof.
  unfold insertItem. destruct (str_eqb (keyOf it) k) eqn:E.
  - apply str_eqb_eq in E. subst k. apply map_get_set_same.
  - apply str_eqb_neq in E. now apply map_get_set_other.
Qed.

Lemma fold_insert_keys (items : list OrganizedImage) :
  forall s : Store,
    map fst (fold_left insertItem items s)
    = map fst s ++ first_seen (map fst s) (map keyOf items).
Proof.
  induction items as [|it items IH]; intros s; cbn [fold_left map first_seen].
  - now rewrite app_nil_r.
  - rewrite IH, insertItem_keys.
    destruct (existsb (str_eqb (keyOf it)) (map fst s)); [reflexivity|].
    now rewrite <- app_assoc.
Qed.

Lemma fold_insert_get (items : list OrganizedImage) (k : str) :
  forall s : Store,
    map_get (fold_left insertItem items s) k
    = match filter (fun it => str_eqb (keyOf it) k) items with
      | [] => map_get s k
      | found =>
          Some (match map_get s k with Some g => g | None => [] end
                ++ map Some found)
      end.
Proof.
  induction items as [|it items IH]; intros s; cbn [fold_left filter];
    [reflexivity|].
  rewrite IH, insertItem_get.
  destruct (str_eqb (keyOf it) k).
  - destruct (filter _ items) as [|y found].
    + reflexivity.
    + now rewrite <- app_assoc.
  - reflexivity.
Qed.

Lemma first_seen_spec (ks : list str) :
  forall seen k,
    In k (first_seen seen ks) -> In k ks /\ ~ In k seen.
Proof.
  induction ks as [|k0 ks IH]; intros seen k; cbn [first_seen];
    [contradiction|].
  destruct (existsb (str_eqb k0) seen) eqn:E.
  - intros H. destruct (IH _ _ H). split; [now right|assumption].
  - intros [<-|H].
    + split; [now left|]. intros Hin.
      assert (Ht : existsb (str_eqb k0) seen = true).
      { apply existsb_exists. exists k0. split; [exact Hin|].
        apply str_eqb_refl. }
      congruence.
    + destruct (IH _ _ H) as [H1 H2]. split; [now right|].
      intros Hin. apply H2. apply in_or_app. now left.
Qed.

Lemma first_seen_NoDup (ks : list str) :
  forall seen, NoDup (first_seen seen ks).
Proof.
  induction ks as [|k0 ks IH]; intros seen; cbn [first_seen];
    [apply NoDup_nil|].
  destruct (existsb (str_eqb k0) seen); [apply IH|].
  apply NoDup_cons; [|apply IH].
  intros H. apply first_seen_spec in H as [_ H]. apply H.
  apply in_or_app. right. now left.
Qed.

(** A map with distinct keys is its list of keys with their values. *)
Lemma map_by_keys {V : Type} (m : JsMap V) (F : str -> V) :
  NoDup (map fst m) ->
  (forall k, In k (map fst m) -> map_get m k = Some (F k)) ->
  m = map (fun k => (k, F k)) (map fst m).
Proof.
  induction m as [|[k0 v0] m IH]; cbn [map fst]; intros Hnd HF;
    [reflexivity|].
  apply NoDup_cons_iff in Hnd as [Hk0 Hnd].
  pose proof (HF k0 (or_introl eq_refl)) as H0.
  cbn [map_get] in H0. rewrite str_eqb_refl in H0. injection H0 as ->.
  f_equal. apply IH; [exact Hnd|].
  intros k Hk. specialize (HF k (or_intror Hk)). cbn [map_get] in HF.
  assert (E : str_eqb k0 k = false).
  { apply str_eqb_neq. intros ->. contradiction. }
  now rewrite E in HF.
Qed.

Lemma fold_insert_grouped (items : list OrganizedImage) :
  fold_left insertItem items [] = grouped items.
Proof.
  unfold grouped.
  pose proof (fold_insert_keys items []) as Hkeys. cbn [map app] in Hkeys.
  rewrite <- Hkeys. apply map_by_keys.
  - rewrite Hkeys. apply first_seen_NoDup.
  - intros k Hk. rewrite Hkeys in Hk.
    apply first_seen_spec in Hk as [Hk _].
    rewrite fold_insert_get. cbn [map_get app].
    destruct (filter (fun it => str_eqb (keyOf it) k) items) eqn:E;
      [|reflexivity].
    exfalso. apply in_map_iff in Hk as (it & Hit & Hin).
    assert (Hf : In it (filter (fun it => str_eqb (keyOf it) k) items)).
    { apply filter_In. split; [exact Hin|]. rewrite Hit.
      apply str_eqb_refl. }
    now rewrite E in Hf.
Qed.

Lemma newItems_ext (b1 b2 : Browser) (fs : list File) :
  forall n m,
    (forall j, uuids b1 (n + j) = uuids b2 (m + j)) ->
    (forall j, objectUrls b1 (n + j) = objectUrls b2 (m + j)) ->
    newItems b1 n fs = newItems b2 m fs.
Proof.
  induction fs as [|f fs IH]; intros n m Hu Ho; [reflexivity|].
  cbn [newItems]. f_equal.
  - specialize (Hu 0). specialize (Ho 0). rewrite !Nat.add_0_r in Hu, Ho.
    now rewrite Hu, Ho.
  - apply IH; intros j.
    + specialize (Hu (S j)). now rewrite !Nat.add_succ_r in Hu.
    + specialize (Ho (S j)). now rewrite !Nat.add_succ_r in Ho.
Qed.

Lemma addFiles_items (fs : list File) :
  forall (acc : Store) (b : Browser),
  exists b',
    addFiles acc fs b = (Ok (fold_left insertItem (newItems b 0 fs) acc), b')
    /\ revoked b' = revoked b.
Proof.
  induction fs as [|f fs IH]; intros acc b; [now exists b|].
  cbn [addFiles newItems fold_left]. unfold bind at 1.
  unfold addFile, bind, randomUUID, createObjectURL, ret.
  cbn [uuids objectUrls].
  match goal with
  | |- context [addFiles ?acc1 fs ?b1] =>
      destruct (IH acc1 b1) as (b' & Hrun & Hrev);
      rewrite Hrun; exists b'; split; [|exact Hrev]
  end.
  f_equal. f_equal. unfold insertItem, keyOf. cbn [file].
  f_equal. apply newItems_ext; reflexivity.
Qed.

Lemma forEach_revoke_streams (g : list slot) (b : Browser) :
  uuids (snd (forEach revokeImage g b)) = uuids b /\
  objectUrls (snd (forEach revokeImage g b)) = objectUrls b.
Proof.
  revert b. induction g as [|[i|] g IH]; intros b; cbn [forEach];
    [now split| |now split].
  unfold bind. cbn [revokeImage revokeObjectURL].
  match goal with
  | |- context [forEach revokeImage g ?b0] =>
      destruct (IH b0) as [H1 H2];
      destruct (forEach revokeImage g b0) as [[u|] b1]
  end; cbn [snd] in *; now split.
Qed.

Lemma revokeAll_streams (s : Store) (b : Browser) :
  uuids (snd (revokeAll s b)) = uuids b /\
  objectUrls (snd (revokeAll s b)) = objectUrls b.
Proof.
  revert b. unfold revokeAll.
  induction s as [|[k g] s IH]; intros b; cbn [forEach snd]; [now split|].
  unfold bind.
  destruct (forEach_revoke_streams g b) as [H1 H2].
  destruct (forEach revokeImage g b) as [[u|] b1]; cbn [snd] in *;
    [|now split].
  destruct (IH b1) as [H3 H4]. split; congruence.
Qed.

Lemma revokeAll_typed (t : JsMap (list OrganizedImage)) (b : Browser) :
  exists b',
    revokeAll (typedStore t) b = (Ok tt, b') /\
    revoked b' = revoked b ++ storeUrls t.
Proof.
  revert b. unfold revokeAll, typedStore, storeUrls.
  induction t as [|[k imgs] t IH]; intros b.
  - exists b. split; [reflexivity|]. cbn. now rewrite app_nil_r.
  - cbn [map forEach fst snd flat_map]. unfold bind.
    destruct (forEach_revoke_defined imgs b) as (b1 & H1 & Hr1). rewrite H1.
    destruct (IH b1) as (b' & H & Hr). exists b'. split; [exact H|].
    now rewrite Hr, Hr1, <- app_assoc.
Qed.

Lemma typedStore_defined (t : JsMap (list OrganizedImage)) :
  all_defined (typedStore t) = true.
Proof.
  induction t as [|[k imgs] t IH]; [reflexivity|].
  cbn [typedStore map all_defined forallb fst snd].
  rewrite typed_defined. exact IH.
Qed.

Lemma organizeImages_run (st : AppState) (b : Browser) :
  files st <> [] -> all_defined (organizedImages st) = true ->
  exists b',
    organizeImages st b
    = (Ok {| files := files st;
             organizedImages := grouped (newItems b 0 (files st));
             isLoading := false;
             error := None |}, b').
Proof.
  intros Hfiles Hdef. unfold organizeImages.
  destruct (files st) as [|f fs] eqn:Ef; [contradiction|].
  destruct (revokeAll_defined _ b Hdef) as (b1 & H1).
  destruct (revokeAll_streams (organizedImages st) b) as [Hu Ho].
  rewrite H1 in Hu, Ho. cbn [snd] in Hu, Ho.
  destruct (addFiles_items (f :: fs) [] b1) as (b2 & H2 & _).
  unfold bind at 1. rewrite H1. unfold bind at 1. rewrite H2.
  exists b2. unfold ret. rewrite fold_insert_grouped.
  rewrite (newItems_ext b1 b (f :: fs) 0 0)
    by (intros j; now rewrite ?Hu, ?Ho).
  reflexivity.
Qed.

(** X17. On a non-empty list of files and a store without [undefined],
    [organizeImages] replaces the store by the new items grouped by key:
    the [n]-th file becomes an item with the [n]-th UUID and object URL of
    the browser and no prefix; the groups come in order of first
    appearance of their key and each holds exactly the items of that key,
    in the order of the files; the loading flag and the error are
    cleared. *)
Theorem organizeImages_grouped (st : AppState) (b : Browser) :
  files st <> [] -> all_defined (organizedImages st) = true ->
  exists b',
    organizeImages st b
    = (Ok {| files := files st;
             organizedImages := grouped (newItems b 0 (files st));
             isLoading := false;
             error := None |}, b').
Proof.
  exact (organizeImages_run st b).
Qed.

Lemma organizeImages_grouped_witness :
  let fs := [ {| name := js "b-1.png"; blob := 1 |};
              {| name := js "a.png"; blob := 2 |};
              {| name := js "b-2.png"; blob := 3 |} ] in
  let st := {| files := fs; organizedImages := []; isLoading := false;
               error := None |} in
  let b := {| uuids := fun n => Number_toString n;
              objectUrls := fun n => js "blob:" ++ Number_toString n;
              revoked := [] |} in
  map fst (grouped (newItems b 0 fs)) = [js "b"; js "a"] /\
  exists b',
    organizeImages st b
    = (Ok {| files := fs;
             organizedImages := grouped (newItems b 0 fs);
             isLoading := false;
             error := None |}, b').
Proof.
  intros fs st b. split; [vm_compute; reflexivity|].
  apply (organizeImages_grouped st b); [discriminate|reflexivity].
Defined.

(** X18. [clearOrganizedImages] releases the store its closure captured,
    not the current one: it revokes the preview URL of every item of the
    captured store, group by group and in order, and sets the state to
    the empty map; with the empty map captured it revokes nothing.
    [organizeImages], on a non-empty list of files, revokes exactly the
    URLs of the store of its render and none of the new ones. *)
Theorem organizeImages_releases_previews (st : AppState)
    (captured t : JsMap (list OrganizedImage)) (b : Browser) :
  organizedImages st = typedStore t -> files st <> [] ->
  (exists b',
      clearOrganizedImages (typedStore captured) b = (Ok [], b') /\
      revoked b' = revoked b ++ storeUrls captured) /\
  clearOrganizedImages [] b = (Ok [], b) /\
  (exists st' b',
      organizeImages st b = (Ok st', b') /\
      revoked b' = revoked b ++ storeUrls t).
Proof.
  intros Ht Hfiles. split; [|split].
  - destruct (revokeAll_typed captured b) as (b1 & H1 & Hr1).
    exists b1. unfold clearOrganizedImages, bind. rewrite H1. now split.
  - now destruct b.
  - destruct (revokeAll_typed t b) as (b1 & H1 & Hr1).
    unfold organizeImages.
    destruct (files st) as [|f fs] eqn:Ef; [contradiction|].
    destruct (addFiles_items (f :: fs) [] b1) as (b2 & H2 & Hr2).
    unfold bind at 1. rewrite Ht, H1. unfold bind at 1. rewrite H2.
    eexists _, b2. split; [reflexivity|]. now rewrite Hr2.
Qed.

Lemma organizeImages_releases_previews_witness :
  let x := {| id := js "i1"; file := {| name := js "a.png"; blob := 1 |};
              url := js "blob:1"; prefix := None |} in
  let y := {| id := js "i2"; file := {| name := js "b.png"; blob := 2 |};
              url := js "blob:2"; prefix := None |} in
  let t := [(js "a", [x]); (js "b", [y])] in
  let st := {| files := [file x]; organizedImages := typedStore t;
               isLoading := false; error := None |} in
  let b := {| uuids := fun n => Number_toString n;
              objectUrls := fun n => Number_toString n; revoked := [] |} in
  (exists b',
      clearOrganizedImages (typedStore [(js "c", [y; x])]) b = (Ok [], b') /\
      revoked b' = [js "blob:2"; js "blob:1"]) /\
  clearOrganizedImages [] b = (Ok [], b) /\
  (exists st' b',
      organizeImages st b = (Ok st', b') /\
      revoked b' = [js "blob:1"; js "blob:2"]).
Proof.
  intros x y t st b.
  assert (Hne : files st <> []) by discriminate.
  exact (organizeImages_releases_previews st [(js "c", [y; x])] t b
           eq_refl Hne).
Defined.

Lemma newItems_ids (b : Browser) (fs : list File) :
  forall n, map id (newItems b n fs) = map (uuids b) (seq n (length fs)).
Proof.
  induction fs as [|f fs IH]; intros n; [reflexivity|].
  cbn [newItems map length seq id]. now rewrite IH.
Qed.

Lemma NoDup_map_on {A B : Type} (f : A -> B) (l : list A) :
  NoDup l ->
  (forall x y, In x l -> In y l -> f x = f y -> x = y) ->
  NoDup (map f l).
Proof.
  induction l as [|a l IH]; intros Hnd Hinj; [apply NoDup_nil|].
  apply NoDup_cons_iff in Hnd as [Ha Hnd]. cbn [map].
  apply NoDup_cons.
  - intros H. apply in_map_iff in H as (y & Hy & Hin).
    apply Ha. rewrite (Hinj a y); auto; [now left|now right].
  - apply IH; [exact Hnd|].
    intros x y Hx Hy. apply Hinj; now right.
Qed.

Lemma filter_ids_NoDup (keep : OrganizedImage -> bool)
    (items : list OrganizedImage) :
  NoDup (map id items) -> NoDup (map id (filter keep items)).
Proof.
  induction items as [|it items IH]; cbn [map filter]; intros H; [exact H|].
  apply NoDup_cons_iff in H as [Hit H].
  destruct (keep it); cbn [map]; [|now apply IH].
  apply NoDup_cons; [|now apply IH].
  intros Hin. apply Hit. apply in_map_iff in Hin as (y & Hy & Hin).
  apply filter_In in Hin as [Hin _]. rewrite <- Hy. now apply in_map.
Qed.

Lemma NoDup_map_unique {A B : Type} (f : A -> B) (l : list A) (x y : A) :
  NoDup (map f l) -> In x l -> In y l -> f x = f y -> x = y.
Proof.
  induction l as [|a l IH]; cbn [map]; intros Hnd Hx Hy E; [contradiction|].
  apply NoDup_cons_iff in Hnd as [Ha Hnd].
  destruct Hx as [->|Hx], Hy as [->|Hy].
  - reflexivity.
  - exfalso. apply Ha. rewrite E. now apply in_map.
  - exfalso. apply Ha. rewrite <- E. now apply in_map.
  - now apply IH.
Qed.

Lemma grouped_get (items : list OrganizedImage) (k : str) (g : list slot) :
  map_get (grouped items) k = Some g ->
  g = map Some (filter (fun it => str_eqb (keyOf it) k) items) /\
  filter (fun it => str_eqb (keyOf it) k) items <> [].
Proof.
  rewrite <- fold_insert_grouped, fold_insert_get. cbn [map_get app].
  destruct (filter (fun it => str_eqb (keyOf it) k) items);
    [discriminate|].
  intros H. injection H as <-. split; [reflexivity|discriminate].
Qed.

(** X19. When the UUIDs handed out for the files are pairwise distinct,
    item ids are unique across the whole organized store: within a group
    no id repeats, and two items with the same id, in any groups, are the
    same item in the same group. Every group is non-empty and holds only
    items of its own key. *)
Theorem organizeImages_unique_ids (st : AppState) (b : Browser) :
  files st <> [] -> all_defined (organizedImages st) = true ->
  (forall i j, i < length (files st) -> j < length (files st) ->
               uuids b i = uuids b j -> i = j) ->
  exists st' b',
    organizeImages st b = (Ok st', b') /\
    (forall k g,
        map_get (organizedImages st') k = Some g ->
        exists imgs,
          g = map Some imgs /\ imgs <> [] /\ NoDup (map id imgs) /\
          forall x, In x imgs -> groupNameOf (file x) = k) /\
    (forall k1 g1 x1 k2 g2 x2,
        map_get (organizedImages st') k1 = Some g1 -> In (Some x1) g1 ->
        map_get (organizedImages st') k2 = Some g2 -> In (Some x2) g2 ->
        id x1 = id x2 -> k1 = k2 /\ x1 = x2).
Proof.
  intros Hfiles Hdef Hinj.
  destruct (organizeImages_run st b Hfiles Hdef) as (b' & Hrun).
  eexists _, b'. split; [exact Hrun|]. cbn [organizedImages].
  set (items := newItems b 0 (files st)).
  assert (Hnd : NoDup (map id items)).
  { unfold items. rewrite newItems_ids. apply NoDup_map_on.
    - apply seq_NoDup.
    - intros i j Hi Hj. apply in_seq in Hi, Hj. apply Hinj; lia. }
  assert (Hmem : forall k g x,
             map_get (grouped items) k = Some g -> In (Some x) g ->
             In x items /\ keyOf x = k).
  { intros k g x Hg Hx. apply grouped_get in Hg as [-> _].
    apply in_map_iff in Hx as (y & Hy & Hin). injection Hy as ->.
    apply filter_In in Hin as [Hin Hk]. now apply str_eqb_eq in Hk. }
  split.
  - intros k g Hg. destruct (grouped_get _ _ _ Hg) as [-> Hne].
    eexists. split; [reflexivity|]. split; [exact Hne|].
    split; [now apply filter_ids_NoDup|].
    intros x Hx. apply filter_In in Hx as [_ Hk]. now apply str_eqb_eq in Hk.
  - intros k1 g1 x1 k2 g2 x2 Hg1 Hx1 Hg2 Hx2 E.
    destruct (Hmem _ _ _ Hg1 Hx1) as [Hin1 Hk1].
    destruct (Hmem _ _ _ Hg2 Hx2) as [Hin2 Hk2].
    pose proof (NoDup_map_unique id items x1 x2 Hnd Hin1 Hin2 E) as ->.
    split; [congruence|reflexivity].
Qed.

Lemma organizeImages_unique_ids_witness :
  let fs := [ {| name := js "b-1.png"; blob := 1 |};
              {| name := js "a.png"; blob := 2 |} ] in
  let st := {| files := fs; organizedImages := []; isLoading := false;
               error := None |} in
  let b := {| uuids := fun n => Number_toString n;
              objectUrls := fun n => Number_toString n; revoked := [] |} in
  exists st' b',
    organizeImages st b = (Ok st', b') /\
    (forall k1 g1 x1 k2 g2 x2,
        map_get (organizedImages st') k1 = Some g1 -> In (Some x1) g1 ->
        map_get (organizedImages st') k2 = Some g2 -> In (Some x2) g2 ->
        id x1 = id x2 -> k1 = k2 /\ x1 = x2).
Proof.
  intros fs st b.
  assert (Hne : files st <> []) by discriminate.
  assert (Hinj : forall i j, i < length (files st) -> j < length (files st) ->
                             uuids b i = uuids b j -> i = j).
  { intros i j Hi Hj. cbn in Hi, Hj.
    destruct i as [|[|i]], j as [|[|j]]; try lia; try reflexivity;
      intros H; vm_compute in H; discriminate H. }
  destruct (organizeImages_unique_ids st b Hne eq_refl Hinj)
    as (st' & b' & Hrun & _ & Huniq).
  now exists st', b'.
Defined.

(** ** Edge behaviour of the handlers *)

Lemma array_find_state (v : str) (g : list slot) (b : Browser) :
  snd (array_find (id_is v) g b) = b.
Proof.
  induction g as [|[i|] g IH]; cbn [array_find]; [reflexivity| |reflexivity].
  unfold bind. cbn [id_is ret].
  destruct (str_eqb (id i) v); [reflexivity|exact IH].
Qed.

Lemma array_find_prefix (v : str) (pre : list OrganizedImage)
    (img : OrganizedImage) (rest : list slot) (b : Browser) :
  ~ In v (map id pre) -> id img = v ->
  array_find (id_is v) (map Some pre ++ Some img :: rest) b
  = (Ok (Some img), b).
Proof.
  intros Hpre Himg. induction pre as [|y pre IH]; cbn [map app array_find];
    unfold bind; cbn [id_is ret].
  - now rewrite Himg, str_eqb_refl.
  - cbn [map In] in Hpre.
    assert (E : str_eqb (id y) v = false) by (apply str_eqb_neq; tauto).
    rewrite E. apply IH. tauto.
Qed.

Lemma array_filter_outcome (v : str) (g : list slot) (b : Browser) :
  exists r,
    array_filter (fun img => same <- id_is v img ;; ret (negb same)) g b
    = (r, b) /\
    (r = TypeError <-> In None g).
Proof.
  induction g as [|[i|] g (r & Hr & Hiff)]; cbn [array_filter].
  - eexists. split; [reflexivity|]. split; [discriminate|intros []].
  - unfold bind at 1 2. cbn [id_is ret]. unfold bind at 1. rewrite Hr.
    destruct r as [kept|].
    + eexists. split; [reflexivity|]. split; [discriminate|].
      intros [H|H]; [discriminate H|]. apply Hiff in H. discriminate H.
    + exists TypeError. split; [reflexivity|]. split; [|reflexivity].
      intros _. right. now apply Hiff.
  - exists TypeError. split; [reflexivity|]. split; [|reflexivity].
    intros _. now left.
Qed.

Lemma undefined_in (g : list slot) :
  forallb is_defined g = false -> In None g.
Proof.
  induction g as [|[i|] g IH]; cbn [forallb is_defined andb];
    [discriminate| |now left].
  intros H. right. now apply IH.
Qed.

(** X25. Deleting an item throws exactly when the group holds
    [undefined]; the store is then not replaced. When the item to delete
    comes before the first [undefined], its preview URL has already been
    revoked when the exception is thrown, although the item stays in the
    store. *)
Theorem handleDeleteImage_throws (sku v : str) (prev : Store)
    (g : list slot) (b : Browser) :
  map_get prev sku = Some g ->
  (fst (handleDeleteImage sku v prev b) = TypeError <-> In None g) /\
  (forall (pre : list OrganizedImage) (img : OrganizedImage)
          (rest : list slot),
      g = map Some pre ++ Some img :: rest ->
      ~ In v (map id pre) -> id img = v -> In None rest ->
      exists b',
        handleDeleteImage sku v prev b = (TypeError, b') /\
        revoked b' = revoked b ++ [url img]).
Proof.
  intros Hg. split.
  - split.
    + intros Hthrow.
      destruct (forallb is_defined g) eqn:Hdef;
        [|now apply undefined_in].
      exfalso. destruct (defined_typed _ Hdef) as (imgs & ->).
      destruct (handleDeleteImage_defined sku v prev imgs b Hg)
        as (b' & Hrun & _).
      rewrite Hrun in Hthrow. discriminate Hthrow.
    + intros Hin. unfold handleDeleteImage. rewrite Hg. unfold bind at 1.
      pose proof (array_find_state v g b) as Hst.
      destruct (array_find (id_is v) g b) as [[found|] b0]; [|reflexivity].
      cbn [snd] in Hst. subst b0. unfold bind at 1.
      destruct (match found with
                | Some img => revokeObjectURL (url img)
                | None => ret tt
                end b) as [[u|] b1] eqn:E;
        [|destruct found; discriminate E].
      unfold bind at 1.
      destruct (array_filter_outcome v g b1) as (r & Hr & Hiff).
      rewrite Hr. apply Hiff in Hin. now subst r.
  - intros pre img rest -> Hpre Himg Hnone.
    unfold handleDeleteImage. rewrite Hg. unfold bind at 1.
    rewrite (array_find_prefix v pre img rest b Hpre Himg).
    unfold bind at 1. cbn [revokeObjectURL]. unfold bind at 1.
    match goal with
    | |- context [array_filter _ ?g0 ?b1] =>
        destruct (array_filter_outcome v g0 b1) as (r & Hr & Hiff)
    end.
    rewrite Hr.
    assert (Hin : In None (map Some pre ++ Some img :: rest)).
    { apply in_or_app. right. now right. }
    apply Hiff in Hin. subst r. eexists. split; [reflexivity|reflexivity].
Qed.

Lemma handleDeleteImage_throws_witness :
  let x := {| id := js "i1"; file := {| name := js "a.png"; blob := 1 |};
              url := js "blob:1"; prefix := None |} in
  let prev : Store := [(js "A", [Some x; None])] in
  let b := {| uuids := fun n => Number_toString n;
              objectUrls := fun n => Number_toString n; revoked := [] |} in
  exists b',
    handleDeleteImage (js "A") (js "i1") prev b = (TypeError, b') /\
    revoked b' = [js "blob:1"].
Proof.
  intros x prev b.
  destruct (handleDeleteImage_throws (js "A") (js "i1") prev [Some x; None] b
              eq_refl) as [_ H].
  apply (H [] x [None]); try reflexivity; [intros []|now left].
Defined.







Lemma map_delete_keys {V : Type} (m : JsMap V) (a : str) :
  map fst (map_delete m a)
  = filter (fun k => negb (str_eqb k a)) (map fst m).
Proof.
  induction m as [|[k v] m IH]; [reflexivity|].
  cbn [map_delete map fst filter].
  destruct (str_eqb k a); cbn [negb map fst]; now rewrite IH.
Qed.

Lemma map_set_keys_new {V : Type} (m : JsMap V) (b : str) (v : V) :
  map_get m b = None -> map fst (map_set m b v) = map fst m ++ [b].
Proof.
  induction m as [|[k w] m IH]; cbn [map_get map_set map fst app];
    [reflexivity|].
  destruct (str_eqb k b); [discriminate|].
  intros H. cbn [map fst]. now rewrite IH.
Qed.

(** X28. Renaming a group to a key that is not in use does not keep its
    place: the group is removed and added again, so it becomes the last
    group of the store, with its items unchanged; the other groups keep
    their relative order. *)
Theorem handleSkuChange_moves_last (a b : str) (prev : Store)
    (itemsA : list slot) :
  map_get prev a = Some itemsA -> a <> b -> b <> [] ->
  map_get prev b = None ->
  map fst (handleSkuChange a b prev)
  = filter (fun k => negb (str_eqb k a)) (map fst prev) ++ [b] /\
  last (handleSkuChange a b prev) (b, []) = (b, itemsA).
Proof.
  intros HA Hab Hb HB.
  assert (Hrun : handleSkuChange a b prev
                 = map_set (map_delete prev a) b itemsA).
  { unfold handleSkuChange. apply str_eqb_neq in Hab. rewrite Hab.
    destruct b as [|c0 b0]; [contradiction|]. cbn [truthy negb orb].
    unfold map_has. rewrite map_get_delete_other, HB, HA; [reflexivity|].
    now apply str_eqb_neq. }
  assert (Hnone : map_get (map_delete prev a) b = None)
    by now rewrite map_get_delete_other.
  rewrite Hrun. split.
  - now rewrite map_set_keys_new, map_delete_keys.
  - revert Hnone. generalize (map_delete prev a). intros m.
    induction m as [|[k w] m IH]; cbn [map_get map_set]; [reflexivity|].
    destruct (str_eqb k b); [discriminate|].
    intros H. specialize (IH H).
    destruct (map_set m b itemsA) eqn:E; [|exact IH].
    destruct m as [|[k' w'] m']; cbn [map_set] in E; [discriminate E|].
    destruct (str_eqb k' b); discriminate E.
Qed.

Lemma handleSkuChange_moves_last_witness :
  let x := Some {| id := js "i1"; file := {| name := js "a.png"; blob := 1 |};
                   url := js "blob:1"; prefix := None |} in
  let y := Some {| id := js "i2"; file := {| name := js "b.png"; blob := 2 |};
                   url := js "blob:2"; prefix := None |} in
  let prev : Store := [(js "A", [x]); (js "B", [y])] in
  map fst (handleSkuChange (js "A") (js "C") prev) = [js "B"; js "C"].
Proof.
  intros x y prev.
  assert (H1 : js "A" <> js "C") by discriminate.
  assert (H2 : js "C" <> []) by discriminate.
  exact (proj1 (handleSkuChange_moves_last (js "A") (js "C") prev [x]
                  eq_refl H1 H2 eq_refl)).
Defined.

(** X29. Dropping an item, deleting an item and duplicating an item never
    leave a group without items in a store that had none, whatever keys,
    ids and indices they are given. *)
Theorem drop_delete_duplicate_keep_groups_nonempty (prev : Store) :
  no_empty_group prev ->
  (forall draggedItem targetGroup targetIndex,
      no_empty_group
        (handleDropReorder draggedItem targetGroup targetIndex prev)) /\
  (forall sku imageId b s' b',
      handleDeleteImage sku imageId prev b = (Ok s', b') ->
      no_empty_group s') /\
  (forall sku index b s' b',
      handleDuplicateImage sku index prev b = (Ok s', b') ->
      no_empty_group s').
Proof.
  intros Hprev. split; [|split].
  - intros d tg ti. now apply handleDropReorder_no_empty.
  - intros sku v b s' b'. now apply handleDeleteImage_no_empty.
  - intros sku index b s' b'. now apply handleDuplicateImage_no_empty.
Qed.

Lemma drop_delete_duplicate_keep_groups_nonempty_witness :
  let x := Some {| id := js "i1"; file := {| name := js "a.png"; blob := 1 |};
                   url := js "blob:1"; prefix := None |} in
  let prev : Store := [(js "A", [x])] in
  no_empty_group (handleDropReorder (Some (js "A", 0)) (js "B") 3 prev).
Proof.
  intros x prev.
  assert (Hprev : no_empty_group prev).
  { intros k g. unfold prev. cbn [map_get].
    destruct (str_eqb (js "A") k); [|discriminate].
    intros H. injection H as <-. discriminate. }
  apply (proj1 (drop_delete_duplicate_keep_groups_nonempty prev Hprev)).
Defined.

(** ** Export, in full *)

From Stdlib Require DecimalNat.

Lemma js_inj (s1 s2 : String.string) : js s1 = js s2 -> s1 = s2.
Proof.
  unfold js. intros H.
  rewrite <- (String.string_of_list_ascii_of_string s1),
    <- (String.string_of_list_ascii_of_string s2).
  f_equal. revert H.
  generalize (String.list_ascii_of_string s1)
             (String.list_ascii_of_string s2).
  induction l as [|a l IH]; intros [|a' l'] H; try discriminate H;
    [reflexivity|].
  cbn [map] in H. injection H as Ha Hl. f_equal; [|now apply IH].
  rewrite <- (Ascii.ascii_N_embedding a), <- (Ascii.ascii_N_embedding a').
  now rewrite Ha.
Qed.

Lemma to_uint_not_Nil (n : nat) : Nat.to_uint n <> Decimal.Nil.
Proof.
  intros H. pose proof (DecimalNat.Unsigned.of_to n) as E.
  rewrite H in E. cbn in E. subst n. discriminate H.
Qed.

Lemma Number_toString_inj (n m : nat) :
  Number_toString n = Number_toString m -> n = m.
Proof.
  unfold Number_toString. intros H. apply js_inj in H.
  apply DecimalNat.Unsigned.to_uint_inj.
  pose proof (DecimalString.NilZero.usu _ (to_uint_not_Nil n)) as Hn.
  pose proof (DecimalString.NilZero.usu _ (to_uint_not_Nil m)) as Hm.
  rewrite H in Hn. congruence.
Qed.

Lemma Number_toString_digits (n : nat) :
  forallb is_digit (Number_toString n) = true.
Proof.
  unfold Number_toString.
  assert (H : forall d,
             forallb is_digit (js (DecimalString.NilEmpty.string_of_uint d))
             = true).
  { induction d; cbn [DecimalString.NilEmpty.string_of_uint];
      [reflexivity|..]; unfold js in *;
      cbn [String.list_ascii_of_string map forallb]; now rewrite IHd. }
  destruct (Nat.to_uint n); unfold DecimalString.NilZero.string_of_uint;
    [reflexivity|..]; apply H.
Qed.

Lemma numbered_name_inj (n m : nat) (r1 r2 : str) :
  Number_toString n ++ c_hyphen :: r1 = Number_toString m ++ c_hyphen :: r2 ->
  n = m.
Proof.
  intros H. apply Number_toString_inj.
  assert (Hd : forall k, ~ In c_hyphen (Number_toString k)).
  { intros k Hin. pose proof (Number_toString_digits k) as Hk.
    rewrite forallb_forall in Hk. specialize (Hk _ Hin). discriminate Hk. }
  exact (first_occurrence_unique c_hyphen _ _ _ _ (Hd n) (Hd m) H).
Qed.

Lemma newFilename_numbered (filenamePrefix : str) (img : OrganizedImage)
    (i : nat) :
  exists rest,
    newFilename filenamePrefix img i
    = Number_toString (i + 1) ++ c_hyphen :: rest.
Proof.
  unfold newFilename. destruct (truthy _); eexists; reflexivity.
Qed.

Lemma fileCalls_names (filenamePrefix : str) :
  forall (imgs : list OrganizedImage) (start : nat)
         (calls : list (str * File)),
    fileCalls filenamePrefix (map Some imgs) start = Ok calls ->
    map snd calls = map file imgs /\
    NoDup (map fst calls) /\
    forall nm, In nm (map fst calls) ->
               exists j rest,
                 start <= j /\
                 nm = Number_toString (j + 1) ++ c_hyphen :: rest.
Proof.
  induction imgs as [|img imgs IH]; intros start calls; cbn [map fileCalls].
  - intros H. injection H as <-. repeat split; [apply NoDup_nil|].
    intros nm [].
  - destruct (fileCalls filenamePrefix (map Some imgs) (S start))
      as [tl|] eqn:E; [|discriminate].
    intros H. injection H as <-.
    destruct (IH _ _ E) as (Hsnd & Hnd & Hnames).
    cbn [map fst snd]. split; [now rewrite Hsnd|]. split.
    + apply NoDup_cons; [|exact Hnd].
      intros Hin. destruct (Hnames _ Hin) as (j & rest & Hj & Hnm).
      destruct (newFilename_numbered filenamePrefix img start) as (r0 & H0).
      rewrite H0 in Hnm. apply numbered_name_inj in Hnm. lia.
    + intros nm [<-|Hin].
      * destruct (newFilename_numbered filenamePrefix img start) as (r0 & H0).
        exists start, r0. split; [lia|exact H0].
      * destruct (Hnames _ Hin) as (j & rest & Hj & Hnm).
        exists j, rest. split; [lia|exact Hnm].
Qed.

(** X20. An export of a folder hands over one entry per item, payloads in
    the order of the group, under names that are pairwise distinct
    whatever the prefixes and the file names: no entry of the archive
    overwrites another. *)
Theorem export_names_distinct (filenamePrefix : str)
    (imgs : list OrganizedImage) :
  exists calls,
    handleDownloadSingleFolder false filenamePrefix (map Some imgs)
    = Some (Ok calls) /\
    map snd calls = map file imgs /\
    NoDup (map fst calls).
Proof.
  destruct (fileCalls_defined filenamePrefix imgs 0) as (calls & Hcalls & _).
  exists calls. unfold handleDownloadSingleFolder. rewrite Hcalls.
  destruct (fileCalls_names filenamePrefix imgs 0 calls Hcalls)
    as (Hsnd & Hnd & _).
  now repeat split.
Qed.

Lemma fileCalls_error (filenamePrefix : str) (g : list slot) :
  forall start,
    fileCalls filenamePrefix g start = TypeError <-> In None g.
Proof.
  induction g as [|[img|] g IH]; intros start; cbn [fileCalls].
  - split; [discriminate|intros []].
  - specialize (IH (S start)).
    destruct (fileCalls filenamePrefix g (S start)).
    + split; [discriminate|].
      intros [H|H]; [discriminate H|]. apply IH in H. discriminate H.
    + split; [|reflexivity]. intros _. right. now apply IH.
  - split; [now left|reflexivity].
Qed.

Lemma fileCallsMade_ok (filenamePrefix : str) (g : list slot) :
  forall start calls,
    fileCalls filenamePrefix g start = Ok calls ->
    fileCallsMade filenamePrefix g start = calls.
Proof.
  induction g as [|[img|] g IH]; intros start calls; cbn [fileCalls];
    [intros H; now injection H as <-| |discriminate].
  destruct (fileCalls filenamePrefix g (S start)) as [rest|] eqn:E;
    [|discriminate].
  intros H. injection H as <-. cbn [fileCallsMade].
  now rewrite (IH _ _ E).
Qed.

Lemma fileCallsMade_until (filenamePrefix : str)
    (imgs : list OrganizedImage) (rest : list slot) :
  forall start,
  exists calls,
    fileCalls filenamePrefix (map Some imgs) start = Ok calls /\
    fileCallsMade filenamePrefix (map Some imgs ++ None :: rest) start
    = calls.
Proof.
  induction imgs as [|img imgs IH]; intros start.
  - now exists [].
  - destruct (IH (S start)) as (calls & Hcalls & Hmade).
    exists ((newFilename filenamePrefix img start, file img) :: calls).
    cbn [map app fileCalls fileCallsMade]. now rewrite Hcalls, Hmade.
Qed.

Lemma folderCallsMade_until (filenamePrefix : str) (k : str)
    (imgs : list OrganizedImage) (rest : list slot) (after : Store) :
  forall before : JsMap (list OrganizedImage),
  exists folders calls,
    folderCalls filenamePrefix (typedStore before) = Ok folders /\
    fileCalls filenamePrefix (map Some imgs) 0 = Ok calls /\
    folderCallsMade filenamePrefix
      (typedStore before ++ (k, map Some imgs ++ None :: rest) :: after)
    = folders ++ [(k, calls)].
Proof.
  induction before as [|[k0 g0] before IH].
  - destruct (fileCallsMade_until filenamePrefix imgs rest 0)
      as (calls & Hcalls & Hmade).
    exists [], calls. split; [reflexivity|]. split; [exact Hcalls|].
    cbn [typedStore map app folderCallsMade]. rewrite Hmade.
    assert (E : fileCalls filenamePrefix (map Some imgs ++ None :: rest) 0
                = TypeError).
    { apply fileCalls_error, in_or_app. right. now left. }
    now rewrite E.
  - destruct IH as (folders & calls & Hf & Hcalls & Hmade).
    destruct (fileCalls_defined filenamePrefix g0 0) as (c0 & Hc0 & _).
    exists ((k0, c0) :: folders), calls.
    cbn [typedStore map fst snd app folderCalls folderCallsMade].
    fold (typedStore before). rewrite Hc0, Hf.
    split; [reflexivity|]. split; [exact Hcalls|].
    rewrite (fileCallsMade_ok _ _ _ _ Hc0). cbn [app]. f_equal.
    exact Hmade.
Qed.

(** X21. An export throws, and the archive is not generated, exactly when
    some element to export is [undefined]: one such element in one group
    makes the export of that folder, and of all folders, fail. By then
    the archive writer has been handed the entries of the items before
    the first [undefined] (in the export of all folders: the folders of
    the groups before it, complete, and the folder of its group up to
    it), under the same names as in an export that succeeds, and nothing
    of what follows. *)
Theorem export_fails_iff_undefined (filenamePrefix : str) :
  (forall g : list slot,
      handleDownloadSingleFolder false filenamePrefix g = Some TypeError <->
      In None g) /\
  (forall s : Store,
      s <> [] ->
      (handleDownloadAll false filenamePrefix s = Some TypeError <->
       exists k g, In (k, g) s /\ In None g)) /\
  (forall (imgs : list OrganizedImage) (rest : list slot),
      exists calls,
        handleDownloadSingleFolder false filenamePrefix (map Some imgs)
        = Some (Ok calls) /\
        fileCallsMade filenamePrefix (map Some imgs ++ None :: rest) 0
        = calls) /\
  (forall (before : JsMap (list OrganizedImage)) (k : str)
          (imgs : list OrganizedImage) (rest : list slot) (after : Store),
      exists folders calls,
        folderCalls filenamePrefix (typedStore before) = Ok folders /\
        fileCalls filenamePrefix (map Some imgs) 0 = Ok calls /\
        folderCallsMade filenamePrefix
          (typedStore before ++ (k, map Some imgs ++ None :: rest) :: after)
        = folders ++ [(k, calls)]).
Proof.
  split; [|split; [|split]].
  - intros g. unfold handleDownloadSingleFolder. cbn [negb].
    rewrite <- (fileCalls_error filenamePrefix g 0).
    split; [intros H; now injection H|intros ->; reflexivity].
  - intros s Hs. unfold handleDownloadAll.
    destruct s as [|kv s0]; [contradiction|].
    cbn [length Nat.eqb orb]. clear Hs. generalize (kv :: s0). clear kv s0.
    intros s.
    assert (H : folderCalls filenamePrefix s = TypeError <->
                exists k g, In (k, g) s /\ In None g).
    { induction s as [|[k g] s IH]; cbn [folderCalls].
      - split; [discriminate|]. intros (k & g & [] & _).
      - pose proof (fileCalls_error filenamePrefix g 0) as Hg.
        destruct (fileCalls filenamePrefix g 0).
        + destruct (folderCalls filenamePrefix s).
          * split; [discriminate|].
            intros (k' & g' & [E|Hin] & Hnone).
            -- injection E as <- <-. apply Hg in Hnone. discriminate Hnone.
            -- assert (Hex : exists k g, In (k, g) s /\ In None g)
                 by now exists k', g'.
               apply IH in Hex. discriminate Hex.
          * split; [|reflexivity]. intros _.
            destruct (proj1 IH eq_refl) as (k' & g' & Hin & Hnone).
            exists k', g'. split; [now right|exact Hnone].
        + split; [|reflexivity]. intros _. exists k, g.
          split; [now left|now apply Hg]. }
    rewrite <- H.
    split; [intros E; now injection E|intros ->; reflexivity].
  - intros imgs rest.
    destruct (fileCallsMade_until filenamePrefix imgs rest 0)
      as (calls & Hcalls & Hmade).
    exists calls. unfold handleDownloadSingleFolder. now rewrite Hcalls.
  - intros before k imgs rest after.
    apply folderCallsMade_until.
Qed.

Lemma export_fails_iff_undefined_witness :
  let x := Some {| id := js "i1"; file := {| name := js "a.png"; blob := 1 |};
                   url := js "blob:1"; prefix := None |} in
  let s : Store := [(js "A", [x]); (js "B", [None; x])] in
  s <> [] /\
  handleDownloadAll false (js "eci") s = Some TypeError.
Proof.
  intros x s.
  assert (Hs : s <> []) by discriminate.
  split; [exact Hs|].
  apply (proj1 (proj2 (export_fails_iff_undefined (js "eci"))) s Hs).
  exists (js "B"), [None; x]. split; [right; now left|now left].
Defined.

(** ** The lightbox *)

Lemma rem_wrap (len r : Z) :
  (0 <= r < len)%Z -> Z.rem (r + len) len = r.
Proof.
  intros H. rewrite Z.rem_mod_nonneg by lia.
  symmetry. apply (Z.mod_unique (r + len) len 1 r); lia.
Qed.

(** X22. With the lightbox open on [len] images and a current index
    within them, stepping forward or backward stays within the images and
    wraps around at the ends, and each step undoes the other. *)
Theorem lightbox_steps (len i : Z) :
  (0 < len)%Z -> (0 <= i < len)%Z ->
  (0 <= showNextImage len i < len)%Z /\
  (0 <= showPrevImage len i < len)%Z /\
  showPrevImage len (showNextImage len i) = i /\
  showNextImage len (showPrevImage len i) = i /\
  showNextImage len (len - 1) = 0%Z /\
  showPrevImage len 0 = (len - 1)%Z.
Proof.
  intros Hlen Hi. unfold showNextImage, showPrevImage.
  assert (Hnext : Z.rem (i + 1) len
                  = if (i + 1 =? len)%Z then 0%Z else (i + 1)%Z).
  { destruct (Z.eqb_spec (i + 1) len) as [E|E].
    - rewrite E. apply Z.rem_same. lia.
    - apply Z.rem_small. lia. }
  assert (Hprev : Z.rem (i - 1 + len) len
                  = if (i =? 0)%Z then (len - 1)%Z else (i - 1)%Z).
  { destruct (Z.eqb_spec i 0) as [E|E].
    - subst i. replace (0 - 1 + len)%Z with (len - 1)%Z by lia.
      apply Z.rem_small. lia.
    - apply rem_wrap. lia. }
  rewrite Hnext, Hprev.
  split; [destruct (Z.eqb_spec (i + 1) len); lia|].
  split; [destruct (Z.eqb_spec i 0); lia|].
  split.
  { destruct (Z.eqb_spec (i + 1) len) as [E|E].
    - replace (0 - 1 + len)%Z with (len - 1)%Z by lia.
      rewrite Z.rem_small by lia. lia.
    - replace (i + 1 - 1 + len)%Z with (i + len)%Z by lia.
      apply rem_wrap. lia. }
  split.
  { destruct (Z.eqb_spec i 0) as [E|E].
    - replace (len - 1 + 1)%Z with len by lia. rewrite Z.rem_same by lia. lia.
    - replace (i - 1 + 1)%Z with i by lia. apply Z.rem_small. lia. }
  split.
  - replace (len - 1 + 1)%Z with len by lia. apply Z.rem_same. lia.
  - replace (0 - 1 + len)%Z with (len - 1)%Z by lia. apply Z.rem_small. lia.
Qed.

Lemma lightbox_steps_witness :
  showPrevImage 3 (showNextImage 3 2) = 2%Z /\
  showNextImage 3 (showPrevImage 3 2) = 2%Z.
Proof.
  destruct (lightbox_steps 3 2) as (_ & _ & H1 & H2 & _); [lia|lia|].
  split; [exact H1|exact H2].
Defined.

(** ** Entries of an archive *)

Lemma letter_ci_lower (l c : char) :
  (97 <= l)%N -> (l <= 122)%N ->
  letter_ci l c = (ascii_lower c =? l)%N.
Proof.
  intros H1 H2. unfold letter_ci, ascii_lower.
  destruct (N.leb_spec 65 c); destruct (N.leb_spec c 90); cbn [andb];
    destruct (N.eqb_spec c l); destruct (N.eqb_spec c (l - 32)); cbn [orb];
    try reflexivity;
    try (symmetry; apply N.eqb_eq; lia);
    try (symmetry; apply N.eqb_neq; lia);
    exfalso; lia.
Qed.

Ltac split_letter :=
  match goal with
  | |- context [(?x =? ?k)%N] =>
      is_var x; destruct (N.eqb_spec x k) as [->|?]; simpl; try reflexivity
  end.

Lemma imageExtensions_codes :
  imageExtensions
  = [[106; 112; 103]; [106; 112; 101; 103]; [112; 110; 103];
     [103; 105; 102]; [119; 101; 98; 112]]%N.
Proof. reflexivity. Qed.

Lemma match_image_spec (u : str) :
  match_here imageRegex u = if is_image_suffix u then Some [] else None.
Proof.
  unfold match_here, imageRegex, is_image_suffix, is_char.
  rewrite imageExtensions_codes.
  destruct u as [|d u]; [reflexivity|].
  cbn [exec].
  destruct (N.eqb_spec d c_dot) as [->|Hd]; cbn [andb]; [|reflexivity].
  destruct u as [|a1 [|a2 [|a3 [|a4 [|a5 u]]]]];
    cbn [exec exec_repeat map existsb str_eqb];
    rewrite ?letter_ci_lower by (apply N.leb_le; reflexivity);
    try reflexivity.
  - generalize (ascii_lower a1). intros b1. repeat split_letter.
  - generalize (ascii_lower a1) (ascii_lower a2). intros b1 b2.
    repeat split_letter.
  - generalize (ascii_lower a1) (ascii_lower a2) (ascii_lower a3).
    intros b1 b2 b3. repeat split_letter.
  - generalize (ascii_lower a1) (ascii_lower a2) (ascii_lower a3)
               (ascii_lower a4).
    intros b1 b2 b3 b4. repeat split_letter.
  - generalize (ascii_lower a1) (ascii_lower a2) (ascii_lower a3)
               (ascii_lower a4) (ascii_lower a5).
    intros b1 b2 b3 b4 b5. repeat split_letter.
Qed.

Lemma existsb_str_eqb (x : str) (l : list str) :
  existsb (str_eqb x) l = true <-> In x l.
Proof.
  rewrite existsb_exists. split.
  - intros (y & Hy & E). apply str_eqb_eq in E. now subst.
  - intros H. exists x. split; [exact H|apply str_eqb_refl].
Qed.

Lemma is_image_suffix_iff (u : str) :
  is_image_suffix u = true <->
  exists ext, u = c_dot :: ext /\ In (map ascii_lower ext) imageExtensions.
Proof.
  unfold is_image_suffix. destruct u as [|d ext].
  - split; [discriminate|]. intros (ext & H & _). discriminate H.
  - rewrite andb_true_iff, N.eqb_eq, existsb_str_eqb. split.
    + intros [-> H]. now exists ext.
    + intros (ext' & E & H). injection E as -> ->. now split.
Qed.

Lemma imageRegex_test_iff (entryName : str) :
  regex_test imageRegex entryName = true <->
  exists stem ext,
    entryName = stem ++ c_dot :: ext /\
    In (map ascii_lower ext) imageExtensions.
Proof.
  unfold regex_test. split.
  - destruct (search imageRegex [] entryName) as [[[a m] t]|] eqn:E;
      [|discriminate].
    intros _. apply search_some in E as (s1 & -> & _ & Hm & _).
    rewrite match_image_spec in Hm.
    destruct (is_image_suffix (m ++ t)) eqn:Hs; [|discriminate].
    apply is_image_suffix_iff in Hs as (ext & -> & Hin).
    now exists s1, ext.
  - intros (stem & ext & -> & Hin).
    destruct (search imageRegex [] (stem ++ c_dot :: ext)) eqn:E;
      [reflexivity|].
    pose proof (search_none _ _ _ E stem (c_dot :: ext) eq_refl) as Hn.
    rewrite match_image_spec in Hn.
    assert (Hs : is_image_suffix (c_dot :: ext) = true)
      by (apply is_image_suffix_iff; now exists ext).
    rewrite Hs in Hn. discriminate Hn.
Qed.

(** X23. The test that selects the entries of an archive accepts a name
    exactly when it ends with a [.] followed by [jpg], [jpeg], [png], [gif]
    or [webp], in upper case, lower case or any mix; nothing may follow
    the extension. *)
Theorem imageRegex_accepts (entryName : str) :
  regex_test imageRegex entryName = true <->
  exists stem ext,
    entryName = stem ++ c_dot :: ext /\
    In (map ascii_lower ext) imageExtensions.
Proof.
  exact (imageRegex_test_iff entryName).
Qed.

Example imageRegex_examples :
  regex_test imageRegex (js "shots/Front.JPG") = true /\
  regex_test imageRegex (js "a.jpeg") = true /\
  regex_test imageRegex (js "a.WebP") = true /\
  regex_test imageRegex (js "a.jpg.txt") = false /\
  regex_test imageRegex (js "a.jpgg") = false /\
  regex_test imageRegex (js "jpg") = false.
Proof. repeat split; vm_compute; reflexivity. Qed.

Lemma extension_no_slash (ext : str) :
  In (map ascii_lower ext) imageExtensions -> ~ In c_slash ext.
Proof.
  intros Hin Hs.
  assert (Hl : In c_slash (map ascii_lower ext)).
  { change c_slash with (ascii_lower c_slash). now apply in_map. }
  rewrite imageExtensions_codes in Hin.
  cbn [In] in Hin.
  destruct Hin as [E|[E|[E|[E|[E|[]]]]]]; rewrite <- E in Hl;
    cbn [In] in Hl; repeat destruct Hl as [Hl|Hl];
    try discriminate Hl; exact Hl.
Qed.

Lemma entryFilename_image (stem ext : str) :
  In (map ascii_lower ext) imageExtensions ->
  exists dir base,
    stem = dir ++ base /\ ~ In c_slash base /\
    (dir = [] \/ exists d, dir = d ++ [c_slash]) /\
    entryFilename (stem ++ c_dot :: ext) = base ++ c_dot :: ext.
Proof.
  intros Hext. pose proof (extension_no_slash ext Hext) as Hns.
  unfold entryFilename.
  destruct (in_dec N.eq_dec c_slash stem) as [Hin|Hnin].
  - destruct (last_dot c_slash stem Hin) as (a & b & -> & Hb).
    exists (a ++ [c_slash]), b.
    split; [now rewrite <- app_assoc|]. split; [exact Hb|].
    split; [right; now exists a|].
    rewrite <- app_assoc. cbn [app]. rewrite split_app.
    rewrite (split_no_sep c_slash (b ++ c_dot :: ext)).
    + rewrite last_last. now destruct b.
    + intros H. apply in_app_or in H as [H|[H|H]];
        [now apply Hb|discriminate H|now apply Hns].
  - exists [], stem. split; [reflexivity|]. split; [exact Hnin|].
    split; [now left|].
    rewrite (split_no_sep c_slash (stem ++ c_dot :: ext)).
    + cbn [last]. now destruct stem.
    + intros H. apply in_app_or in H as [H|[H|H]];
        [now apply Hnin|discriminate H|now apply Hns].
Qed.

(** X24. Every file made of an archive comes from an entry that is not a
    directory and carries that entry's content; its name is the part of
    the entry name after the last [/], so it has no [/], and it still ends
    with the image extension that got the entry selected. *)
Theorem extractImagesFromZip_files (entries : list ZipEntry) (f : File) :
  In f (extractImagesFromZip entries) ->
  exists (e : ZipEntry) (dir : str),
    In e entries /\ entry_dir e = false /\ blob f = entry_blob e /\
    entry_name e = dir ++ name f /\
    (dir = [] \/ exists d, dir = d ++ [c_slash]) /\
    ~ In c_slash (name f) /\
    regex_test imageRegex (name f) = true.
Proof.
  induction entries as [|e entries IH]; cbn [extractImagesFromZip];
    [intros []|].
  destruct (negb (entry_dir e) && regex_test imageRegex (entry_name e))
    eqn:Hsel.
  - intros [<-|Hin].
    + apply andb_true_iff in Hsel as [Hdir Htest].
      apply negb_true_iff in Hdir.
      apply imageRegex_test_iff in Htest as (stem & ext & Hname & Hext).
      destruct (entryFilename_image stem ext Hext)
        as (dir & base & -> & Hbase & Hdirshape & Hfn).
      exists e, dir. cbn [name blob]. rewrite Hname, Hfn.
      split; [now left|]. split; [exact Hdir|]. split; [reflexivity|].
      split; [now rewrite <- app_assoc|]. split; [exact Hdirshape|].
      split.
      * intros H. apply in_app_or in H as [H|[H|H]];
          [now apply Hbase|discriminate H|].
        now apply (extension_no_slash ext Hext).
      * apply imageRegex_test_iff. now exists base, ext.
    + destruct (IH Hin) as (e' & dir & He' & Hrest).
      exists e', dir. split; [now right|exact Hrest].
  - intros Hin. destruct (IH Hin) as (e' & dir & He' & Hrest).
    exists e', dir. split; [now right|exact Hrest].
Qed.

Lemma extractImagesFromZip_files_witness :
  let e1 := {| entry_name := js "shots/"; entry_dir := true;
               entry_blob := 1 |} in
  let e2 := {| entry_name := js "shots/Front.JPG"; entry_dir := false;
               entry_blob := 2 |} in
  let e3 := {| entry_name := js "notes.txt"; entry_dir := false;
               entry_blob := 3 |} in
  extractImagesFromZip [e1; e2; e3]
  = [{| name := js "Front.JPG"; blob := 2 |}] /\
  exists (e : ZipEntry) (dir : str),
    In e [e1; e2; e3] /\ entry_dir e = false /\ entry_blob e = 2 /\
    entry_name e = dir ++ js "Front.JPG".
Proof.
  intros e1 e2 e3. split; [vm_compute; reflexivity|].
  destruct (extractImagesFromZip_files [e1; e2; e3]
              {| name := js "Front.JPG"; blob := 2 |})
    as (e & dir & Hin & Hdir & Hblob & Hname & _).
  { vm_compute. now left. }
  exists e, dir. cbn [blob name] in Hblob, Hname.
  split; [exact Hin|]. split; [exact Hdir|]. split; [now symmetry|exact Hname].
Defined.
